(** * db-migrator: a shallow embedding of the parser, resolver, migration
    runner and batch loader, with the properties checked against them.

    Conventions of the embedding.
    - A Go [string] is a [string] of bytes; Go compares strings bytewise, as
      [String.ltb] does.  Where the program looks at the runes of a text
      ([strings.TrimSpace], [strings.ToUpper], the loops over [[]rune(s)],
      the patterns) the embedding follows it on text in ASCII, where a rune
      is a byte; a theorem that needs this of a text has it as a
      hypothesis.
    - A Go [error] is its message; [(T, error)] results are [result T], a
      bare [error] is [option string] with [None] for [nil].
    - A Go [map] is a [gmap]; reading a missing key gives the zero value.
      The order of [range] over a map is not specified by Go and is a
      parameter wherever the code ranges over one.
    - Go's [int] is 64 bits wide; where a value comes from the caller its
      arithmetic is written with the wrap-around ([wrap64]). *)

From Stdlib Require Import ZArith Ascii String.
From Stdlib Require OrderedTypeEx.
From stdpp Require Import gmap strings list sorting pretty.

Open Scope string_scope.
Open Scope Z_scope.
Open Scope list_scope.

(* stdpp's solvers clear hypotheses by name; the note they leave is noise. *)
Set Warnings "-clear-no-such-hyp".

(** ** Results and errors *)

Inductive result (A : Type) : Type :=
| Ok (a : A)
| Err (msg : string).
Arguments Ok {A} a.
Arguments Err {A} msg.

#[export] Instance result_eq_dec {A : Type} `{EqDecision A} : EqDecision (result A).
Proof. solve_decision. Defined.

(** ** The Go standard library, as far as the program uses it *)

Module Go.

(** [int]: 64-bit two's complement. *)
Definition wrap64 (z : Z) : Z := (z + 2 ^ 63) mod 2 ^ 64 - 2 ^ 63.
Definition MaxInt64 : Z := 2 ^ 63 - 1.

(** The [/] of Go truncates toward zero: [Z.quot]. *)
Definition div64 (a b : Z) : Z := wrap64 (Z.quot a b).

Definition isSpace (c : ascii) : bool :=
  let n := nat_of_ascii c in
  ((9 <=? n) && (n <=? 13) || (n =? 32))%nat.

Definition toUpperByte (c : ascii) : ascii :=
  let n := nat_of_ascii c in
  if ((97 <=? n) && (n <=? 122))%nat then ascii_of_nat (n - 32) else c.

Definition toLowerByte (c : ascii) : ascii :=
  let n := nat_of_ascii c in
  if ((65 <=? n) && (n <=? 90))%nat then ascii_of_nat (n + 32) else c.

Definition bytes (s : string) : list ascii := list_ascii_of_string s.
Definition str (l : list ascii) : string := string_of_list_ascii l.

Fixpoint dropSpace (l : list ascii) : list ascii :=
  match l with
  | c :: l' => if isSpace c then dropSpace l' else l
  | [] => []
  end.

(** [strings.TrimSpace], for text in ASCII: the white space of ASCII is
    trimmed (Go trims the white space of Unicode, which has more runes
    outside ASCII). *)
Definition TrimSpace (s : string) : string :=
  str (rev (dropSpace (rev (dropSpace (bytes s))))).

(** [strings.ToUpper], [strings.ToLower], for text in ASCII (Go maps the
    letters outside ASCII through the tables of Unicode). *)
Definition ToUpper (s : string) : string := str (List.map toUpperByte (bytes s)).
Definition ToLower (s : string) : string := str (List.map toLowerByte (bytes s)).

(** [strings.HasPrefix s p] *)
Definition HasPrefix (s p : string) : bool := String.prefix p s.

(** [strings.HasSuffix s p] *)
Definition HasSuffix (s p : string) : bool :=
  String.prefix (str (rev (bytes p))) (str (rev (bytes s))).

(** [strings.TrimSuffix s p] *)
Definition TrimSuffix (s p : string) : string :=
  if HasSuffix s p
  then String.substring 0 (String.length s - String.length p) s
  else s.

(** [strings.Contains s sub] *)
Definition Contains (s sub : string) : bool :=
  match String.index 0 sub s with Some _ => true | None => false end.

(** [bufio.Scanner] with its default buffer and [bufio.ScanLines], on the
    lines of a file: the text between two line feeds, and what follows the
    last.  A line is handed over without its trailing carriage return.  At a
    line of [MaxScanTokenSize] bytes or more the buffer is full before the
    line ends: [Scan] returns false and [Err] is [ErrTooLong]. *)
Definition MaxScanTokenSize : Z := 64 * 1024.

Definition ErrTooLong : string := "bufio.Scanner: token too long".

Definition dropCR (line : string) : string :=
  match rev (bytes line) with
  | c :: l => if Ascii.eqb c "013" then str (rev l) else line
  | [] => line
  end.

Definition scanLine (line : string) : result string :=
  if Z.leb MaxScanTokenSize (Z.of_nat (String.length line)) then Err ErrTooLong
  else Ok (dropCR line).

(** [strconv.ParseInt(s, 10, 64)]: an optional sign, then decimal digits and
    nothing else; [None] when it returns an error (no digit, another byte,
    a value outside int64). *)
Definition isDigit (c : ascii) : bool :=
  let n := nat_of_ascii c in
  ((48 <=? n) && (n <=? 57))%nat.

Definition digitsValue (ds : list ascii) : Z :=
  fold_left (λ acc c, acc * 10 + (Z.of_nat (nat_of_ascii c) - 48)) ds 0.

Definition ParseInt (s : string) : option Z :=
  let signed :=
    match bytes s with
    | c :: rest =>
        if Ascii.eqb c "+" then (false, rest)
        else if Ascii.eqb c "-" then (true, rest)
        else (false, c :: rest)
    | [] => (false, [])
    end in
  match signed.2 with
  | [] => None
  | ds =>
      if forallb isDigit ds then
        let un := digitsValue ds in
        if signed.1 then (if Z.leb un (2 ^ 63) then Some (- un) else None)
        else (if Z.ltb un (2 ^ 63) then Some un else None)
      else None
  end.

End Go.

(** ** Go's [regexp], for the patterns of the parser

    Go's regexp package returns the leftmost match and, among the matches
    that start there, the one a backtracking matcher finds first (greedy
    operators prefer more repetitions, an alternation its left branch).  The
    matcher below is that backtracking matcher, in continuation-passing
    style.  Patterns are compiled with the [(?i)] flag in the program, so a
    literal matches without regard to ASCII case. *)

Module regexp.

Inductive re : Type :=
| Eps
| Chr (p : ascii → bool)          (* one byte of a class *)
| Seq (r1 r2 : re)
| Alt (r1 r2 : re)                (* r1|r2 *)
| Star (r : re)                   (* r*, greedy *)
| Group (n : nat) (r : re).       (* the n-th capturing group *)

Definition Opt (r : re) : re := Alt r Eps.             (* r? *)
Definition Plus (r : re) : re := Seq r (Star r).       (* r+ *)

(** The captures of a match in progress: the text of each group that took
    part, the latest first. *)
Definition captures : Type := list (nat * list ascii).

Fixpoint capture (n : nat) (c : captures) : list ascii :=
  match c with
  | (m, s) :: c' => if (m =? n)%nat then s else capture n c'
  | [] => []
  end.

Section matcher.
Context {R : Type}.

Fixpoint matchRe (r : re) (s : list ascii) (c : captures)
  (k : list ascii → captures → option R) {struct r} : option R :=
  match r with
  | Eps => k s c
  | Chr p =>
      match s with
      | a :: s' => if p a then k s' c else None
      | [] => None
      end
  | Seq r1 r2 => matchRe r1 s c (λ s' c', matchRe r2 s' c' k)
  | Alt r1 r2 =>
      match matchRe r1 s c k with
      | Some x => Some x
      | None => matchRe r2 s c k
      end
  | Star r' =>
      (fix loop (n : nat) (s : list ascii) (c : captures) {struct n} : option R :=
         match n with
         | O => k s c
         | S n' =>
             match matchRe r' s c
                     (λ s' c', if (length s' <? length s)%nat
                               then loop n' s' c' else None) with
             | Some x => Some x
             | None => k s c
             end
         end) (length s) s c
  | Group n r' =>
      matchRe r' s c
        (λ s' c', k s' ((n, take (length s - length s') s) :: c'))
  end.

End matcher.

(** A match of [r] at the start of [s]: the rest of the input and the
    captures. *)
Definition matchHere (r : re) (s : list ascii) : option (list ascii * captures) :=
  matchRe r s [] (λ s' c, Some (s', c)).

(** The submatches as Go returns them: the whole match, then groups
    [1..ngroups], empty for a group that took no part. *)
Definition submatches (ngroups : nat) (s s' : list ascii) (c : captures)
  : list string :=
  Go.str (take (length s - length s') s)
  :: ((λ n, Go.str (capture n c)) <$> seq 1 ngroups).

(** The leftmost match in [s], with what follows it. *)
Fixpoint find (r : re) (ngroups : nat) (s : list ascii)
  : option (list string * list ascii) :=
  match matchHere r s with
  | Some (s', c) => Some (submatches ngroups s s' c, s')
  | None =>
      match s with
      | _ :: t => find r ngroups t
      | [] => None
      end
  end.

(** [re.FindStringSubmatch]; [nil] without a match. *)
Definition FindStringSubmatch (r : re) (ngroups : nat) (s : string) : list string :=
  match find r ngroups (Go.bytes s) with
  | Some (m, _) => m
  | None => []
  end.

(** [re.FindAllStringSubmatch(s, -1)]: the successive matches, each search
    starting where the last match ended.  No pattern of the program matches
    the empty text, and the search stops if one did. *)
Fixpoint findAll (fuel : nat) (r : re) (ngroups : nat) (s : list ascii)
  : list (list string) :=
  match fuel with
  | O => []
  | S fuel' =>
      match find r ngroups s with
      | Some (m, s') =>
          if (length s' <? length s)%nat
          then m :: findAll fuel' r ngroups s' else [m]
      | None => []
      end
  end.

Definition FindAllStringSubmatch (r : re) (ngroups : nat) (s : string)
  : list (list string) :=
  findAll (S (String.length s)) r ngroups (Go.bytes s).

(** Pieces of the patterns. *)
Definition byte (a : ascii) : re := Chr (Ascii.eqb a).
(** A literal under [(?i)]. *)
Definition lit (s : string) : re :=
  foldr (λ a r, Seq (Chr (λ b, Ascii.eqb (Go.toUpperByte b) (Go.toUpperByte a))) r)
        Eps (Go.bytes s).
(** [\s]: tab, newline, form feed, carriage return, space. *)
Definition isReSpace (a : ascii) : bool :=
  let n := nat_of_ascii a in
  ((n =? 9) || (n =? 10) || (n =? 12) || (n =? 13) || (n =? 32))%nat.
(** [\w]: [0-9A-Za-z_]. *)
Definition isWord (a : ascii) : bool :=
  let n := nat_of_ascii a in
  ((48 <=? n) && (n <=? 57) || (65 <=? n) && (n <=? 90)
   || (97 <=? n) && (n <=? 122) || (n =? 95))%nat.
Definition ws1 : re := Plus (Chr isReSpace).            (* \s+ *)
Definition word : re := Plus (Chr isWord).              (* \w+ *)
Definition seqs (rs : list re) : re := foldr Seq Eps rs.

End regexp.

(** ** internal/types *)

Module types.

Record SQLStatement : Type := mkSQLStatement {
  Type_ : string;               (* CREATE_TABLE, CREATE_VIEW, ... *)
  Name : string;
  Statement : string;
  Dependencies : list string
}.

#[export] Instance SQLStatement_eq_dec : EqDecision SQLStatement.
Proof. solve_decision. Defined.

(** The zero value of the struct, read from a map at a missing key. *)
Definition zeroSQLStatement : SQLStatement :=
  {| Type_ := ""; Name := ""; Statement := ""; Dependencies := [] |}.

End types.

(** ** internal/sqlparser: the statement parser and the dependency resolver *)

Module sqlparser.
Import types regexp.

(** *** The parser *)

Record Parser : Type := mkParser { delimiter : string }.

Definition NewParser : Parser := {| delimiter := ";" |}.

(** The scan flags [ParseFile] threads through [processLine]. *)
Record scanState : Type := mkScanState {
  inMultiLineComment : bool;
  inString : bool;
  stringChar : ascii
}.

Definition scanStart : scanState :=
  {| inMultiLineComment := false; inString := false; stringChar := zero |}.

Definition isByte (a : ascii) (o : option ascii) : bool :=
  match o with Some b => Ascii.eqb a b | None => false end.

(** The loop of [processLine] over the runes of a line, for a line in ASCII,
    whose runes are its bytes and are written as they are.  [prev] is
    [runes[i-1]] ([None] at [i = 0]) and the head of [rest] is
    [runes[i+1]].  The [i++] of the source sits in a [range] loop, where it
    does not move the iteration: every rune is visited. *)
Fixpoint processRunes (prev : option ascii) (runes : list ascii)
  (st : scanState) (out : list ascii) : list ascii * scanState :=
  match runes with
  | [] => (out, st)
  | r :: rest =>
      if inMultiLineComment st then
        if Ascii.eqb r "*" && isByte "/" (head rest)
        then processRunes (Some r) rest
               {| inMultiLineComment := false; inString := inString st;
                  stringChar := stringChar st |} out
        else processRunes (Some r) rest st out
      else if inString st then
        if Ascii.eqb r (stringChar st) && negb (isByte "\" prev)
        then processRunes (Some r) rest
               {| inMultiLineComment := inMultiLineComment st; inString := false;
                  stringChar := stringChar st |} (out ++ [r])
        else processRunes (Some r) rest st (out ++ [r])
      else if Ascii.eqb r "'" || Ascii.eqb r "034" || Ascii.eqb r "`" then
        processRunes (Some r) rest
          {| inMultiLineComment := inMultiLineComment st; inString := true;
             stringChar := r |} (out ++ [r])
      else if Ascii.eqb r "-" && isByte "-" (head rest) then (out, st)
      else if Ascii.eqb r "/" && isByte "*" (head rest) then
        processRunes (Some r) rest
          {| inMultiLineComment := true; inString := inString st;
             stringChar := stringChar st |} out
      else processRunes (Some r) rest st (out ++ [r])
  end.

Definition processLine (line : string) (st : scanState) : string * scanState :=
  let r := processRunes None (Go.bytes line) st [] in
  (Go.TrimSpace (Go.str r.1), r.2).

Definition isStatementEnd (p : Parser) (line : string) (inString : bool) : bool :=
  if inString then false
  else Go.HasSuffix (Go.TrimSpace line) (delimiter p).

(** The patterns. *)
Definition backtick : ascii := "`".

(** [(?:\x60?(\w+)\x60?\.)?(?:\x60?(\w+)\x60?)], with its two groups. *)
Definition qualified (g1 g2 : nat) : re :=
  Seq (Opt (seqs [Opt (byte backtick); Group g1 word; Opt (byte backtick); byte "."]))
      (seqs [Opt (byte backtick); Group g2 word; Opt (byte backtick)]).

Definition orReplace : re := Opt (seqs [lit "OR"; ws1; lit "REPLACE"; ws1]).

Definition reCreateTable : re :=
  seqs [lit "CREATE"; ws1; lit "TABLE"; ws1;
        Opt (seqs [lit "IF"; ws1; lit "NOT"; ws1; lit "EXISTS"; ws1]);
        qualified 1 2].

Definition reCreateView : re :=
  seqs [lit "CREATE"; ws1; orReplace; lit "VIEW"; ws1; qualified 1 2].

Definition reCreateProcedure : re :=
  seqs [lit "CREATE"; ws1; orReplace;
        Group 1 (Alt (lit "PROCEDURE") (lit "FUNCTION")); ws1; qualified 2 3].

Definition triggerEvent : re :=
  Alt (lit "INSERT") (Alt (lit "UPDATE") (lit "DELETE")).

Definition reCreateTrigger : re :=
  seqs [lit "CREATE"; ws1; lit "TRIGGER"; ws1; qualified 1 2; ws1;
        Alt (lit "BEFORE") (Alt (lit "AFTER") (seqs [lit "INSTEAD"; ws1; lit "OF"]));
        ws1; triggerEvent; Star (seqs [ws1; lit "OR"; ws1; triggerEvent]);
        ws1; lit "ON"; ws1; qualified 3 4].

Definition reCreateIndex : re :=
  seqs [lit "CREATE"; ws1; Opt (seqs [lit "UNIQUE"; ws1]); lit "INDEX"; ws1;
        qualified 1 2; ws1; lit "ON"; ws1; qualified 3 4].

Definition reReferences : re := seqs [lit "REFERENCES"; ws1; qualified 1 2].

Definition reFromJoin : re :=
  seqs [Alt (lit "FROM") (lit "JOIN"); ws1; qualified 1 2].

(** [matches[i]] *)
Definition sub (matches : list string) (i : nat) : string := nth i matches "".

(** [name := matches[j]; if matches[i] != "" { name = matches[i] + "." + name }] *)
Definition qualifiedName (matches : list string) (i j : nat) : string :=
  if decide (sub matches i ≠ "")
  then String.append (sub matches i) (String.append "." (sub matches j))
  else sub matches j.

Definition dependenciesOf (r : re) (statement : string) : list string :=
  (λ m, qualifiedName m 1 2)
    <$> filter (λ m, (3 ≤ length m)%nat) (FindAllStringSubmatch r 2 statement).

Definition extractForeignKeyDependencies (statement : string) : list string :=
  dependenciesOf reReferences statement.

Definition extractTableDependencies (statement : string) : list string :=
  dependenciesOf reFromJoin statement.

Definition parseCreateTable (statement : string) : result (option SQLStatement) :=
  let matches := FindStringSubmatch reCreateTable 2 statement in
  if (length matches <? 3)%nat then Err "无法解析表名"
  else Ok (Some {| Type_ := "CREATE_TABLE";
                   Name := qualifiedName matches 1 2;
                   Statement := statement;
                   Dependencies := extractForeignKeyDependencies statement |}).

Definition parseCreateView (statement : string) : result (option SQLStatement) :=
  let matches := FindStringSubmatch reCreateView 2 statement in
  if (length matches <? 3)%nat then Err "无法解析视图名"
  else Ok (Some {| Type_ := "CREATE_VIEW";
                   Name := qualifiedName matches 1 2;
                   Statement := statement;
                   Dependencies := extractTableDependencies statement |}).

Definition parseCreateProcedure (statement : string) : result (option SQLStatement) :=
  let matches := FindStringSubmatch reCreateProcedure 3 statement in
  if (length matches <? 4)%nat then Err "无法解析存储过程/函数名"
  else Ok (Some {| Type_ := String.append "CREATE_" (Go.ToUpper (sub matches 1));
                   Name := qualifiedName matches 2 3;
                   Statement := statement;
                   Dependencies := [] |}).

Definition parseCreateTrigger (statement : string) : result (option SQLStatement) :=
  let matches := FindStringSubmatch reCreateTrigger 4 statement in
  if (length matches <? 5)%nat then Err "无法解析触发器信息"
  else Ok (Some {| Type_ := "CREATE_TRIGGER";
                   Name := qualifiedName matches 1 2;
                   Statement := statement;
                   Dependencies := [qualifiedName matches 3 4] |}).

Definition parseCreateIndex (statement : string) : result (option SQLStatement) :=
  let matches := FindStringSubmatch reCreateIndex 4 statement in
  if (length matches <? 5)%nat then Err "无法解析索引信息"
  else Ok (Some {| Type_ := "CREATE_INDEX";
                   Name := qualifiedName matches 1 2;
                   Statement := statement;
                   Dependencies := [qualifiedName matches 3 4] |}).

(** [parseStatement]: [Ok None] is the [nil, nil] of a statement that is
    ignored. *)
Definition parseStatement (statement : string) : result (option SQLStatement) :=
  let statement := Go.TrimSpace statement in
  if decide (statement = "") then Ok None
  else
    let upperStatement := Go.ToUpper statement in
    if Go.HasPrefix upperStatement "CREATE TABLE" then parseCreateTable statement
    else if Go.HasPrefix upperStatement "CREATE VIEW"
            || Go.Contains upperStatement "CREATE OR REPLACE VIEW"
    then parseCreateView statement
    else if Go.HasPrefix upperStatement "CREATE PROCEDURE"
            || Go.HasPrefix upperStatement "CREATE FUNCTION"
            || Go.Contains upperStatement "CREATE OR REPLACE PROCEDURE"
            || Go.Contains upperStatement "CREATE OR REPLACE FUNCTION"
    then parseCreateProcedure statement
    else if Go.HasPrefix upperStatement "CREATE TRIGGER" then parseCreateTrigger statement
    else if Go.HasPrefix upperStatement "CREATE INDEX"
            || Go.HasPrefix upperStatement "CREATE UNIQUE INDEX"
    then parseCreateIndex statement
    else if Go.HasPrefix upperStatement "CREATE"
    then Ok (Some {| Type_ := "CREATE_OTHER"; Name := "unknown";
                     Statement := statement; Dependencies := [] |})
    else Ok None.

(** The variables of [ParseFile]'s loop. *)
Record fileState : Type := mkFileState {
  parser : Parser;
  scan : scanState;
  currentStatement : string;
  statements : list SQLStatement;
  lineNumber : Z
}.

Definition fileStart (p : Parser) : fileState :=
  {| parser := p; scan := scanStart; currentStatement := "";
     statements := []; lineNumber := 0 |}.

(** [line[9:]] of a line that starts, after trimming, with DELIMITER. *)
Definition afterDirective (line : string) : string :=
  String.substring 9 (String.length line - 9) line.

Definition isDirective (line : string) : bool :=
  Go.HasPrefix (Go.TrimSpace (Go.ToUpper line)) "DELIMITER".

(** One turn of [for scanner.Scan()]: the next state, or the error
    [ParseFile] returns. *)
Definition parseLine (fs : fileState) (line : string) : result fileState :=
  let n := lineNumber fs + 1 in
  if isDirective line then
    Ok {| parser := {| delimiter := Go.TrimSpace (afterDirective line) |};
          scan := scan fs; currentStatement := currentStatement fs;
          statements := statements fs; lineNumber := n |}
  else
    let pl := processLine line (scan fs) in
    if decide (pl.1 = "") then
      Ok {| parser := parser fs; scan := pl.2;
            currentStatement := currentStatement fs;
            statements := statements fs; lineNumber := n |}
    else
      let cur := String.append (currentStatement fs) (String.append pl.1 " ") in
      if isStatementEnd (parser fs) pl.1 (inString pl.2) then
        let statementText :=
          Go.TrimSpace (Go.TrimSuffix (Go.TrimSpace cur) (delimiter (parser fs))) in
        if decide (statementText ≠ "") then
          match parseStatement statementText with
          | Err e =>
              Err (String.append "第" (String.append (pretty n)
                     (String.append "行解析错误: " e)))
          | Ok o =>
              Ok {| parser := parser fs; scan := pl.2; currentStatement := "";
                    statements := statements fs ++ option_list o;
                    lineNumber := n |}
          end
        else
          Ok {| parser := parser fs; scan := pl.2; currentStatement := "";
                statements := statements fs; lineNumber := n |}
      else
        Ok {| parser := parser fs; scan := pl.2; currentStatement := cur;
              statements := statements fs; lineNumber := n |}.

(** The loop [for scanner.Scan()] over the lines of the file.  When the
    scanner gives up at a line the loop ends, and [ParseFile] returns the
    error of [scanner.Err()] in place of the statements. *)
Fixpoint parseLines (fs : fileState) (lines : list string) : result fileState :=
  match lines with
  | [] => Ok fs
  | line :: rest =>
      match Go.scanLine line with
      | Err err => Err (String.append "读取文件错误: " err)
      | Ok text =>
          match parseLine fs text with
          | Ok fs' => parseLines fs' rest
          | Err e => Err e
          end
      end
  end.

(** [ParseFile], on the lines of a file that can be opened: the texts
    between its line feeds, as the file has them. *)
Definition ParseFile (p : Parser) (lines : list string) : result (list SQLStatement) :=
  match parseLines (fileStart p) lines with
  | Ok fs => Ok (statements fs)
  | Err e => Err e
  end.

(** [ValidateStatements]: no two statements of one type and name.  [names]
    is the map of the keys seen, read with Go's zero value for a key it does
    not have. *)
Fixpoint validateNames (names : gmap string bool) (statements : list SQLStatement)
  : option string :=
  match statements with
  | [] => None
  | stmt :: rest =>
      let key := String.append (Type_ stmt) (String.append ":" (Name stmt)) in
      if default false (names !! key)
      then Some (String.append "重复定义: "
                   (String.append (Type_ stmt) (String.append " " (Name stmt))))
      else validateNames (<[key := true]> names) rest
  end.

Definition ValidateStatements (statements : list SQLStatement) : option string :=
  validateNames ∅ statements.

(** *** The resolver *)

(** [graph[k]], [inDegree[k]], [stmtMap[k]]: Go's map reads. *)
Definition getList (m : gmap string (list string)) (k : string) : list string :=
  default [] (m !! k).
Definition getInt (m : gmap string Z) (k : string) : Z :=
  default 0 (m !! k).
Definition getStmt (m : gmap string SQLStatement) (k : string) : SQLStatement :=
  default zeroSQLStatement (m !! k).

(** The three maps [SortByDependencies] builds. *)
Record depGraph : Type := mkDepGraph {
  graph : gmap string (list string);
  inDegree : gmap string Z;
  stmtMap : gmap string SQLStatement
}.

Definition emptyDepGraph : depGraph :=
  {| graph := ∅; inDegree := ∅; stmtMap := ∅ |}.

(** First loop: one node per statement name. *)
Definition initNode (g : depGraph) (stmt : SQLStatement) : depGraph :=
  {| graph := <[Name stmt := []]> (graph g);
     inDegree := <[Name stmt := 0]> (inDegree g);
     stmtMap := <[Name stmt := stmt]> (stmtMap g) |}.

(** Second loop, inner body: an edge [dep -> name] when [dep] is a node. *)
Definition addDependency (name : string) (g : depGraph) (dep : string) : depGraph :=
  match stmtMap g !! dep with
  | Some _ =>
      {| graph := <[dep := getList (graph g) dep ++ [name]]> (graph g);
         inDegree := <[name := getInt (inDegree g) name + 1]> (inDegree g);
         stmtMap := stmtMap g |}
  | None => g
  end.

Definition addDependencies (g : depGraph) (stmt : SQLStatement) : depGraph :=
  foldl (addDependency (Name stmt)) g (Dependencies stmt).

Definition buildGraph (statements : list SQLStatement) : depGraph :=
  foldl addDependencies (foldl initNode emptyDepGraph statements) statements.

(** The state of the topological loop. *)
Record kahnState : Type := mkKahnState {
  queue : list string;
  degrees : gmap string Z;
  result_ : list SQLStatement;
  processed : Z
}.

(** [inDegree[neighbor]--; if inDegree[neighbor] == 0 { queue = append(queue, neighbor) }] *)
Definition visitNeighbor (dq : gmap string Z * list string) (neighbor : string)
  : gmap string Z * list string :=
  let deg := <[neighbor := getInt dq.1 neighbor - 1]> dq.1 in
  if decide (getInt deg neighbor = 0) then (deg, dq.2 ++ [neighbor]) else (deg, dq.2).

(** One turn of [for len(queue) > 0]. *)
Definition kahnStep (g : depGraph) (current : string) (rest : list string)
  (st : kahnState) : kahnState :=
  let dq := foldl visitNeighbor (degrees st, rest) (getList (graph g) current) in
  {| queue := dq.2;
     degrees := dq.1;
     result_ := result_ st ++ [getStmt (stmtMap g) current];
     processed := processed st + 1 |}.

(** The loop, bounded by [fuel] turns; [None] when the fuel runs out
    ([kahnLoop_fuel] shows that the fuel [SortByDependencies] gives is
    enough). *)
Fixpoint kahnLoop (fuel : nat) (g : depGraph) (st : kahnState) : option kahnState :=
  match queue st with
  | [] => Some st
  | current :: rest =>
      match fuel with
      | O => None
      | S fuel' => kahnLoop fuel' g (kahnStep g current rest st)
      end
  end.

(** The priority table of the final re-sort; a type missing from it reads 0. *)
Definition typeOrder (ty : string) : Z :=
  if decide (ty = "CREATE_TABLE") then 1
  else if decide (ty = "CREATE_VIEW") then 2
  else if decide (ty = "CREATE_PROCEDURE") then 3
  else if decide (ty = "CREATE_FUNCTION") then 3
  else if decide (ty = "CREATE_TRIGGER") then 4
  else if decide (ty = "CREATE_INDEX") then 5
  else if decide (ty = "CREATE_OTHER") then 6
  else 0.

(** The [less] closure handed to [sort.Slice]. *)
Definition less (a b : SQLStatement) : bool :=
  if decide (typeOrder (Type_ a) ≠ typeOrder (Type_ b))
  then bool_decide (typeOrder (Type_ a) < typeOrder (Type_ b))
  else String.ltb (Name a) (Name b).

(** [sort.Slice] orders by [less]; [b] may follow [a] when [b] is not less
    than [a].  Statements that tie on priority and name may come out of Go's
    sort in either order; here they keep their order. *)
Definition notAfter (a b : SQLStatement) : Prop := less b a = false.

#[export] Instance notAfter_dec : RelDecision notAfter.
Proof. intros a b. unfold notAfter. apply _. Defined.

Definition sortSlice (l : list SQLStatement) : list SQLStatement :=
  merge_sort notAfter l.

Section SortByDependencies.

(** The order in which [for name, degree := range inDegree] visits the map. *)
Variable rangeOrder : list (string * Z) → list (string * Z).

Definition initialQueue (g : depGraph) : list string :=
  (filter (λ nd, nd.2 = 0) (rangeOrder (map_to_list (inDegree g)))).*1.

Definition kahnStart (g : depGraph) : kahnState :=
  {| queue := initialQueue g; degrees := inDegree g; result_ := []; processed := 0 |}.

Definition SortByDependencies (statements : list SQLStatement)
  : option (result (list SQLStatement)) :=
  let g := buildGraph statements in
  match kahnLoop (S (length statements)) g (kahnStart g) with
  | None => None
  | Some st =>
      if decide (processed st ≠ Z.of_nat (length statements))
      then Some (Err "检测到循环依赖")
      else Some (Ok (sortSlice (result_ st)))
  end.

End SortByDependencies.

End sqlparser.

(** ** internal/migrator: the migration runner

    Execution is single-threaded, so a transaction is a working copy of the
    store: [Commit] installs it, [Rollback] drops it.  The statements of a
    migration body act on the user tables; the ledger and the lock table are
    the runner's.  A call of the runner on its database handle may be
    refused by the driver (a lost connection, a missing table); what the
    driver answers is a parameter, [driverError]. *)

Module migrator.

(** A row of the versions table ([types.MigrationRecord]). *)
Record MigrationRecord : Type := mkMigrationRecord {
  record_Version : string;
  record_Description : string;
  record_AppliedAt : Z;
  record_Success : bool;
  record_ErrorMsg : string
}.

(** The row [id = 1] of the lock table. *)
Record lockRow : Type := mkLockRow {
  locked : bool;
  locked_at : option Z;
  locked_by : option string
}.

(** [*sql.Tx], as a migration body may receive it from [Begin]. *)
Inductive Tx : Type := sqlTx.

(** The calls a migration body makes on the [types.DB] it is given, and what
    it returns.  [QueryRow] reads like [Query]. *)
Inductive body : Type :=
| Return (err : option string)
| Exec (query : string) (k : result Z → body)
| Query (query : string) (k : result (list (list string)) → body)
| Begin (k : result Tx → body)
| Close (k : option string → body).

(** [types.Migration] *)
Record Migration : Type := mkMigration {
  Version : string;
  Description : string;
  Up : body;
  Down : body
}.

(** What a run did, in order: the bodies it started and the calls they
    made. *)
Inductive event : Type :=
| RunUp (version : string)
| RunDown (version : string)
| CallExec (query : string)
| CallQuery (query : string)
| CallBegin (r : result Tx)
| CallClose.

(** The calls the runner itself makes on [m.db] and on its transaction. *)
Inductive dbCall : Type :=
| AcquireExec          (* the UPDATE of acquireLock *)
| ReleaseExec          (* the UPDATE of releaseLock *)
| AppliedQuery         (* the SELECT of getAppliedMigrations *)
| OrderedQuery         (* the SELECT of getAppliedMigrationsOrdered *)
| BeginTx              (* m.db.Begin() *)
| RecordExec           (* the INSERT of recordMigration *)
| RemoveExec           (* the DELETE of removeMigrationRecord *)
| CommitTx.            (* tx.Commit() *)

Section runner.

(** The user tables and the engine's meaning of the statements run on
    them. *)
Context {U : Type}.
Variable engineExec : string → U → U * result Z.
Variable engineQuery : string → U → result (list (list string)).

(** One logical database: the versions table in insertion order, the lock
    table's row if it has one, the user tables, the server's clock. *)
Record Store : Type := mkStore {
  ledger : list MigrationRecord;
  lockTable : option lockRow;
  user : U;
  now : Z
}.

(** The error with which the driver refuses a call of the runner in the
    state at hand; [None] when the call is carried out. *)
Variable driverError : dbCall → Store → option string.

(** The method table of a [types.DB] value whose state is a transaction's
    working copy. *)
Record DB : Type := mkDB {
  db_Exec : string → Store → Store * result Z;
  db_Query : string → Store → Store * result (list (list string));
  db_Begin : Store → Store * result Tx;
  db_Close : Store → Store * option string
}.

(** [TxWrapper]: [Exec], [Query] go to the transaction, [Begin] refuses,
    [Close] does nothing. *)
Definition TxWrapper : DB :=
  {| db_Exec := λ query w,
       let r := engineExec query (user w) in
       ({| ledger := ledger w; lockTable := lockTable w; user := r.1; now := now w |}, r.2);
     db_Query := λ query w, (w, engineQuery query (user w));
     db_Begin := λ w, (w, Err "在事务中不能开始新事务");
     db_Close := λ w, (w, None) |}.

(** A body run against a [types.DB]: the store after it, its error and the
    calls it made. *)
Fixpoint runBody (db : DB) (b : body) (w : Store) : Store * option string * list event :=
  match b with
  | Return err => (w, err, [])
  | Exec query k =>
      let r := db_Exec db query w in
      let o := runBody db (k r.2) r.1 in
      (o.1.1, o.1.2, CallExec query :: o.2)
  | Query query k =>
      let r := db_Query db query w in
      let o := runBody db (k r.2) r.1 in
      (o.1.1, o.1.2, CallQuery query :: o.2)
  | Begin k =>
      let r := db_Begin db w in
      let o := runBody db (k r.2) r.1 in
      (o.1.1, o.1.2, CallBegin r.2 :: o.2)
  | Close k =>
      let r := db_Close db w in
      let o := runBody db (k r.2) r.1 in
      (o.1.1, o.1.2, CallClose :: o.2)
  end.

(** [Migrator]: the fields the runner reads. *)
Record Migrator : Type := mkMigrator {
  DryRun : bool;                       (* config.DryRun *)
  migrations : list Migration
}.

(** [recordMigration]: the INSERT into the versions table.
    [createMigrationsTable] declares [version VARCHAR(255) PRIMARY KEY], so
    the server refuses a version the table has, with its error 1062;
    [applied_at] defaults to the current timestamp. *)
Definition recordMigration (w : Store) (version description : string)
  (success : bool) (errorMsg : string) : Store * option string :=
  match driverError RecordExec w with
  | Some e => (w, Some e)
  | None =>
      if decide (version ∈ record_Version <$> ledger w)
      then (w, Some (String.append "Error 1062: Duplicate entry '"
                       (String.append version "' for key 'PRIMARY'")))
      else ({| ledger := ledger w ++ [{| record_Version := version;
                                         record_Description := description;
                                         record_AppliedAt := now w;
                                         record_Success := success;
                                         record_ErrorMsg := errorMsg |}];
               lockTable := lockTable w; user := user w; now := now w |}, None)
  end.

(** [removeMigrationRecord]: DELETE ... WHERE version = ? *)
Definition removeMigrationRecord (w : Store) (version : string) : Store * option string :=
  match driverError RemoveExec w with
  | Some e => (w, Some e)
  | None =>
      ({| ledger := filter (λ r, record_Version r ≠ version) (ledger w);
          lockTable := lockTable w; user := user w; now := now w |}, None)
  end.

(** [executeMigration]: the store after it, the error, the events.  The
    transaction is the working copy [tx]; every return before [Commit] runs
    the deferred [Rollback] and leaves the store [s]. *)
Definition executeMigration (m : Migrator) (s : Store) (migration : Migration)
  (isUp : bool) : Store * option string * list event :=
  let version := Version migration in
  let description := Description migration in
  if DryRun m then (s, None, [])
  else
    match driverError BeginTx s with
    | Some e => (s, Some (String.append "开始事务失败: " e), [])
    | None =>
        let tx := s in
        let run := runBody TxWrapper (if isUp then Up migration else Down migration) tx in
        let migrationErr := run.1.2 in
        let started := (if isUp then RunUp version else RunDown version) :: run.2 in
        let rec :=
          if isUp then
            match migrationErr with
            | None => recordMigration run.1.1 version description true ""
            | Some e => recordMigration run.1.1 version description false e
            end
          else removeMigrationRecord run.1.1 version in
        match rec.2 with
        | Some err => (s, Some (String.append "更新迁移记录失败: " err), started)
        | None =>
            match migrationErr with
            | Some e => (s, Some e, started)
            | None =>
                match driverError CommitTx rec.1 with
                | Some e => (s, Some (String.append "提交事务失败: " e), started)
                | None => (rec.1, None, started)
                end
            end
        end
    end.

(** [acquireLock]: UPDATE ... SET locked = TRUE ... WHERE id = 1 AND locked =
    FALSE, and the test of the affected rows. *)
Definition acquireLock (s : Store) : Store * option string :=
  match driverError AcquireExec s with
  | Some e => (s, Some e)
  | None =>
      match lockTable s with
      | Some row =>
          if locked row
          then (s, Some "无法获取迁移锁，可能有其他迁移正在进行")
          else ({| ledger := ledger s;
                   lockTable := Some {| locked := true; locked_at := Some (now s);
                                        locked_by := Some "db-migrator" |};
                   user := user s; now := now s |}, None)
      | None => (s, Some "无法获取迁移锁，可能有其他迁移正在进行")
      end
  end.

(** [releaseLock]: UPDATE ... SET locked = FALSE ... WHERE id = 1.  [Up] and
    [Down] defer it and drop the error it returns. *)
Definition releaseLock (s : Store) : Store * option string :=
  match driverError ReleaseExec s with
  | Some e => (s, Some e)
  | None =>
      ({| ledger := ledger s;
          lockTable := match lockTable s with
                       | Some _ => Some {| locked := false; locked_at := None;
                                           locked_by := None |}
                       | None => None
                       end;
          user := user s; now := now s |}, None)
  end.

(** [getAppliedMigrations]: the rows with success = TRUE, keyed by version. *)
Definition getAppliedMigrations (s : Store) : result (gmap string MigrationRecord) :=
  match driverError AppliedQuery s with
  | Some e => Err e
  | None =>
      Ok (foldl (λ acc r, <[record_Version r := r]> acc) ∅
                (filter (λ r, record_Success r = true) (ledger s)))
  end.

(** [getAppliedMigrationsOrdered], with order DESC: by [applied_at], latest
    first; rows of one timestamp keep the order of the ledger. *)
Definition laterFirst (a b : MigrationRecord) : Prop :=
  record_AppliedAt b ≤ record_AppliedAt a.

#[export] Instance laterFirst_dec : RelDecision laterFirst.
Proof. intros a b. unfold laterFirst. apply _. Defined.

Definition getAppliedMigrationsOrdered (s : Store) : result (list MigrationRecord) :=
  match driverError OrderedQuery s with
  | Some e => Err e
  | None => Ok (merge_sort laterFirst (filter (λ r, record_Success r = true) (ledger s)))
  end.

(** [sortMigrations]: by version, ascending.  Go's sort may permute units of
    equal version; they keep their order here. *)
Definition versionOrder (a b : Migration) : Prop :=
  String.ltb (Version b) (Version a) = false.

#[export] Instance versionOrder_dec : RelDecision versionOrder.
Proof. intros a b. unfold versionOrder. apply _. Defined.

Definition sortMigrations (ms : list Migration) : list Migration :=
  merge_sort versionOrder ms.

(** The outcome of a run: the migrator (its list is sorted in place), the
    store, the error returned, the events. *)
Record outcome : Type := mkOutcome {
  migrator' : Migrator;
  store' : Store;
  err : option string;
  log : list event
}.

(** The loop of [Up] over the sorted units; [applied] is read once, before
    the loop. *)
Fixpoint upLoop (m : Migrator) (applied : gmap string MigrationRecord)
  (pending : list Migration) (s : Store) : Store * option string * list event :=
  match pending with
  | [] => (s, None, [])
  | migration :: rest =>
      match applied !! Version migration with
      | Some _ => upLoop m applied rest s
      | None =>
          let r := executeMigration m s migration true in
          match r.1.2 with
          | Some e =>
              (r.1.1,
               Some (String.append "执行迁移 "
                       (String.append (Version migration) (String.append " 失败: " e))),
               r.2)
          | None =>
              let o := upLoop m applied rest r.1.1 in
              (o.1.1, o.1.2, r.2 ++ o.2)
          end
      end
  end.

Definition Migrator_Up (m : Migrator) (s : Store) : outcome :=
  match acquireLock s with
  | (_, Some e) =>
      {| migrator' := m; store' := s;
         err := Some (String.append "获取迁移锁失败: " e); log := [] |}
  | (s1, None) =>
      (* defer m.releaseLock(ctx) *)
      let m1 := {| DryRun := DryRun m; migrations := sortMigrations (migrations m) |} in
      match getAppliedMigrations s1 with
      | Err e =>
          {| migrator' := m1; store' := (releaseLock s1).1;
             err := Some (String.append "获取已执行迁移失败: " e); log := [] |}
      | Ok applied =>
          let r := upLoop m1 applied (migrations m1) s1 in
          {| migrator' := m1; store' := (releaseLock r.1.1).1; err := r.1.2; log := r.2 |}
      end
  end.

(** [migrationMap]: version to unit, a later registration replacing an
    earlier one. *)
Definition migrationMap (ms : list Migration) : gmap string Migration :=
  foldl (λ acc migration, <[Version migration := migration]> acc) ∅ ms.

Fixpoint downLoop (m : Migrator) (byVersion : gmap string Migration)
  (records : list MigrationRecord) (s : Store) : Store * option string * list event :=
  match records with
  | [] => (s, None, [])
  | record :: rest =>
      match byVersion !! record_Version record with
      | None => downLoop m byVersion rest s
      | Some migration =>
          let r := executeMigration m s migration false in
          match r.1.2 with
          | Some e =>
              (r.1.1,
               Some (String.append "回滚迁移 "
                       (String.append (Version migration) (String.append " 失败: " e))),
               r.2)
          | None =>
              let o := downLoop m byVersion rest r.1.1 in
              (o.1.1, o.1.2, r.2 ++ o.2)
          end
      end
  end.

Definition Migrator_Down (m : Migrator) (steps : Z) (s : Store) : outcome :=
  if decide (steps ≤ 0)
  then {| migrator' := m; store' := s; err := Some "回滚步数必须大于0"; log := [] |}
  else
    match acquireLock s with
    | (_, Some e) =>
        {| migrator' := m; store' := s;
           err := Some (String.append "获取迁移锁失败: " e); log := [] |}
    | (s1, None) =>
        match getAppliedMigrationsOrdered s1 with
        | Err e =>
            {| migrator' := m; store' := (releaseLock s1).1;
               err := Some (String.append "获取已执行迁移失败: " e); log := [] |}
        | Ok appliedMigrations =>
            if decide (length appliedMigrations = 0%nat)
            then {| migrator' := m; store' := (releaseLock s1).1; err := None; log := [] |}
            else
              let steps := Z.min steps (Z.of_nat (length appliedMigrations)) in
              let r := downLoop m (migrationMap (migrations m))
                         (take (Z.to_nat steps) appliedMigrations) s1 in
              {| migrator' := m; store' := (releaseLock r.1.1).1; err := r.1.2; log := r.2 |}
        end
    end.

(** [types.MigrationStatus]; [Database] is filled in by the multi-database
    caller. *)
Record MigrationStatus : Type := mkMigrationStatus {
  status_Version : string;
  status_Description : string;
  Applied : bool;
  AppliedAt : option Z
}.

(** [Status]: the migrator after it, whose list is sorted in place, and the
    status of every registered unit. *)
Definition Migrator_Status (m : Migrator) (s : Store)
  : Migrator * result (list MigrationStatus) :=
  match getAppliedMigrations s with
  | Err e => (m, Err (String.append "获取已执行迁移失败: " e))
  | Ok appliedMigrations =>
      let m1 := {| DryRun := DryRun m; migrations := sortMigrations (migrations m) |} in
      (m1,
       Ok ((λ migration,
              match appliedMigrations !! Version migration with
              | Some record =>
                  {| status_Version := Version migration;
                     status_Description := Description migration;
                     Applied := true; AppliedAt := Some (record_AppliedAt record) |}
              | None =>
                  {| status_Version := Version migration;
                     status_Description := Description migration;
                     Applied := false; AppliedAt := None |}
              end) <$> migrations m1))
  end.

(** *** [Init]: the system tables

    [Init] asks the checker whether the versions table and the lock table
    exist and creates the ones that do not; the statements run on [m.db]
    outside any transaction.  A table that does not exist has no rows. *)
Record Catalog : Type := mkCatalog {
  hasMigrationsTable : bool;
  hasLockTable : bool;
  tables : Store
}.

(** The calls of [Init] on the checker and on [m.db]. *)
Inductive initCall : Type :=
| MigrationsTableExists   (* checker.TableExists(m.migrationsTable) *)
| CreateMigrationsTable   (* the CREATE TABLE of createMigrationsTable *)
| LockTableExists         (* checker.TableExists(m.lockTable) *)
| CreateLockTable         (* the CREATE TABLE of createLockTable *)
| InsertLockRow.          (* INSERT ... (id, locked) VALUES (1, FALSE) *)

(** The error with which a call of [Init] is refused; [None] when it is
    carried out. *)
Variable initError : initCall → Catalog → option string.

Definition createMigrationsTable (c : Catalog) : Catalog * option string :=
  match initError MigrationsTableExists c with
  | Some e => (c, Some e)
  | None =>
      if hasMigrationsTable c then (c, None)
      else
        match initError CreateMigrationsTable c with
        | Some e => (c, Some e)
        | None =>
            ({| hasMigrationsTable := true; hasLockTable := hasLockTable c;
                tables := {| ledger := []; lockTable := lockTable (tables c);
                             user := user (tables c); now := now (tables c) |} |},
             None)
        end
  end.

Definition createLockTable (c : Catalog) : Catalog * option string :=
  match initError LockTableExists c with
  | Some e => (c, Some e)
  | None =>
      if hasLockTable c then (c, None)
      else
        match initError CreateLockTable c with
        | Some e => (c, Some e)
        | None =>
            let c1 :=
              {| hasMigrationsTable := hasMigrationsTable c; hasLockTable := true;
                 tables := {| ledger := ledger (tables c); lockTable := None;
                              user := user (tables c); now := now (tables c) |} |} in
            match initError InsertLockRow c1 with
            | Some e => (c1, Some e)
            | None =>
                ({| hasMigrationsTable := hasMigrationsTable c1; hasLockTable := true;
                    tables := {| ledger := ledger (tables c1);
                                 lockTable := Some {| locked := false; locked_at := None;
                                                      locked_by := None |};
                                 user := user (tables c1); now := now (tables c1) |} |},
                 None)
            end
        end
  end.

Definition Migrator_Init (c : Catalog) : Catalog * option string :=
  match createMigrationsTable c with
  | (c1, Some e) => (c1, Some (String.append "创建迁移记录表失败: " e))
  | (c1, None) =>
      match createLockTable c1 with
      | (c2, Some e) => (c2, Some (String.append "创建锁表失败: " e))
      | (c2, None) => (c2, None)
      end
  end.

End runner.

Arguments Store : clear implicits.
Arguments DB : clear implicits.
Arguments outcome : clear implicits.
Arguments Catalog : clear implicits.

End migrator.

(** ** internal/database: the batch loader

    An INSERT fails when the engine says so; what the driver answers to the
    other calls (connecting, [BeginTx], [Commit], the catalog query of
    [checkTableExists]) is a parameter, as for the runner.  A run-time panic
    of the Go code (a division by zero, a slice out of range) is [None]. *)

Module database.

(** A parsed value ([interface{}]): nil, a string, an int64, a bool, or a
    float64, kept as the text [%v] prints for it. *)
Inductive Value : Type :=
| VNil
| VString (s : string)
| VInt (n : Z)
| VFloat (printed : string)
| VBool (b : bool).

(** [types.InsertStatement] *)
Record InsertStatement : Type := mkInsertStatement {
  TableName : string;
  Columns : list string;
  Values : list (list Value);
  Statement : string;
  LineNumber : Z
}.

(** [types.DataInsertConfig]; the progress callback only reports. *)
Record DataInsertConfig : Type := mkDataInsertConfig {
  BatchSize : Z;
  OnConflict : string;
  StopOnError : bool;
  ValidateTables : bool;
  UseTransaction : bool
}.

(** [types.TableInsertResult] *)
Record TableInsertResult : Type := mkTableInsertResult {
  table_TableName : string;
  RowsInserted : Z;
  StatementsExecuted : Z
}.

(** [types.InsertError]; only the message is ever filled in. *)
Record InsertError : Type := mkInsertError {
  ErrorMessage : string
}.

(** [types.DataInsertResult], without the execution time. *)
Record DataInsertResult : Type := mkDataInsertResult {
  DatabaseName : string;
  TotalStatements : Z;
  SuccessfulStatements : Z;
  FailedStatements : Z;
  TotalRowsInserted : Z;
  TableResults : list TableInsertResult;
  Errors : list InsertError
}.

(** One [ExecContext] call of the loader: the statement text and the rows it
    carries. *)
Record call : Type := mkCall {
  call_sql : string;
  call_rows : list (list Value)
}.

(** [strings.ReplaceAll(v, "'", "''")] *)
Definition escapeQuotes (v : string) : string :=
  Go.str (concat ((λ a, if Ascii.eqb a "'" then ["'"; "'"]%char else [a]) <$> Go.bytes v)).

(** [strings.Join]-like writing of the parts with ", " between them. *)
Fixpoint commaJoin (parts : list string) : string :=
  match parts with
  | [] => ""
  | [x] => x
  | x :: rest => String.append x (String.append ", " (commaJoin rest))
  end.

Definition formatValue (value : Value) : string :=
  match value with
  | VNil => "NULL"
  | VString v => String.append "'" (String.append (escapeQuotes v) "'")
  | VInt n => pretty n
  | VFloat printed => printed
  | VBool true => "TRUE"
  | VBool false => "FALSE"
  end.

Definition buildBatchInsertSQL (tableName : string) (columns : list string)
  (values : list (list Value)) : string :=
  String.append "INSERT INTO `" (String.append tableName (String.append "`"
    (String.append
       (match columns with
        | [] => ""
        | _ => String.append " ("
                 (String.append
                    (commaJoin ((λ col, String.append "`" (String.append col "`")) <$> columns))
                    ")")
        end)
       (String.append " VALUES "
          (commaJoin ((λ valueRow,
                         String.append "(" (String.append (commaJoin (formatValue <$> valueRow)) ")"))
                      <$> values)))))).

Definition isDuplicateKeyError (err : string) : bool :=
  let errStr := Go.ToLower err in
  Go.Contains errStr "duplicate entry"
  || Go.Contains errStr "duplicate key"
  || Go.Contains errStr "unique constraint".

(** [ValidateInsertStatements] of the INSERT parser: the check of the rows
    of statement [i] against its column list, from row [j] on. *)
Fixpoint arityError (i j : Z) (ncols : nat) (rows : list (list Value)) : option string :=
  match rows with
  | [] => None
  | values :: rest =>
      if decide (length values ≠ ncols)
      then Some (String.append "第" (String.append (pretty i)
                  (String.append "个语句第" (String.append (pretty j)
                     (String.append "组值的列数不匹配：期望" (String.append (pretty ncols)
                        (String.append "列，实际" (String.append (pretty (length values))
                           "列"))))))))
      else arityError i (j + 1) ncols rest
  end.

Fixpoint validateFrom (i : Z) (statements : list InsertStatement) : option string :=
  match statements with
  | [] => None
  | stmt :: rest =>
      if decide (TableName stmt = "")
      then Some (String.append "第" (String.append (pretty i) "个语句缺少表名"))
      else if decide (length (Values stmt) = 0%nat)
      then Some (String.append "第" (String.append (pretty i) "个语句缺少插入值"))
      else
        match (if decide (0 < length (Columns stmt))%nat
               then arityError i 1 (length (Columns stmt)) (Values stmt)
               else None) with
        | Some e => Some e
        | None => validateFrom (i + 1) rest
        end
  end.

Definition ValidateInsertStatements (statements : list InsertStatement) : option string :=
  match statements with
  | [] => Some "没有找到有效的INSERT语句"
  | _ => validateFrom 1 statements
  end.

(** [ExtractTableNames]: the table names in the order of their first
    statement. *)
Fixpoint extractFrom (seen : list string) (statements : list InsertStatement)
  : list string :=
  match statements with
  | [] => []
  | stmt :: rest =>
      if decide (TableName stmt ∈ seen) then extractFrom seen rest
      else TableName stmt :: extractFrom (TableName stmt :: seen) rest
  end.

Definition ExtractTableNames (statements : list InsertStatement) : list string :=
  extractFrom [] statements.

(** *** The values of the INSERT parser

    [parseValue] and [parseValueGroups] of the INSERT parser read the text
    after VALUES into the values [formatValue] writes back. *)

Section insert_values.

(** [strconv.ParseFloat(s, 64)], as the text [%v] prints for the number it
    reads; [None] when it returns an error. *)
Variable ParseFloat : string → option string.

(** [p.variables] *)
Variable variables : gmap string Value.

Definition singleQuote : string := "'".
Definition doubleQuote : string := String "034" "".

(** [parseValue]; [None] is the panic of [valueStr[1 : len(valueStr)-1]] on
    a text that is one quote. *)
Definition parseValue (valueStr : string) : option (result Value) :=
  let valueStr := Go.TrimSpace valueStr in
  if decide (valueStr = "") then Some (Err "空值")
  else if decide (Go.ToUpper valueStr = "NULL") then Some (Ok VNil)
  else if Go.HasPrefix valueStr "@" then
    let varName :=
      Go.ToLower (String.substring 1 (String.length valueStr - 1) valueStr) in
    match variables !! varName with
    | Some value => Some (Ok value)
    | None => Some (Err (String.append "未定义的变量: " valueStr))
    end
  else if Go.HasPrefix valueStr singleQuote && Go.HasSuffix valueStr singleQuote
          || Go.HasPrefix valueStr doubleQuote && Go.HasSuffix valueStr doubleQuote
  then
    if (String.length valueStr <? 2)%nat then None
    else Some (Ok (VString (String.substring 1 (String.length valueStr - 2) valueStr)))
  else
    match Go.ParseInt valueStr with
    | Some intVal => Some (Ok (VInt intVal))
    | None =>
        match ParseFloat valueStr with
        | Some floatVal => Some (Ok (VFloat floatVal))
        | None =>
            if decide (Go.ToUpper valueStr = "TRUE") then Some (Ok (VBool true))
            else if decide (Go.ToUpper valueStr = "FALSE") then Some (Ok (VBool false))
            else Some (Ok (VString valueStr))
        end
    end.

(** The variables of the loop of [parseValueGroups]. *)
Record groupState : Type := mkGroupState {
  groups : list (list Value);          (* result *)
  current : list Value;
  currentValue : list ascii;
  inString : bool;
  stringChar : ascii;
  parenDepth : Z;
  inValueGroup : bool
}.

Definition groupStart : groupState :=
  {| groups := []; current := []; currentValue := []; inString := false;
     stringChar := zero; parenDepth := 0; inValueGroup := false |}.

(** The loop of [parseValueGroups] over the runes of the text, for a text
    in ASCII, whose runes are its bytes and are written as they are; [prev]
    is [runes[i-1]], [None] at [i = 0].  [parenDepth] counts the open
    parentheses of the text and stays far below the range of [int]. *)
Fixpoint groupRunes (prev : option ascii) (runes : list ascii) (st : groupState)
  : option (result (list (list Value))) :=
  match runes with
  | [] => Some (Ok (groups st))
  | r :: rest =>
      if inString st then
        if Ascii.eqb r (stringChar st)
           && match prev with Some b => negb (Ascii.eqb b "\") | None => true end
        then groupRunes (Some r) rest
               {| groups := groups st; current := current st;
                  currentValue := currentValue st ++ [r]; inString := false;
                  stringChar := stringChar st; parenDepth := parenDepth st;
                  inValueGroup := inValueGroup st |}
        else groupRunes (Some r) rest
               {| groups := groups st; current := current st;
                  currentValue := currentValue st ++ [r]; inString := inString st;
                  stringChar := stringChar st; parenDepth := parenDepth st;
                  inValueGroup := inValueGroup st |}
      else if Ascii.eqb r "'" || Ascii.eqb r "034" then
        groupRunes (Some r) rest
          {| groups := groups st; current := current st;
             currentValue := currentValue st ++ [r]; inString := true;
             stringChar := r; parenDepth := parenDepth st;
             inValueGroup := inValueGroup st |}
      else if Ascii.eqb r "(" then
        if negb (inValueGroup st) then
          groupRunes (Some r) rest
            {| groups := groups st; current := current st;
               currentValue := currentValue st; inString := inString st;
               stringChar := stringChar st; parenDepth := 1;
               inValueGroup := true |}
        else
          groupRunes (Some r) rest
            {| groups := groups st; current := current st;
               currentValue := currentValue st ++ [r]; inString := inString st;
               stringChar := stringChar st; parenDepth := parenDepth st + 1;
               inValueGroup := inValueGroup st |}
      else if Ascii.eqb r ")" then
        if inValueGroup st then
          if decide (parenDepth st - 1 = 0) then
            if decide (0 < length (currentValue st))%nat then
              match parseValue (Go.TrimSpace (Go.str (currentValue st))) with
              | None => None
              | Some (Err err) => Some (Err err)
              | Some (Ok value) =>
                  groupRunes (Some r) rest
                    {| groups := groups st ++ [current st ++ [value]]; current := [];
                       currentValue := []; inString := inString st;
                       stringChar := stringChar st; parenDepth := parenDepth st - 1;
                       inValueGroup := false |}
              end
            else
              groupRunes (Some r) rest
                {| groups := groups st ++ [current st]; current := [];
                   currentValue := currentValue st; inString := inString st;
                   stringChar := stringChar st; parenDepth := parenDepth st - 1;
                   inValueGroup := false |}
          else
            groupRunes (Some r) rest
              {| groups := groups st; current := current st;
                 currentValue := currentValue st ++ [r]; inString := inString st;
                 stringChar := stringChar st; parenDepth := parenDepth st - 1;
                 inValueGroup := inValueGroup st |}
        else groupRunes (Some r) rest st
      else if Ascii.eqb r "," then
        if inValueGroup st && bool_decide (parenDepth st = 1) then
          match parseValue (Go.TrimSpace (Go.str (currentValue st))) with
          | None => None
          | Some (Err err) => Some (Err err)
          | Some (Ok value) =>
              groupRunes (Some r) rest
                {| groups := groups st; current := current st ++ [value];
                   currentValue := []; inString := inString st;
                   stringChar := stringChar st; parenDepth := parenDepth st;
                   inValueGroup := inValueGroup st |}
          end
        else if negb (inValueGroup st) then groupRunes (Some r) rest st
        else
          groupRunes (Some r) rest
            {| groups := groups st; current := current st;
               currentValue := currentValue st ++ [r]; inString := inString st;
               stringChar := stringChar st; parenDepth := parenDepth st;
               inValueGroup := inValueGroup st |}
      else if inValueGroup st then
        groupRunes (Some r) rest
          {| groups := groups st; current := current st;
             currentValue := currentValue st ++ [r]; inString := inString st;
             stringChar := stringChar st; parenDepth := parenDepth st;
             inValueGroup := inValueGroup st |}
      else groupRunes (Some r) rest st
  end.

Definition parseValueGroups (valuesPart : string) : option (result (list (list Value))) :=
  groupRunes None (Go.bytes valuesPart) groupStart.

End insert_values.

(** The calls of the loader on the driver besides its INSERTs and the
    catalog query. *)
Inductive connCall : Type :=
| SqlOpen (dbName : string)         (* sql.Open on the DSN of the database *)
| PingContext (dbName : string)     (* db.PingContext *)
| ConnBeginTx                       (* dbConn.BeginTx *)
| TxCommit.                         (* tx.Commit *)

Section inserter.

(** The state of the target database; the engine's answer to an INSERT; the
    answer to the catalog query for a table, [Ok false] when it has no row
    ([sql.ErrNoRows]); the error with which the driver refuses another
    call. *)
Context {D : Type}.
Variable execContext : string → D → D * option string.
Variable tableExists : D → string → string → result bool.
Variable connError : connCall → D → option string.

(** The order in which [for _, tableResult := range tableStats] visits the
    map. *)
Variable rangeOrder : list (string * TableInsertResult) → list (string * TableInsertResult).

(** [connectToDatabase]: the error, [None] for a connection. *)
Definition connectToDatabase (d : D) (dbName : string) : option string :=
  match connError (SqlOpen dbName) d with
  | Some e => Some (String.append "打开数据库连接失败: " e)
  | None =>
      match connError (PingContext dbName) d with
      | Some e => Some (String.append "连接数据库失败: " e)
      | None => None
      end
  end.

(** [checkTableExists] *)
Definition checkTableExists (d : D) (dbName tableName : string) : result bool :=
  tableExists d dbName tableName.

(** The loop of [ValidateTablesExist] over the tables. *)
Fixpoint validateLoop (d : D) (dbName : string) (tables : list string)
  : option string :=
  match tables with
  | [] => None
  | tableName :: rest =>
      match checkTableExists d dbName tableName with
      | Err e =>
          Some (String.append "检查表 "
                  (String.append tableName (String.append " 存在性失败: " e)))
      | Ok false => Some (String.append "表 " (String.append tableName " 不存在"))
      | Ok true => validateLoop d dbName rest
      end
  end.

(** [ValidateTablesExist] *)
Definition ValidateTablesExist (d : D) (dbName : string) (tables : list string)
  : option string :=
  match connectToDatabase d dbName with
  | Some e => Some (String.append "连接数据库失败: " e)
  | None => validateLoop d dbName tables
  end.

(** [stmt.Values[start:end]]; [None] is the panic of a slice out of range. *)
Definition sliceRows (values : list (list Value)) (start end_ : Z)
  : option (list (list Value)) :=
  if decide (0 ≤ start ∧ start ≤ end_ ∧ end_ ≤ Z.of_nat (length values))
  then Some (take (Z.to_nat (end_ - start)) (drop (Z.to_nat start) values))
  else None.

(** The loop of [executeBatchInsert] and of [executeBatchInsertDB], which
    differ in the handle they execute on; [todo] counts the turns left,
    [totalBatches - batchIndex]. *)
Fixpoint batchLoop (todo : nat) (batchIndex : Z) (stmt : InsertStatement)
  (config : DataInsertConfig) (d : D) : option (D * option string * list call) :=
  match todo with
  | O => Some (d, None, [])
  | S todo' =>
      let batchSize := BatchSize config in
      let len := Z.of_nat (length (Values stmt)) in
      let start := Go.wrap64 (batchIndex * batchSize) in
      let end0 := Go.wrap64 (start + batchSize) in
      let end_ := if decide (end0 > len) then len else end0 in
      match sliceRows (Values stmt) start end_ with
      | None => None
      | Some batchValues =>
          let batchSQL := buildBatchInsertSQL (TableName stmt) (Columns stmt) batchValues in
          let this := {| call_sql := batchSQL; call_rows := batchValues |} in
          let r := execContext batchSQL d in
          let continue :=
            match batchLoop todo' (batchIndex + 1) stmt config r.1 with
            | Some o => Some (o.1.1, o.1.2, this :: o.2)
            | None => None
            end in
          match r.2 with
          | None => continue
          | Some err =>
              if isDuplicateKeyError err && bool_decide (OnConflict config = "ignore")
              then continue
              else Some (r.1,
                         Some (String.append "批次 "
                                 (String.append (pretty (batchIndex + 1))
                                    (String.append " 执行失败: " err))),
                         [this])
          end
      end
  end.

Definition executeBatchInsertDB (d : D) (stmt : InsertStatement)
  (config : DataInsertConfig) : option (D * option string * list call) :=
  let batchSize := BatchSize config in
  if decide (batchSize = 0) then None          (* integer divide by zero *)
  else
    let totalBatches :=
      Go.div64 (Go.wrap64 (Go.wrap64 (Z.of_nat (length (Values stmt)) + batchSize) - 1))
               batchSize in
    batchLoop (Z.to_nat totalBatches) 0 stmt config d.

(** The transaction version runs the same loop on the transaction. *)
Definition executeBatchInsert (tx : D) (stmt : InsertStatement)
  (config : DataInsertConfig) : option (D * option string * list call) :=
  executeBatchInsertDB tx stmt config.

(** The loop of [ExecuteInsertStatements] over the statements, on the
    transaction or on the connection.  The source hands the message to
    [fmt.Errorf] as the format; it is the message itself as long as it holds
    no percent sign. *)
Fixpoint insertLoop (statements : list InsertStatement) (config : DataInsertConfig)
  (d : D) : option (D * option string * list call) :=
  match statements with
  | [] => Some (d, None, [])
  | stmt :: rest =>
      match (if UseTransaction config then executeBatchInsert d stmt config
             else executeBatchInsertDB d stmt config) with
      | None => None
      | Some r =>
          let continue :=
            match insertLoop rest config r.1.1 with
            | Some o => Some (o.1.1, o.1.2, r.2 ++ o.2)
            | None => None
            end in
          match r.1.2 with
          | None => continue
          | Some execErr =>
              if StopOnError config
              then Some (r.1.1,
                         Some (String.append "执行INSERT语句失败 (表: "
                                 (String.append (TableName stmt)
                                    (String.append ", 行: "
                                       (String.append (pretty (LineNumber stmt))
                                          (String.append "): " execErr))))),
                         r.2)
              else continue
          end
      end
  end.

(** [ExecuteInsertStatements]: with a transaction the statements run on a
    working copy, installed by [Commit] and dropped when the function
    returns before it. *)
Definition ExecuteInsertStatements (d : D) (dbName : string)
  (statements : list InsertStatement) (config : DataInsertConfig)
  : option (D * option string * list call) :=
  match connectToDatabase d dbName with
  | Some e => Some (d, Some (String.append "连接数据库失败: " e), [])
  | None =>
      match (if UseTransaction config then connError ConnBeginTx d else None) with
      | Some e => Some (d, Some (String.append "开始事务失败: " e), [])
      | None =>
          match insertLoop statements config d with
          | None => None
          | Some r =>
              match r.1.2 with
              | Some e => Some (if UseTransaction config then d else r.1.1, Some e, r.2)
              | None =>
                  match (if UseTransaction config then connError TxCommit r.1.1
                         else None) with
                  | Some e => Some (d, Some (String.append "提交事务失败: " e), r.2)
                  | None => Some (r.1.1, None, r.2)
                  end
              end
          end
      end
  end.

(** The per-table statistics of [InsertFromSQLFile]. *)
Definition countStatement (tableStats : gmap string TableInsertResult)
  (stmt : InsertStatement) : gmap string TableInsertResult :=
  let entry :=
    default {| table_TableName := TableName stmt; RowsInserted := 0;
               StatementsExecuted := 0 |}
            (tableStats !! TableName stmt) in
  <[TableName stmt :=
      {| table_TableName := table_TableName entry;
         RowsInserted := RowsInserted entry + Z.of_nat (length (Values stmt));
         StatementsExecuted := StatementsExecuted entry + 1 |}]> tableStats.

Definition tableStatsOf (statements : list InsertStatement)
  : gmap string TableInsertResult :=
  foldl countStatement ∅ statements.

(** [InsertFromSQLFile], from what [ParseInsertFile] returned for the file:
    the database after it, the result summary, the error, the calls. *)
Definition InsertFromSQLFile (d : D) (dbName : string)
  (parsed : result (list InsertStatement)) (config : DataInsertConfig)
  : option (D * DataInsertResult * option string * list call) :=
  let result0 :=
    {| DatabaseName := dbName; TotalStatements := 0; SuccessfulStatements := 0;
       FailedStatements := 0; TotalRowsInserted := 0; TableResults := [];
       Errors := [] |} in
  let failed (r : DataInsertResult) (failedStatements : Z) (msg : string) :=
    {| DatabaseName := DatabaseName r; TotalStatements := TotalStatements r;
       SuccessfulStatements := SuccessfulStatements r;
       FailedStatements := failedStatements;
       TotalRowsInserted := TotalRowsInserted r; TableResults := TableResults r;
       Errors := Errors r ++ [{| ErrorMessage := msg |}] |} in
  match parsed with
  | Err e =>
      Some (d, failed result0 0 (String.append "解析SQL文件失败: " e), Some e, [])
  | Ok statements =>
      let result1 :=
        {| DatabaseName := dbName;
           TotalStatements := Z.of_nat (length statements);
           SuccessfulStatements := 0; FailedStatements := 0;
           TotalRowsInserted := 0; TableResults := []; Errors := [] |} in
      if decide (length statements = 0%nat)
      then Some (d, result1, Some "SQL文件中没有找到有效的INSERT语句", [])
      else
        match ValidateInsertStatements statements with
        | Some e =>
            Some (d, failed result1 0 (String.append "验证INSERT语句失败: " e), Some e, [])
        | None =>
            match (if ValidateTables config
                   then ValidateTablesExist d dbName (ExtractTableNames statements)
                   else None) with
            | Some e =>
                Some (d, failed result1 0 (String.append "表存在性验证失败: " e), Some e, [])
            | None =>
                match ExecuteInsertStatements d dbName statements config with
                | None => None
                | Some (d', Some e, calls) =>
                    Some (d', failed result1 (TotalStatements result1)
                                (String.append "执行插入操作失败: " e), Some e, calls)
                | Some (d', None, calls) =>
                    let tableResults :=
                      (rangeOrder (map_to_list (tableStatsOf statements))).*2 in
                    Some (d',
                          {| DatabaseName := dbName;
                             TotalStatements := TotalStatements result1;
                             SuccessfulStatements := TotalStatements result1;
                             FailedStatements := 0;
                             TotalRowsInserted :=
                               foldl (λ acc tableResult, acc + RowsInserted tableResult)
                                     0 tableResults;
                             TableResults := tableResults;
                             Errors := [] |},
                          None, calls)
                end
            end
        end
  end.

End inserter.

End database.

(** * The vocabulary of the properties, and the data of the examples *)

Module sqlparser_spec.
Import types sqlparser.

(** The names that are nodes of the graph. *)
Definition names (statements : list SQLStatement) : list string :=
  Name <$> statements.

(** [a] depends on [b]: a statement named [a] lists [b], and [b] is the name
    of a statement of the same set. *)
Definition dependsOn (statements : list SQLStatement) (a b : string) : Prop :=
  ∃ stmt, stmt ∈ statements ∧ Name stmt = a ∧ b ∈ Dependencies stmt
          ∧ b ∈ names statements.

Definition cyclic (statements : list SQLStatement) : Prop :=
  ∃ a, tc (dependsOn statements) a a.

(** Occurrences of [n] in an adjacency list. *)
Definition occ (n : string) (l : list string) : nat :=
  length (filter (λ x, x = n) l).

(** The edges into [n] from nodes not yet taken off the queue. *)
Definition pending (gr : gmap string (list string)) (K : list string)
  (popped : list string) (n : string) : nat :=
  sum_list_with (λ d, if decide (d ∈ popped) then 0%nat else occ n (getList gr d)) K.

Record kahn_inv (gr : gmap string (list string)) (K : list string)
  (S_ : string → Prop) (st : kahnState) (popped : list string) : Prop := {
  inv_nodup : NoDup (queue st ++ popped);
  inv_nodes : ∀ x, x ∈ queue st ++ popped → x ∈ K;
  inv_degree : ∀ n, getInt (degrees st) n = Z.of_nat (pending gr K popped n);
  inv_zero : ∀ x, x ∈ queue st ++ popped → pending gr K popped x = 0%nat;
  inv_count : processed st = Z.of_nat (length popped);
  inv_result : length (result_ st) = length popped;
  inv_cycle : ∀ x, S_ x → x ∉ queue st ++ popped
}.

(** Every node that no pending edge enters has been put on the queue. *)
Definition found (gr : gmap string (list string)) (K : list string)
  (st : kahnState) (popped : list string) : Prop :=
  ∀ n, n ∈ K → pending gr K popped n = 0%nat → n ∈ queue st ++ popped.

Definition nodes (statements : list SQLStatement) : list string :=
  remove_dups (names statements).

Record build_inv (statements : list SQLStatement) (g : depGraph) : Prop := {
  bi_stmt : ∀ k, is_Some (stmtMap g !! k) ↔ k ∈ names statements;
  bi_keys : ∀ k, is_Some (inDegree g !! k) → k ∈ names statements;
  bi_closed : ∀ d n, n ∈ getList (graph g) d → n ∈ nodes statements;
  bi_degree : ∀ n, getInt (inDegree g) n
                   = Z.of_nat (pending (graph g) (nodes statements) [] n)
}.

(** The nodes on a cycle through [a]. *)
Definition onCycle (statements : list SQLStatement) (a x : string) : Prop :=
  rtc (dependsOn statements) a x ∧ tc (dependsOn statements) x a.

(** [out] respects the dependencies: whatever a statement depends on comes
    before it. *)
Definition respectsDependencies (out : list SQLStatement) : Prop :=
  ∀ i j a b, out !! i = Some a → out !! j = Some b →
             Name b ∈ Dependencies a → (j < i)%nat.

(** The key under which [ValidateStatements] remembers a statement. *)
Definition statementKey (stmt : SQLStatement) : string :=
  String.append (Type_ stmt) (String.append ":" (Name stmt)).

(** Two statements of the kinds the parser does not name. *)
Definition createDatabase : SQLStatement :=
  {| Type_ := "CREATE_OTHER"; Name := "unknown";
     Statement := "CREATE DATABASE shop"; Dependencies := [] |}.

Definition createUser : SQLStatement :=
  {| Type_ := "CREATE_OTHER"; Name := "unknown";
     Statement := "CREATE USER app"; Dependencies := [] |}.

Definition userTable : SQLStatement :=
  {| Type_ := "CREATE_TABLE"; Name := "users";
     Statement := "CREATE TABLE users (id INT)"; Dependencies := [] |}.

Definition userView : SQLStatement :=
  {| Type_ := "CREATE_VIEW"; Name := "active_users";
     Statement := "CREATE VIEW active_users AS SELECT * FROM users";
     Dependencies := ["users"] |}.

(** Two tables that reference each other. *)
Definition tableA : SQLStatement :=
  {| Type_ := "CREATE_TABLE"; Name := "a";
     Statement := "CREATE TABLE a (b_id INT REFERENCES b(id))";
     Dependencies := ["b"] |}.

Definition tableB : SQLStatement :=
  {| Type_ := "CREATE_TABLE"; Name := "b";
     Statement := "CREATE TABLE b (a_id INT REFERENCES a(id))";
     Dependencies := ["a"] |}.

Definition ordersScript : list string :=
  [ "CREATE TABLE orders (";
    "  id INT PRIMARY KEY";
    ");";
    "CREATE TABLE order_items (";
    "  id INT PRIMARY KEY,";
    "  order_id INT,";
    "  FOREIGN KEY (order_id) REFERENCES orders(id)";
    ");" ].

Definition orders : SQLStatement :=
  {| Type_ := "CREATE_TABLE"; Name := "orders";
     Statement := "CREATE TABLE orders ( id INT PRIMARY KEY )";
     Dependencies := [] |}.

Definition order_items : SQLStatement :=
  {| Type_ := "CREATE_TABLE"; Name := "order_items";
     Statement := "CREATE TABLE order_items ( id INT PRIMARY KEY, order_id INT, FOREIGN KEY (order_id) REFERENCES orders(id) )";
     Dependencies := ["orders"] |}.

(** Text in ASCII: every rune of it is a byte. *)
Definition asciiText (s : string) : bool :=
  forallb (λ a, (nat_of_ascii a <? 128)%nat) (Go.bytes s).


(** Text in which no byte is one of [bad]. *)
Definition without (bad : list ascii) (s : string) : bool :=
  forallb (λ a, negb (existsb (Ascii.eqb a) bad)) (Go.bytes s).

(** Text that [processLine] copies as it is: no quote, dash, slash or
    star. *)
Definition plainText (s : string) : bool :=
  without ["'"; "034"; "`"; "-"; "/"; "*"]%char s.

(** The scan state after a string literal in single quotes has been
    closed. *)
Definition afterLiteral : scanState :=
  {| inMultiLineComment := false; inString := false; stringChar := "'" |}.

Definition inComment : scanState :=
  {| inMultiLineComment := true; inString := false; stringChar := zero |}.



End sqlparser_spec.

Module migrator_spec.
Import migrator.

(** The versions the ledger records as applied with success. *)
Definition appliedVersions (l : list MigrationRecord) : list string :=
  record_Version <$> filter (λ r, record_Success r = true) l.


Definition unlockedRow : lockRow :=
  {| locked := false; locked_at := None; locked_by := None |}.

(** An event of a body is a call, never the start of a unit. *)
Definition isCall (ev : event) : Prop :=
  match ev with RunUp _ | RunDown _ => False | _ => True end.

(** What a [Begin] of a body gets back. *)
Definition refusedBegin (ev : event) : Prop :=
  match ev with
  | CallBegin r => r = Err "在事务中不能开始新事务"
  | _ => True
  end.

Definition lockHeld {U : Type} (s : Store U) : Prop :=
  ∃ row, lockTable s = Some row ∧ locked row = true.

Definition lockFree {U : Type} (s : Store U) : Prop :=
  ∃ row, lockTable s = Some row ∧ locked row = false.

(** User tables kept as the list of the statements run on them; the engine
    refuses the statement "FAIL". *)
Definition engine (query : string) (u : list string) : list string * result Z :=
  if decide (query = "FAIL") then (u, Err "syntax error") else (u ++ [query], Ok 0).

Definition engineRows (query : string) (u : list string) : result (list (list string)) :=
  Ok [].

(** A body of one statement, returning its error. *)
Definition exec1 (query : string) : body :=
  Exec query (λ r, match r with Ok _ => Return None | Err e => Return (Some e) end).

Definition createUsers : Migration :=
  {| Version := "001"; Description := "create users";
     Up := exec1 "CREATE TABLE users (id INT)"; Down := exec1 "DROP TABLE users" |}.

Definition addProfile : Migration :=
  {| Version := "002"; Description := "add profile";
     Up := exec1 "ALTER TABLE users ADD profile TEXT";
     Down := exec1 "ALTER TABLE users DROP profile" |}.

Definition broken : Migration :=
  {| Version := "002"; Description := "broken"; Up := exec1 "FAIL"; Down := Return None |}.

Definition later : Migration :=
  {| Version := "003"; Description := "later";
     Up := exec1 "CREATE TABLE t (id INT)"; Down := exec1 "DROP TABLE t" |}.

(** A body that tries to open a transaction of its own. *)
Definition nested : Migration :=
  {| Version := "004"; Description := "nested";
     Up := Begin (λ r, match r with Ok _ => Return None | Err e => Return (Some e) end);
     Down := Return None |}.

Definition freeStore : Store (list string) :=
  {| ledger := []; lockTable := Some unlockedRow; user := []; now := 1700000000 |}.


Definition appliedStore : Store (list string) :=
  {| ledger := [{| record_Version := "001"; record_Description := "create users";
                   record_AppliedAt := 1690000000; record_Success := true;
                   record_ErrorMsg := "" |}];
     lockTable := Some unlockedRow; user := ["CREATE TABLE users (id INT)"];
     now := 1700000000 |}.

Definition runner (ms : list Migration) : Migrator :=
  {| DryRun := false; migrations := ms |}.

Definition dryRunner (ms : list Migration) : Migrator :=
  {| DryRun := true; migrations := ms |}.

(** The order of the versions: bytewise, as Go compares strings. *)
Definition versionLe (a b : string) : Prop := String.ltb b a = false.

(** The versions of the units whose [Up], or [Down], a run started, in the
    order of the run. *)
Definition upVersions (l : list event) : list string :=
  omap (λ ev, match ev with RunUp v => Some v | _ => None end) l.

Definition downVersions (l : list event) : list string :=
  omap (λ ev, match ev with RunDown v => Some v | _ => None end) l.

(** The versions of the units registered with a migrator. *)
Definition registered (m : Migrator) : list string := Version <$> migrations m.

(** The row that a unit applied at time [t] leaves in the ledger. *)
Definition successRow (migration : Migration) (t : Z) : MigrationRecord :=
  {| record_Version := Version migration; record_Description := Description migration;
     record_AppliedAt := t; record_Success := true; record_ErrorMsg := "" |}.

(** A driver that carries out every call, and one that has lost its
    connection when the lock is to be released. *)
Definition reliable (c : dbCall) (s : Store (list string)) : option string := None.

Definition lostAtRelease (c : dbCall) (s : Store (list string)) : option string :=
  match c with
  | ReleaseExec => Some "invalid connection"
  | _ => None
  end.

(** A database before [Init], a checker and driver that carry out every
    call of [Init], and a driver that loses its connection before the row
    of the lock table is inserted. *)
Definition freshCatalog : Catalog (list string) :=
  {| hasMigrationsTable := false; hasLockTable := false;
     tables := {| ledger := []; lockTable := None; user := []; now := 1700000000 |} |}.

Definition answering (c : initCall) (cat : Catalog (list string)) : option string := None.

Definition lostAtInsert (c : initCall) (cat : Catalog (list string)) : option string :=
  match c with
  | InsertLockRow => Some "invalid connection"
  | _ => None
  end.

End migrator_spec.

Module database_spec.
Import database.

(** The rows of batch [i] (from 0) of size [B]. *)
Definition batchRows (B i : nat) (values : list (list Value)) : list (list Value) :=
  take B (drop (i * B) values).

(** What a call of the loader carries: the text built from its rows. *)
Definition batchText (stmt : InsertStatement) (c : call) : Prop :=
  call_sql c = buildBatchInsertSQL (TableName stmt) (Columns stmt) (call_rows c).

(** The database after the calls, each executed on what the one before
    left. *)
Definition executed {D : Type} (execContext : string → D → D * option string)
  (d : D) (calls : list call) : D :=
  foldl (λ d0 c, (execContext (call_sql c) d0).1) d calls.

Definition missingMessage (tableName : string) : string :=
  String.append "表 " (String.append tableName " 不存在").

(** The first table of the list that the catalog query does not find. *)
Definition firstMissing {D : Type} (tableExists : D → string → string → result bool)
  (d : D) (dbName : string) (tables : list string)
  : option (nat * string) :=
  list_find (λ tableName, tableExists d dbName tableName ≠ Ok true) tables.

(** What [ValidateInsertStatements] asks of a statement: a table name, at
    least one row and, if the statement lists its columns, as many values in
    every row as there are columns. *)
Definition wellFormed (stmt : InsertStatement) : Prop :=
  TableName stmt ≠ "" ∧ Values stmt ≠ []
  ∧ (Columns stmt ≠ [] →
     Forall (λ values, length values = length (Columns stmt)) (Values stmt)).

Definition zsum (l : list Z) : Z := foldr Z.add 0 l.

(** The value rows of the statements of a file, in all. *)
Definition totalRows (statements : list InsertStatement) : Z :=
  zsum ((λ stmt, Z.of_nat (length (Values stmt))) <$> statements).

(** A database that keeps the statements it accepted, and one that refuses
    every statement for its syntax. *)
Definition acceptAll (q : string) (d : list string) : list string * option string :=
  (d ++ [q], None).

Definition refuseAll (q : string) (d : list string) : list string * option string :=
  (d, Some "Error 1064: You have an error in your SQL syntax").

(** A catalog with the listed tables. *)
Definition catalog (tables : list string) (d : list string) (dbName tableName : string)
  : result bool :=
  Ok (bool_decide (tableName ∈ tables)).

(** A driver that carries out every call, and a server that cannot be
    reached. *)
Definition connected (c : connCall) (d : list string) : option string := None.

Definition unreachable (c : connCall) (d : list string) : option string :=
  match c with
  | PingContext _ => Some "dial tcp 127.0.0.1:3306: connect: connection refused"
  | _ => None
  end.

Definition itemRow (n : Z) : list Value := [VInt n; VString "item"].

Definition threeRows : InsertStatement :=
  {| TableName := "table1"; Columns := ["id"; "name"];
     Values := [itemRow 1; itemRow 2; itemRow 3];
     Statement := "INSERT INTO table1 (id, name) VALUES (1, 'item'), (2, 'item'), (3, 'item')";
     LineNumber := 1 |}.

Definition fiveRows : InsertStatement :=
  {| TableName := "table2"; Columns := [];
     Values := [itemRow 1; itemRow 2; itemRow 3; itemRow 4; itemRow 5];
     Statement := "INSERT INTO table2 VALUES (1, 'item'), (2, 'item'), (3, 'item'), (4, 'item'), (5, 'item')";
     LineNumber := 2 |}.

Definition batchOfTwo : DataInsertConfig :=
  {| BatchSize := 2; OnConflict := "ignore"; StopOnError := true;
     ValidateTables := true; UseTransaction := true |}.

Definition keepGoing : DataInsertConfig :=
  {| BatchSize := 2; OnConflict := "error"; StopOnError := false;
     ValidateTables := false; UseTransaction := false |}.

Definition batchOf (n : Z) : DataInsertConfig :=
  {| BatchSize := n; OnConflict := "ignore"; StopOnError := true;
     ValidateTables := true; UseTransaction := true |}.

Definition oneRow : InsertStatement :=
  {| TableName := "table1"; Columns := ["id"; "name"]; Values := [itemRow 1];
     Statement := "INSERT INTO table1 (id, name) VALUES (1, 'item')"; LineNumber := 1 |}.

Definition table1Result : TableInsertResult :=
  {| table_TableName := "table1"; RowsInserted := 3; StatementsExecuted := 1 |}.

Definition table2Result : TableInsertResult :=
  {| table_TableName := "table2"; RowsInserted := 5; StatementsExecuted := 1 |}.

(** A string literal in single quotes, as it stands in a file. *)
Definition literal (v : string) : string :=
  String.append "'" (String.append v "'").

(** The text [buildBatchInsertSQL] writes after VALUES: the rows in
    parentheses, the values as [formatValue] writes them. *)
Definition groupText (valueRow : list Value) : string :=
  String.append "(" (String.append (commaJoin (formatValue <$> valueRow)) ")").

Definition valuesClause (values : list (list Value)) : string :=
  commaJoin (groupText <$> values).

(** The values the parser can produce from a file without variables and
    floats, within the scanner's reach: an integer of 64 bits, a string
    without a backslash, a truth value, NULL. *)
Definition printable (v : Value) : Prop :=
  match v with
  | VNil | VBool _ => True
  | VString s => sqlparser_spec.without ["\"]%char s = true
  | VInt n => - 2 ^ 63 ≤ n ≤ 2 ^ 63 - 1
  | VFloat _ => False
  end.

(** A value as the parser reads it back from the text [formatValue] wrote:
    the quotes of a string stay doubled. *)
Definition reread (v : Value) : Value :=
  match v with
  | VString s => VString (escapeQuotes s)
  | _ => v
  end.

(** The state of the loop of [parseValueGroups] between two groups, inside
    a group at a value, and inside a literal of a group. *)
Definition outside (gs : list (list Value)) (sc : ascii) : groupState :=
  {| groups := gs; current := []; currentValue := []; inString := false;
     stringChar := sc; parenDepth := 0; inValueGroup := false |}.

Definition inside (gs : list (list Value)) (cur : list Value) (cv : list ascii)
  (sc : ascii) : groupState :=
  {| groups := gs; current := cur; currentValue := cv; inString := false;
     stringChar := sc; parenDepth := 1; inValueGroup := true |}.

Definition inLiteral (gs : list (list Value)) (cur : list Value) (cv : list ascii)
  : groupState :=
  {| groups := gs; current := cur; currentValue := cv; inString := true;
     stringChar := "'"; parenDepth := 1; inValueGroup := true |}.

(** The bytes the loop of [parseValueGroups] treats apart. *)
Definition groupSpecial (a : ascii) : bool :=
  existsb (Ascii.eqb a) ["'"; "034"; "("; ")"; ","]%char.

(** A [ParseFloat] for files without floats. *)
Definition noFloat (s : string) : option string := None.

(** A value whose text, if it is a string, is in ASCII. *)
Definition asciiValue (v : Value) : Prop :=
  match v with
  | VString s => sqlparser_spec.asciiText s = true
  | _ => True
  end.

Definition quoteFree (v : Value) : Prop :=
  match v with
  | VString s => sqlparser_spec.without ["'"]%char s = true
  | _ => True
  end.

End database_spec.
(** * The byte order of strings *)

Lemma ltb_compare a b : String.ltb a b = false ↔ String.compare a b ≠ Lt.
Proof. unfold String.ltb. destruct (String.compare a b); naive_solver. Qed.

(** [a ≤ b ≤ c] gives [a ≤ c], where [x ≤ y] is "[y] is not less than [x]". *)
Lemma ltb_false_trans a b c :
  String.ltb b a = false → String.ltb c b = false → String.ltb c a = false.
Proof.
  rewrite !ltb_compare. intros Hab Hbc Hca.
  apply OrderedTypeEx.String_as_OT.cmp_lt in Hca.
  destruct (String.compare b a) eqn:Hba; [| done |].
  - apply OrderedTypeEx.String_as_OT.cmp_eq in Hba. subst b.
    apply Hbc. by apply OrderedTypeEx.String_as_OT.cmp_lt.
  - assert (Hlt : String.compare a b = Lt).
    { rewrite String.compare_antisym, Hba. done. }
    apply OrderedTypeEx.String_as_OT.cmp_lt in Hlt.
    apply Hbc. apply OrderedTypeEx.String_as_OT.cmp_lt.
    eapply OrderedTypeEx.String_as_OT.lt_trans; eauto.
Qed.

Lemma ltb_false_total a b : String.ltb b a = false ∨ String.ltb a b = false.
Proof.
  rewrite !ltb_compare, (String.compare_antisym a b).
  destruct (String.compare b a); simpl; [by left|by right|by left].
Qed.

Lemma ltb_false_antisym a b :
  String.ltb b a = false → String.ltb a b = false → a = b.
Proof.
  rewrite !ltb_compare, (String.compare_antisym a b).
  destruct (String.compare b a) eqn:Hba; simpl; [|done..].
  intros _ _. symmetry. by apply OrderedTypeEx.String_as_OT.cmp_eq.
Qed.

Lemma ltb_irrefl a : String.ltb a a = false.
Proof.
  apply ltb_compare. intros Hlt.
  apply OrderedTypeEx.String_as_OT.cmp_lt in Hlt.
  by apply OrderedTypeEx.String_as_OT.lt_not_eq in Hlt.
Qed.

(** A sublist of a list in order is in order. *)
Lemma StronglySorted_sublist {A} (R : relation A) (l k : list A) :
  sublist l k → StronglySorted R k → StronglySorted R l.
Proof.
  induction 1 as [|x l k Hsub IH|x l k Hsub IH]; intros Hk; [done|..].
  - apply StronglySorted_cons in Hk as [Hx Hk].
    apply StronglySorted_cons. split; [|by apply IH].
    rewrite Forall_forall in Hx. apply Forall_forall. intros y Hy.
    apply Hx. by eapply elem_of_sublist.
  - apply StronglySorted_cons in Hk as [_ Hk]. by apply IH.
Qed.

(** In a list whose images under [f] are distinct, an element is known by
    its image. *)
Lemma NoDup_fmap_elem {A B} (f : A → B) (l : list A) (x y : A) :
  NoDup (f <$> l) → x ∈ l → y ∈ l → f x = f y → x = y.
Proof.
  induction l as [|z l IH]; intros Hnd Hx Hy Hf; [by apply elem_of_nil in Hx|].
  rewrite fmap_cons in Hnd. apply NoDup_cons in Hnd as [Hz Hnd].
  apply elem_of_cons in Hx as [->|Hx], Hy as [->|Hy]; [done| | |by apply IH].
  - exfalso. apply Hz. rewrite Hf. by apply list_elem_of_fmap_2.
  - exfalso. apply Hz. rewrite <- Hf. by apply list_elem_of_fmap_2.
Qed.

(** Removing the duplicates of a list that has some makes it shorter. *)
Lemma remove_dups_length {A} `{EqDecision A} (l : list A) :
  (length (remove_dups l) ≤ length l)%nat
  ∧ (length (remove_dups l) = length l → NoDup l).
Proof.
  induction l as [|x l [IHle IHeq]]; simpl; [split; [lia|constructor]|].
  destruct (decide_rel elem_of x l) as [Hin|Hin]; simpl.
  - split; [lia|]. intros Heq. lia.
  - split; [lia|]. intros Heq. constructor; [done|]. apply IHeq. lia.
Qed.

(** A relation on a finite, inhabited set in which every element has a
    successor has a cycle. *)
Lemma tc_subrelation {A} (R R' : relation A) :
  (∀ x y, R' x y → tc R x y) → ∀ x y, tc R' x y → tc R x y.
Proof.
  intros Hsub x y Htc. induction Htc as [x y Hxy|x y z Hxy _ IH]; [by apply Hsub|].
  eapply tc_transitive; [by apply Hsub|done].
Qed.

Lemma successor_cycle (n : nat) (R : relation string) (U : list string) :
  (length U ≤ n)%nat → U ≠ [] →
  (∀ x, x ∈ U → ∃ y, y ∈ U ∧ R x y) →
  ∃ a, tc R a a.
Proof.
  revert R U. induction n as [|n IH]; intros R U Hlen Hne Hsucc.
  { destruct U; [done|simpl in Hlen; lia]. }
  destruct U as [|x U0]; [done|].
  destruct (Hsucc x) as (y & Hy & Hxy); [by left|].
  destruct (decide (y = x)) as [->|Hyx]; [exists x; by apply tc_once|].
  set (U' := filter (λ u, u ≠ x) (x :: U0)).
  set (R' := λ u v, R u v ∨ (R u x ∧ R x v)).
  assert (HyU : y ∈ U') by (by apply list_elem_of_filter).
  destruct (IH R' U') as [a Ha].
  - assert (length U' < length (x :: U0))%nat; [|lia].
    apply (length_filter_lt _ _ x); [by left|]. by intros ?.
  - intros Hnil. rewrite Hnil in HyU. by apply elem_of_nil in HyU.
  - intros u [Hux Hu]%list_elem_of_filter.
    destruct (Hsucc u Hu) as (v & Hv & Huv).
    destruct (decide (v = x)) as [->|Hvx].
    + exists y. split; [done|]. right. done.
    + exists v. split; [by apply list_elem_of_filter|]. by left.
  - exists a. revert Ha. apply tc_subrelation.
    intros u v [Huv|[Hux Hxv]]; [by apply tc_once|].
    eapply tc_l; [done|by apply tc_once].
Qed.


(** * Properties *)

Import types sqlparser sqlparser_spec.

(** * The resolver *)





Lemma occ_nil n : occ n [] = 0%nat.
Proof. reflexivity. Qed.

Lemma occ_cons n m l :
  occ n (m :: l) = ((if decide (m = n) then 1 else 0) + occ n l)%nat.
Proof. unfold occ. rewrite filter_cons. by case_decide. Qed.

Lemma occ_app n l k : occ n (l ++ k) = (occ n l + occ n k)%nat.
Proof. unfold occ. by rewrite filter_app, length_app. Qed.

Lemma occ_pos n l : n ∈ l ↔ (0 < occ n l)%nat.
Proof.
  induction l as [|m l IH]; [rewrite occ_nil, elem_of_nil; lia|].
  rewrite occ_cons, elem_of_cons, IH. case_decide.
  - split; [lia|by left].
  - split; [intros [?|?]; [congruence|lia]|intros; right; lia].
Qed.

Lemma sum_list_with_agree (f f' : string → nat) (K : list string) :
  (∀ d, d ∈ K → f' d = f d) → sum_list_with f' K = sum_list_with f K.
Proof.
  induction K as [|e K IH]; intros Hf; simpl; [done|].
  rewrite (Hf e), IH; [done| |]; intros; try apply Hf; set_solver.
Qed.

(** Changing a summand at one place of a duplicate-free list. *)
Lemma sum_list_with_change (f f' : string → nat) (c : string) (K : list string) :
  NoDup K → c ∈ K → (∀ d, d ∈ K → d ≠ c → f' d = f d) →
  (sum_list_with f' K + f c = sum_list_with f K + f' c)%nat.
Proof.
  induction 1 as [|d K Hd HK IH]; [by rewrite elem_of_nil|].
  intros Hmem Hf. simpl. destruct (decide (d = c)) as [->|Hne].
  - rewrite (sum_list_with_agree f f' K); [lia|].
    intros e He. apply Hf; set_solver.
  - assert (c ∈ K) as Hmem' by set_solver.
    specialize (IH Hmem').
    rewrite (Hf d) by set_solver.
    assert (∀ e, e ∈ K → e ≠ c → f' e = f e) as Hf'
      by (intros; apply Hf; set_solver).
    specialize (IH Hf'). lia.
Qed.

Section kahn.

Variable gr : gmap string (list string).
Variable K : list string.
Hypothesis K_nodup : NoDup K.
Hypothesis gr_closed : ∀ d n, n ∈ getList gr d → n ∈ K.


Lemma pending_cons c popped n :
  c ∈ K → c ∉ popped →
  pending gr K popped n = (pending gr K (c :: popped) n + occ n (getList gr c))%nat.
Proof.
  intros Hc Hn. unfold pending.
  pose proof (sum_list_with_change
    (λ d, if decide (d ∈ popped) then 0%nat else occ n (getList gr d))
    (λ d, if decide (d ∈ c :: popped) then 0%nat else occ n (getList gr d))
    c K K_nodup Hc) as H.
  simpl in H. rewrite (decide_True (P := c ∈ c :: popped)) in H by (apply elem_of_cons; by left).
  rewrite (decide_False (P := c ∈ popped)) in H by done.
  ospecialize* H; [|lia].
  intros d _ Hne. repeat case_decide; set_solver.
Qed.

Lemma pending_edge y popped n :
  y ∈ K → y ∉ popped → n ∈ getList gr y → (0 < pending gr K popped n)%nat.
Proof.
  intros Hy Hn Hin. unfold pending.
  pose proof (sum_list_with_in y
    (λ d, if decide (d ∈ popped) then 0%nat else occ n (getList gr d)) K Hy) as H.
  simpl in H. rewrite decide_False in H by done.
  apply occ_pos in Hin. lia.
Qed.

(** A set of nodes each of which has an edge from a node of the set: the
    nodes on cycles. *)
Variable S_ : string → Prop.
Hypothesis S_in : ∀ x, S_ x → x ∈ K.
Hypothesis S_pred : ∀ x, S_ x → ∃ y, S_ y ∧ x ∈ getList gr y.


(** The inner loop over the neighbours of the node just taken. *)
Lemma visit_neighbors popped' rs deg q :
  NoDup (q ++ popped') →
  (∀ x, x ∈ q ++ popped' → x ∈ K) →
  (∀ n, getInt deg n = Z.of_nat (pending gr K popped' n + occ n rs)) →
  (∀ x, x ∈ q ++ popped' → (pending gr K popped' x + occ x rs = 0)%nat) →
  (∀ x, S_ x → x ∉ q ++ popped') →
  (∀ n, n ∈ rs → n ∈ K) →
  NoDup ((foldl visitNeighbor (deg, q) rs).2 ++ popped') ∧
  (∀ x, x ∈ (foldl visitNeighbor (deg, q) rs).2 ++ popped' → x ∈ K) ∧
  (∀ n, getInt (foldl visitNeighbor (deg, q) rs).1 n = Z.of_nat (pending gr K popped' n)) ∧
  (∀ x, x ∈ (foldl visitNeighbor (deg, q) rs).2 ++ popped' → pending gr K popped' x = 0%nat) ∧
  (∀ x, S_ x → x ∉ (foldl visitNeighbor (deg, q) rs).2 ++ popped').
Proof.
  revert deg q. induction rs as [|m rs IH]; intros deg q Hnd Hin Hdeg Hz Hcyc Hrs; cbn [foldl].
  { split_and!; try done.
    - intros n. rewrite Hdeg, occ_nil. f_equal. lia.
    - intros x Hx. specialize (Hz x Hx). rewrite occ_nil in Hz. lia. }
  assert (Hm : getInt (<[m:=getInt deg m - 1]> deg) m
               = Z.of_nat (pending gr K popped' m + occ m rs)).
  { unfold getInt at 1. rewrite lookup_insert_eq. simpl.
    rewrite Hdeg, occ_cons, decide_True by done. lia. }
  assert (Hother : ∀ n, getInt (<[m:=getInt deg m - 1]> deg) n
               = Z.of_nat (pending gr K popped' n + occ n rs)).
  { intros n. destruct (decide (n = m)) as [->|Hne]; [done|].
    unfold getInt at 1. rewrite lookup_insert_ne by done.
    fold (getInt deg n). rewrite Hdeg, occ_cons, decide_False by done. done. }
  assert (Hfresh : m ∉ q ++ popped').
  { intros Hx. specialize (Hz m Hx). rewrite occ_cons, decide_True in Hz by done. lia. }
  destruct (visitNeighbor (deg, q) m) as [deg' q'] eqn:Hv.
  unfold visitNeighbor in Hv. simpl in Hv.
  case_decide as Hzero; injection Hv as <- <-.
  - apply IH; clear IH.
    + rewrite <- (assoc_L (++)). apply NoDup_app. 
      apply NoDup_app in Hnd as (Hq & Hqp & Hp).
      split_and!; [done| |].
      * intros x Hx. rewrite elem_of_app, list_elem_of_singleton.
        intros [->|Hx']; [apply Hfresh; set_solver|by eapply Hqp].
      * apply NoDup_app. split_and!; [apply NoDup_singleton| |done].
        intros x ->%list_elem_of_singleton Hx. apply Hfresh; set_solver.
    + intros x Hx. destruct (decide (x = m)) as [->|]; [apply Hrs; set_solver|].
      apply Hin. set_solver.
    + done.
    + intros x Hx. destruct (decide (x = m)) as [->|Hne].
      * rewrite Hm in Hzero. lia.
      * assert (x ∈ q ++ popped') as Hx' by set_solver.
        specialize (Hz x Hx'). rewrite occ_cons, decide_False in Hz by done. done.
    + intros x HS Hx. destruct (decide (x = m)) as [->|Hne].
      * destruct (S_pred m HS) as (y & HSy & Hedge).
        assert (y ∉ popped') by (intros ?; eapply (Hcyc y); set_solver).
        pose proof (pending_edge y popped' m (S_in y HSy) H Hedge).
        rewrite Hm in Hzero. lia.
      * eapply Hcyc; [done|]. set_solver.
    + intros n Hn. apply Hrs. set_solver.
  - apply IH; clear IH; try done.
    + intros x Hx. specialize (Hz x Hx). rewrite occ_cons in Hz.
      case_decide; lia.
    + intros n Hn. apply Hrs. set_solver.
Qed.

Variable g : depGraph.
Hypothesis g_graph : graph g = gr.

Lemma kahnStep_inv current rest st popped :
  queue st = current :: rest →
  kahn_inv gr K S_ st popped →
  kahn_inv gr K S_ (kahnStep g current rest st) (current :: popped).
Proof.
  intros Hq [Hnd Hin Hdeg Hz Hcnt Hres Hcyc]. rewrite Hq in *.
  assert (Hc : current ∈ K) by (apply Hin; set_solver).
  assert (Hcp : current ∉ popped).
  { apply NoDup_cons_1_1 in Hnd. set_solver. }
  pose proof (visit_neighbors (current :: popped) (getList gr current)
                (degrees st) rest) as H.
  ospecialize* H.
  - apply NoDup_app. simpl in Hnd. apply NoDup_cons in Hnd as [Hn1 Hn2].
    apply NoDup_app in Hn2 as (? & ? & ?). split_and!; [done| |].
    + intros x Hx [->|Hx']%elem_of_cons; [set_solver|naive_solver].
    + apply NoDup_cons. set_solver.
  - intros x Hx. apply Hin. set_solver.
  - intros n. rewrite Hdeg. f_equal. by apply pending_cons.
  - intros x Hx. assert (pending gr K popped x = 0%nat) as Hx0 by (apply Hz; set_solver).
    rewrite (pending_cons current) in Hx0 by done. done.
  - intros x HS Hx. eapply Hcyc; [done|]. set_solver.
  - intros n Hn. by eapply gr_closed.
  - unfold kahnStep. rewrite g_graph.
    destruct H as (H1 & H2 & H3 & H4 & H5).
    split; simpl; try done.
    + rewrite Hcnt. lia.
    + rewrite length_app, Hres. simpl. lia.
Qed.

Lemma kahn_inv_bound st popped :
  kahn_inv gr K S_ st popped → (length (queue st) + length popped ≤ length K)%nat.
Proof.
  intros [Hnd Hin _ _ _ _ _]. rewrite <- length_app.
  apply submseteq_length, NoDup_submseteq; done.
Qed.

(** The loop ends within the fuel, and the invariant holds at its end. *)
Lemma kahnLoop_inv fuel st popped :
  kahn_inv gr K S_ st popped →
  (length K < fuel + length popped)%nat →
  ∃ st' popped', kahnLoop fuel g st = Some st' ∧ queue st' = []
                 ∧ kahn_inv gr K S_ st' popped'.
Proof.
  revert st popped. induction fuel as [|fuel IH]; intros st popped Hinv Hfuel.
  - pose proof (kahn_inv_bound _ _ Hinv). simpl.
    destruct (queue st) as [|c r] eqn:Hq; [eauto|]. simpl in *. lia.
  - simpl. destruct (queue st) as [|c r] eqn:Hq; [eauto|].
    apply (IH _ (c :: popped)); [by apply kahnStep_inv|simpl; lia].
Qed.

(** The statements emitted are those of the nodes taken off the queue, in
    the order in which they were taken. *)
Lemma kahnLoop_inv_result fuel st popped :
  kahn_inv gr K S_ st popped →
  result_ st = getStmt (stmtMap g) <$> reverse popped →
  (length K < fuel + length popped)%nat →
  ∃ st' popped', kahnLoop fuel g st = Some st' ∧ queue st' = []
                 ∧ kahn_inv gr K S_ st' popped'
                 ∧ result_ st' = getStmt (stmtMap g) <$> reverse popped'.
Proof.
  revert st popped. induction fuel as [|fuel IH]; intros st popped Hinv Hres Hfuel.
  - pose proof (kahn_inv_bound _ _ Hinv). simpl.
    destruct (queue st) as [|c r] eqn:Hq; [eauto 10|]. simpl in *. lia.
  - simpl. destruct (queue st) as [|c r] eqn:Hq; [eauto 10|].
    apply (IH _ (c :: popped)); [by apply kahnStep_inv| |simpl; lia].
    simpl. by rewrite reverse_cons, fmap_app, Hres.
Qed.

(** A node with a pending edge has an edge from a node not yet taken. *)
Lemma pending_pos popped n :
  (0 < pending gr K popped n)%nat →
  ∃ d, d ∈ K ∧ (d ∉ popped) ∧ n ∈ getList gr d.
Proof.
  unfold pending. clear K_nodup gr_closed S_in. induction K as [|d K' IH]; simpl; [lia|].
  intros Hpos. case_decide as Hd.
  - destruct IH as (d' & ? & ? & ?); [lia|]. exists d'. split; [by right|done].
  - destruct (decide (0 < occ n (getList gr d))%nat) as [Hocc|Hocc].
    + exists d. split; [by left|]. split; [done|]. by apply occ_pos.
    + destruct IH as (d' & ? & ? & ?); [lia|]. exists d'. split; [by right|done].
Qed.

(** The inner loop puts on the queue every neighbour whose last pending
    edge it removes. *)
Lemma visit_neighbors_found popped' rs deg q :
  (∀ n, getInt deg n = Z.of_nat (pending gr K popped' n + occ n rs)) →
  (∀ n, n ∈ K → (pending gr K popped' n + occ n rs = 0)%nat → n ∈ q ++ popped') →
  ∀ n, n ∈ K → pending gr K popped' n = 0%nat →
       n ∈ (foldl visitNeighbor (deg, q) rs).2 ++ popped'.
Proof.
  revert deg q. induction rs as [|m rs IH]; intros deg q Hdeg Hfound; cbn [foldl].
  { intros n Hn Hz. apply Hfound; [done|]. rewrite occ_nil. lia. }
  assert (Hother : ∀ n, getInt (<[m:=getInt deg m - 1]> deg) n
               = Z.of_nat (pending gr K popped' n + occ n rs)).
  { intros n. destruct (decide (n = m)) as [->|Hne].
    - unfold getInt at 1. rewrite lookup_insert_eq. simpl.
      rewrite Hdeg, occ_cons, decide_True by done. lia.
    - unfold getInt at 1. rewrite lookup_insert_ne by done.
      fold (getInt deg n). rewrite Hdeg, occ_cons, decide_False by done. done. }
  destruct (visitNeighbor (deg, q) m) as [deg' q'] eqn:Hv.
  unfold visitNeighbor in Hv. simpl in Hv.
  case_decide as Hzero; injection Hv as <- <-.
  - apply IH; [done|]. intros n Hn Hz.
    destruct (decide (n = m)) as [->|Hne]; [set_solver|].
    assert (n ∈ q ++ popped'); [|set_solver].
    apply Hfound; [done|]. rewrite occ_cons, decide_False by done. done.
  - apply IH; [done|]. intros n Hn Hz.
    destruct (decide (n = m)) as [->|Hne].
    + rewrite Hother in Hzero. lia.
    + apply Hfound; [done|]. rewrite occ_cons, decide_False by done. done.
Qed.

Lemma kahnStep_found current rest st popped :
  queue st = current :: rest →
  kahn_inv gr K S_ st popped → found gr K st popped →
  found gr K (kahnStep g current rest st) (current :: popped).
Proof.
  intros Hq [Hnd Hin Hdeg _ _ _ _] Hfound. unfold found in Hfound. rewrite Hq in *.
  assert (Hc : current ∈ K) by (apply Hin; set_solver).
  assert (Hcp : current ∉ popped).
  { apply NoDup_cons_1_1 in Hnd. set_solver. }
  unfold found, kahnStep. simpl. rewrite g_graph.
  apply visit_neighbors_found.
  - intros n. rewrite Hdeg. f_equal. by apply pending_cons.
  - intros n Hn Hz.
    assert (n ∈ (current :: rest) ++ popped); [|set_solver].
    apply Hfound; [done|]. rewrite (pending_cons current) by done. lia.
Qed.

Lemma kahnLoop_inv_found fuel st popped :
  kahn_inv gr K S_ st popped → found gr K st popped →
  (length K < fuel + length popped)%nat →
  ∃ st' popped', kahnLoop fuel g st = Some st' ∧ queue st' = []
                 ∧ kahn_inv gr K S_ st' popped' ∧ found gr K st' popped'.
Proof.
  revert st popped. induction fuel as [|fuel IH]; intros st popped Hinv Hfound Hfuel.
  - pose proof (kahn_inv_bound _ _ Hinv). simpl.
    destruct (queue st) as [|c r] eqn:Hq; [eauto 10|]. simpl in *. lia.
  - simpl. destruct (queue st) as [|c r] eqn:Hq; [eauto 10|].
    apply (IH _ (c :: popped));
      [by apply kahnStep_inv|by apply kahnStep_found|simpl; lia].
Qed.

End kahn.

(** ** The graph [buildGraph] builds *)

Section build.

Variable statements : list SQLStatement.


Lemma nodes_nodup : NoDup (nodes statements).
Proof. apply NoDup_remove_dups. Qed.

Lemma nodes_names k : k ∈ (nodes statements) ↔ k ∈ names statements.
Proof. apply elem_of_remove_dups. Qed.

Lemma nodes_length : (length (nodes statements) ≤ length statements)%nat.
Proof.
  unfold nodes. rewrite <- (length_fmap Name statements).
  apply submseteq_length, NoDup_submseteq; [apply NoDup_remove_dups|].
  intros x. by rewrite elem_of_remove_dups.
Qed.


Lemma initNode_fold_stmtMap l k :
  is_Some (stmtMap (foldl initNode emptyDepGraph l) !! k) ↔ k ∈ names l.
Proof.
  induction l as [|stmt l IH] using rev_ind.
  - simpl. rewrite lookup_empty. unfold names. simpl.
    rewrite elem_of_nil. split; [by intros []|done].
  - rewrite foldl_app. simpl. unfold names. rewrite fmap_app, elem_of_app. simpl.
    rewrite list_elem_of_singleton. fold (names l). rewrite <- IH.
    destruct (decide (Name stmt = k)) as [->|Hne].
    + rewrite lookup_insert_eq. split; [by right|by eauto].
    + rewrite lookup_insert_ne by done. split; [by left|]. by intros [|].
Qed.

Lemma initNode_fold_inDegree l k :
  inDegree (foldl initNode emptyDepGraph l) !! k
  = if decide (k ∈ names l) then Some 0 else None.
Proof.
  induction l as [|stmt l IH] using rev_ind.
  - simpl. by rewrite lookup_empty.
  - rewrite foldl_app. simpl. unfold names in *. rewrite fmap_app. simpl.
    destruct (decide (Name stmt = k)) as [->|Hne].
    + rewrite lookup_insert_eq. rewrite decide_True; [done|]. set_solver.
    + rewrite lookup_insert_ne by done. rewrite IH.
      repeat case_decide; set_solver.
Qed.

Lemma initNode_fold_graph l k :
  getList (graph (foldl initNode emptyDepGraph l)) k = [].
Proof.
  induction l as [|stmt l IH] using rev_ind; [done|].
  rewrite foldl_app. simpl. unfold getList in *.
  destruct (decide (Name stmt = k)) as [->|Hne].
  - by rewrite lookup_insert_eq.
  - by rewrite lookup_insert_ne.
Qed.

Lemma pending_no_edges gr K popped n :
  (∀ d, getList gr d = []) → pending gr K popped n = 0%nat.
Proof.
  intros Hgr. unfold pending. induction K as [|d K IH]; [done|]. simpl.
  rewrite IH, Hgr. by case_decide.
Qed.

Lemma build_inv_init : build_inv statements (foldl initNode emptyDepGraph statements).
Proof.
  split.
  - apply initNode_fold_stmtMap.
  - intros k. rewrite initNode_fold_inDegree. case_decide; [done|by intros []].
  - intros d n. rewrite initNode_fold_graph. by rewrite elem_of_nil.
  - intros n. rewrite pending_no_edges by apply initNode_fold_graph.
    unfold getInt. rewrite initNode_fold_inDegree. by case_decide.
Qed.

Lemma addDependency_inv name g dep :
  name ∈ names statements → build_inv statements g → build_inv statements (addDependency name g dep).
Proof.
  intros Hname [Hs Hk Hc Hd]. unfold addDependency.
  destruct (stmtMap g !! dep) as [s|] eqn:Hdep; [|done].
  assert (Hdepn : dep ∈ (nodes statements)) by (apply nodes_names, Hs; eauto).
  assert (Hget : ∀ d, getList (<[dep:=getList (graph g) dep ++ [name]]> (graph g)) d
            = if decide (d = dep) then getList (graph g) dep ++ [name]
              else getList (graph g) d).
  { intros d. unfold getList at 1. case_decide as Hdd.
    - subst d. by rewrite lookup_insert_eq.
    - by rewrite lookup_insert_ne. }
  split; simpl.
  - done.
  - intros k. destruct (decide (name = k)) as [->|Hne]; [done|].
    rewrite lookup_insert_ne by done. apply Hk.
  - intros d n. rewrite Hget. case_decide; [|apply Hc]. subst d.
    rewrite elem_of_app, list_elem_of_singleton.
    intros [?| ->]; [by eapply Hc|by apply nodes_names].
  - intros n. unfold pending.
    pose proof (sum_list_with_change
      (λ d, if decide (d ∈ []) then 0%nat else occ n (getList (graph g) d))
      (λ d, if decide (d ∈ []) then 0%nat
            else occ n (getList (<[dep:=getList (graph g) dep ++ [name]]> (graph g)) d))
      dep (nodes statements) nodes_nodup Hdepn) as Hsum.
    ospecialize* Hsum.
    { intros d _ Hne. simpl. by rewrite Hget, decide_False. }
    simpl in Hsum.
    rewrite Hget, decide_True, occ_app in Hsum by done.
    rewrite occ_cons, occ_nil in Hsum.
    specialize (Hd n). unfold pending in Hd. simpl in Hd. simpl.
    destruct (decide (name = n)) as [->|Hne].
    + unfold getInt at 1. rewrite lookup_insert_eq. simpl. lia.
    + unfold getInt at 1. rewrite lookup_insert_ne by done.
      fold (getInt (inDegree g) n). lia.
Qed.

Lemma addDependency_stmtMap name g dep :
  stmtMap (addDependency name g dep) = stmtMap g.
Proof. unfold addDependency. by destruct (stmtMap g !! dep). Qed.

Lemma addDependency_mono name g dep d n :
  n ∈ getList (graph g) d → n ∈ getList (graph (addDependency name g dep)) d.
Proof.
  unfold addDependency. destruct (stmtMap g !! dep); [|done]. simpl.
  unfold getList at 2. destruct (decide (dep = d)) as [->|Hne].
  - rewrite lookup_insert_eq. simpl. set_solver.
  - by rewrite lookup_insert_ne.
Qed.

Lemma addDependency_edge name g dep :
  is_Some (stmtMap g !! dep) →
  name ∈ getList (graph (addDependency name g dep)) dep.
Proof.
  intros [s Hs]. unfold addDependency. rewrite Hs. simpl.
  unfold getList at 1. rewrite lookup_insert_eq. simpl. set_solver.
Qed.

Lemma addDependencies_inv g stmt :
  stmt ∈ statements → build_inv statements g → build_inv statements (addDependencies g stmt).
Proof.
  intros Hin. unfold addDependencies. generalize (Dependencies stmt) as deps.
  intros deps. revert g. induction deps as [|dep deps IH]; intros g Hg; [done|].
  simpl. apply IH, addDependency_inv; [|done].
  unfold names. by apply list_elem_of_fmap_2.
Qed.

Lemma addDependencies_stmtMap g stmt :
  stmtMap (addDependencies g stmt) = stmtMap g.
Proof.
  unfold addDependencies. generalize (Dependencies stmt) as deps.
  intros deps. revert g. induction deps as [|dep deps IH]; intros g; [done|].
  simpl. by rewrite IH, addDependency_stmtMap.
Qed.

Lemma addDependencies_mono g stmt d n :
  n ∈ getList (graph g) d → n ∈ getList (graph (addDependencies g stmt)) d.
Proof.
  unfold addDependencies. generalize (Dependencies stmt) as deps.
  intros deps. revert g. induction deps as [|dep deps IH]; intros g Hn; [done|].
  simpl. by apply IH, addDependency_mono.
Qed.

Lemma addDependencies_edge g stmt dep :
  dep ∈ Dependencies stmt → is_Some (stmtMap g !! dep) →
  Name stmt ∈ getList (graph (addDependencies g stmt)) dep.
Proof.
  unfold addDependencies. generalize (Dependencies stmt) as deps.
  intros deps. revert g. induction deps as [|dep' deps IH]; intros g Hin Hs.
  { by apply elem_of_nil in Hin. }
  simpl. apply elem_of_cons in Hin as [->|Hin].
  - clear IH. generalize (addDependency_edge (Name stmt) g dep' Hs).
    generalize (addDependency (Name stmt) g dep') as g'.
    induction deps as [|e deps IH]; intros g' Hg'; [done|].
    simpl. by apply IH, addDependency_mono.
  - apply IH; [done|]. by rewrite addDependency_stmtMap.
Qed.

Lemma fold_addDependencies_inv l g :
  l ⊆ statements → build_inv statements g → build_inv statements (foldl addDependencies g l).
Proof.
  revert g. induction l as [|stmt l IH]; intros g Hl Hg; [done|].
  simpl. apply IH; [set_solver|]. apply addDependencies_inv; [set_solver|done].
Qed.

Lemma fold_addDependencies_mono l g d n :
  n ∈ getList (graph g) d → n ∈ getList (graph (foldl addDependencies g l)) d.
Proof.
  revert g. induction l as [|stmt l IH]; intros g Hn; [done|].
  simpl. by apply IH, addDependencies_mono.
Qed.

Lemma fold_addDependencies_stmtMap l g :
  stmtMap (foldl addDependencies g l) = stmtMap g.
Proof.
  revert g. induction l as [|stmt l IH]; intros g; [done|].
  simpl. by rewrite IH, addDependencies_stmtMap.
Qed.

Lemma fold_addDependencies_edge l g stmt dep :
  stmt ∈ l → dep ∈ Dependencies stmt → is_Some (stmtMap g !! dep) →
  Name stmt ∈ getList (graph (foldl addDependencies g l)) dep.
Proof.
  revert g. induction l as [|s l IH]; intros g Hin Hdep Hs.
  { by apply elem_of_nil in Hin. }
  simpl. apply elem_of_cons in Hin as [->|Hin].
  - by apply fold_addDependencies_mono, addDependencies_edge.
  - apply IH; [done..|]. by rewrite addDependencies_stmtMap.
Qed.

Lemma buildGraph_inv : build_inv statements (buildGraph statements).
Proof. apply fold_addDependencies_inv; [done|apply build_inv_init]. Qed.

(** Every dependency on a statement of the set is an edge of the graph. *)
Lemma buildGraph_edge a b :
  dependsOn statements a b → a ∈ getList (graph (buildGraph statements)) b.
Proof.
  intros (stmt & Hin & <- & Hdep & Hb).
  apply fold_addDependencies_edge; [done..|].
  by apply initNode_fold_stmtMap.
Qed.

(** With distinct names the map of the statements finds each statement
    under its name. *)
Lemma initNode_fold_lookup l stmt :
  NoDup (names l) → stmt ∈ l →
  stmtMap (foldl initNode emptyDepGraph l) !! Name stmt = Some stmt.
Proof.
  induction l as [|s l IH] using rev_ind; [by intros _ ?%elem_of_nil|].
  unfold names. rewrite fmap_app. simpl. intros Hnd Hin.
  apply NoDup_app in Hnd as (Hl & Hfresh & _).
  rewrite foldl_app. simpl. apply elem_of_app in Hin as [Hin|Hin].
  - rewrite lookup_insert_ne; [by apply IH|].
    intros Heq. apply (Hfresh (Name stmt)); [by apply list_elem_of_fmap_2|].
    rewrite <- Heq. by left.
  - apply list_elem_of_singleton in Hin as ->. by rewrite lookup_insert_eq.
Qed.

Lemma buildGraph_lookup stmt :
  NoDup (names statements) → stmt ∈ statements →
  getStmt (stmtMap (buildGraph statements)) (Name stmt) = stmt.
Proof.
  intros Hnd Hin. unfold buildGraph, getStmt.
  rewrite fold_addDependencies_stmtMap, initNode_fold_lookup by done. done.
Qed.

(** Every node has an entry in the map of the degrees. *)
Lemma addDependency_inDegree name g dep k :
  is_Some (inDegree g !! k) → is_Some (inDegree (addDependency name g dep) !! k).
Proof.
  unfold addDependency. destruct (stmtMap g !! dep); [|done]. simpl.
  intros Hk. destruct (decide (name = k)) as [->|Hne].
  - rewrite lookup_insert_eq. eauto.
  - by rewrite lookup_insert_ne.
Qed.

Lemma buildGraph_inDegree k :
  k ∈ names statements → is_Some (inDegree (buildGraph statements) !! k).
Proof.
  intros Hk. unfold buildGraph.
  assert (Hinit : is_Some (inDegree (foldl initNode emptyDepGraph statements) !! k)).
  { rewrite initNode_fold_inDegree. rewrite decide_True by done. eauto. }
  revert Hinit. generalize (foldl initNode emptyDepGraph statements) as g.
  generalize statements as l.
  induction l as [|stmt l IH]; intros g Hg; [done|]. simpl. apply IH.
  unfold addDependencies. revert g Hg.
  induction (Dependencies stmt) as [|dep deps IHd]; intros g Hg; [done|].
  simpl. apply IHd. by apply addDependency_inDegree.
Qed.

(** Every edge of the graph is a dependency between statements of the
    set. *)
Lemma addDependency_sound name g dep :
  (∃ stmt, stmt ∈ statements ∧ Name stmt = name ∧ dep ∈ Dependencies stmt) →
  (∀ k, is_Some (stmtMap g !! k) → k ∈ names statements) →
  (∀ d n, n ∈ getList (graph g) d → dependsOn statements n d) →
  ∀ d n, n ∈ getList (graph (addDependency name g dep)) d → dependsOn statements n d.
Proof.
  intros (stmt & Hin & Hname & Hdep) Hkeys Hsound d n.
  unfold addDependency. destruct (stmtMap g !! dep) as [s|] eqn:Hs; [|apply Hsound].
  simpl. unfold getList at 1. destruct (decide (dep = d)) as [<-|Hne].
  - rewrite lookup_insert_eq. simpl. rewrite elem_of_app, list_elem_of_singleton.
    intros [Hold| ->]; [by apply Hsound|].
    exists stmt. split_and!; [done..|]. apply Hkeys. eauto.
  - rewrite lookup_insert_ne by done. apply Hsound.
Qed.

Lemma fold_addDependency_sound stmt deps g :
  stmt ∈ statements → (∀ dep, dep ∈ deps → dep ∈ Dependencies stmt) →
  (∀ k, is_Some (stmtMap g !! k) → k ∈ names statements) →
  (∀ d n, n ∈ getList (graph g) d → dependsOn statements n d) →
  ∀ d n, n ∈ getList (graph (foldl (addDependency (Name stmt)) g deps)) d
         → dependsOn statements n d.
Proof.
  intros Hstmt. revert g. induction deps as [|dep deps IH]; intros g Hdeps Hkeys Hsound;
    [done|].
  simpl. apply IH.
  - intros dep' Hdep'. apply Hdeps. by right.
  - intros k. rewrite addDependency_stmtMap. apply Hkeys.
  - apply addDependency_sound; [|done..].
    exists stmt. split_and!; [done..|]. apply Hdeps. by left.
Qed.

Lemma fold_addDependencies_sound l g :
  (∀ stmt, stmt ∈ l → stmt ∈ statements) →
  (∀ k, is_Some (stmtMap g !! k) → k ∈ names statements) →
  (∀ d n, n ∈ getList (graph g) d → dependsOn statements n d) →
  ∀ d n, n ∈ getList (graph (foldl addDependencies g l)) d → dependsOn statements n d.
Proof.
  revert g. induction l as [|stmt l IH]; intros g Hsub Hkeys Hsound; [done|].
  simpl. apply IH.
  - intros s Hs. apply Hsub. by right.
  - intros k. rewrite addDependencies_stmtMap. apply Hkeys.
  - apply fold_addDependency_sound; [apply Hsub; by left|done..].
Qed.

Lemma buildGraph_sound d n :
  n ∈ getList (graph (buildGraph statements)) d → dependsOn statements n d.
Proof.
  apply fold_addDependencies_sound.
  - done.
  - intros k. by rewrite initNode_fold_stmtMap.
  - intros d' n'. rewrite initNode_fold_graph. by intros ?%elem_of_nil.
Qed.

End build.

(** ** [SortByDependencies] *)

Section resolver.

Variable rangeOrder : list (string * Z) → list (string * Z).
Hypothesis rangeOrder_perm : ∀ l, rangeOrder l ≡ₚ l.

Lemma initialQueue_elem g x :
  x ∈ initialQueue rangeOrder g ↔ inDegree g !! x = Some 0.
Proof.
  unfold initialQueue. rewrite list_elem_of_fmap. split.
  - intros ([k d] & -> & Hin). apply list_elem_of_filter in Hin as [Hz Hin].
    rewrite rangeOrder_perm in Hin. apply elem_of_map_to_list in Hin.
    simpl in *. by subst d.
  - intros Hx. exists (x, 0). split; [done|]. apply list_elem_of_filter.
    split; [done|]. rewrite rangeOrder_perm. by apply elem_of_map_to_list.
Qed.

Lemma initialQueue_nodup g : NoDup (initialQueue rangeOrder g).
Proof.
  unfold initialQueue.
  eapply sublist_NoDup; [|apply fmap_sublist, sublist_filter].
  rewrite rangeOrder_perm. apply NoDup_fst_map_to_list.
Qed.

Variable statements : list SQLStatement.
Variable S_ : string → Prop.
Hypothesis S_in : ∀ x, S_ x → x ∈ nodes statements.
Hypothesis S_pred :
  ∀ x, S_ x → ∃ y, S_ y ∧ x ∈ getList (graph (buildGraph statements)) y.

Lemma kahnStart_inv :
  kahn_inv (graph (buildGraph statements)) (nodes statements) S_
    (kahnStart rangeOrder (buildGraph statements)) [].
Proof.
  destruct (buildGraph_inv statements) as [Hs Hk Hc Hd].
  assert (Hq0 : ∀ x, x ∈ initialQueue rangeOrder (buildGraph statements) →
                 x ∈ nodes statements
                 ∧ pending (graph (buildGraph statements)) (nodes statements) [] x = 0%nat).
  { intros x Hx%initialQueue_elem. split.
    - apply nodes_names, Hk. eauto.
    - specialize (Hd x). unfold getInt in Hd. rewrite Hx in Hd. simpl in Hd. lia. }
  split; simpl; rewrite ?app_nil_r.
  - apply initialQueue_nodup.
  - intros x Hx. by apply Hq0.
  - done.
  - intros x Hx. by apply Hq0.
  - done.
  - done.
  - intros x HS Hx. destruct (S_pred x HS) as (y & HSy & Hedge).
    pose proof (pending_edge (graph (buildGraph statements)) (nodes statements)
                  y [] x (S_in y HSy) (not_elem_of_nil y) Hedge).
    apply Hq0 in Hx as [_ Hx]. lia.
Qed.

Lemma kahnLoop_end :
  ∃ st popped,
    kahnLoop (S (length statements)) (buildGraph statements)
      (kahnStart rangeOrder (buildGraph statements)) = Some st
    ∧ queue st = []
    ∧ kahn_inv (graph (buildGraph statements)) (nodes statements) S_ st popped.
Proof.
  eapply (kahnLoop_inv (graph (buildGraph statements)) (nodes statements)).
  - apply nodes_nodup.
  - apply (bi_closed _ _ (buildGraph_inv statements)).
  - apply S_in.
  - apply S_pred.
  - done.
  - apply kahnStart_inv.
  - pose proof (nodes_length statements). simpl. lia.
Qed.

Lemma kahnLoop_end_result :
  ∃ st popped,
    kahnLoop (S (length statements)) (buildGraph statements)
      (kahnStart rangeOrder (buildGraph statements)) = Some st
    ∧ queue st = []
    ∧ kahn_inv (graph (buildGraph statements)) (nodes statements) S_ st popped
    ∧ result_ st = getStmt (stmtMap (buildGraph statements)) <$> reverse popped.
Proof.
  eapply (kahnLoop_inv_result (graph (buildGraph statements)) (nodes statements)).
  - apply nodes_nodup.
  - apply (bi_closed _ _ (buildGraph_inv statements)).
  - apply S_in.
  - apply S_pred.
  - done.
  - apply kahnStart_inv.
  - done.
  - pose proof (nodes_length statements). simpl. lia.
Qed.

Lemma kahnStart_found :
  found (graph (buildGraph statements)) (nodes statements)
    (kahnStart rangeOrder (buildGraph statements)) [].
Proof.
  intros n Hn Hz. simpl. rewrite app_nil_r. apply initialQueue_elem.
  destruct (buildGraph_inDegree statements n) as [deg Hdeg]; [by apply nodes_names|].
  pose proof (bi_degree _ _ (buildGraph_inv statements) n) as Hd.
  unfold getInt in Hd. rewrite Hdeg in Hd. simpl in Hd. rewrite Hdeg. f_equal. lia.
Qed.

Lemma kahnLoop_end_found :
  ∃ st popped,
    kahnLoop (S (length statements)) (buildGraph statements)
      (kahnStart rangeOrder (buildGraph statements)) = Some st
    ∧ queue st = []
    ∧ kahn_inv (graph (buildGraph statements)) (nodes statements) S_ st popped
    ∧ found (graph (buildGraph statements)) (nodes statements) st popped.
Proof.
  eapply (kahnLoop_inv_found (graph (buildGraph statements)) (nodes statements)).
  - apply nodes_nodup.
  - apply (bi_closed _ _ (buildGraph_inv statements)).
  - apply S_in.
  - apply S_pred.
  - done.
  - apply kahnStart_inv.
  - apply kahnStart_found.
  - pose proof (nodes_length statements). simpl. lia.
Qed.

End resolver.

(** The fuel is enough: the loop of [SortByDependencies] always ends. *)
Lemma kahnLoop_fuel rangeOrder (statements : list SQLStatement) :
  (∀ l, rangeOrder l ≡ₚ l) →
  ∃ r, SortByDependencies rangeOrder statements = Some r.
Proof.
  intros Hperm.
  destruct (kahnLoop_end rangeOrder Hperm statements (λ _, False))
    as (st & popped & Hloop & _ & _); [done..|].
  unfold SortByDependencies. rewrite Hloop. case_decide; eauto.
Qed.


Lemma onCycle_node statements a x : onCycle statements a x → x ∈ nodes statements.
Proof.
  intros [_ Htc]. apply nodes_names.
  destruct Htc as [x y (stmt & Hin & <- & _)|x y z (stmt & Hin & <- & _) _];
    unfold names; by apply list_elem_of_fmap_2.
Qed.

Lemma onCycle_pred statements a x :
  tc (dependsOn statements) a a →
  onCycle statements a x →
  ∃ y, onCycle statements a y ∧ x ∈ getList (graph (buildGraph statements)) y.
Proof.
  intros Ha [Hax Hxa]. inversion Hxa as [? ? Hstep|? y ? Hstep Hya]; subst.
  - exists a. split; [by split|]. by apply buildGraph_edge.
  - exists y. split; [|by apply buildGraph_edge].
    split; [|done]. eapply rtc_r; done.
Qed.

(** C4. A set of statements whose dependency graph, restricted to the names
    of the set, has a cycle is refused: for every order in which Go may range
    over the in-degree map, [SortByDependencies] returns the cycle error and
    no list.  More generally the error is returned whenever the loop has
    emitted fewer nodes than there are statements. *)
Theorem SortByDependencies_cycle_error rangeOrder (statements : list SQLStatement) :
  (∀ l, rangeOrder l ≡ₚ l) →
  (cyclic statements →
   SortByDependencies rangeOrder statements = Some (Err "检测到循环依赖"))
  ∧ (∀ st,
       kahnLoop (S (length statements)) (buildGraph statements)
         (kahnStart rangeOrder (buildGraph statements)) = Some st →
       processed st < Z.of_nat (length statements) →
       SortByDependencies rangeOrder statements = Some (Err "检测到循环依赖")).
Proof.
  intros Hperm. split.
  - intros [a Ha].
    destruct (kahnLoop_end rangeOrder Hperm statements (onCycle statements a))
      as (st & popped & Hloop & Hq & Hinv).
    { apply onCycle_node. }
    { intros x. by apply onCycle_pred. }
    unfold SortByDependencies. rewrite Hloop.
    rewrite decide_True; [done|].
    destruct Hinv as [Hnd Hin _ _ Hcnt _ Hcyc]. rewrite Hq in *. simpl in *.
    assert (Ha' : onCycle statements a a) by (by split).
    assert (length (a :: popped) ≤ length (nodes statements))%nat.
    { apply submseteq_length, NoDup_submseteq.
      - apply NoDup_cons. split; [by apply Hcyc|done].
      - intros x [->|Hx]%elem_of_cons; [by eapply onCycle_node|by apply Hin]. }
    pose proof (nodes_length statements). simpl in *. lia.
  - intros st Hloop Hlt. unfold SortByDependencies. rewrite Hloop.
    rewrite decide_True; [done|lia].
Qed.


Lemma tableA_tableB_cyclic : cyclic [tableA; tableB].
Proof.
  exists "a". apply tc_l with "b"; [|apply tc_once].
  - exists tableA. split_and!; [by left|done|by left|right; by left].
  - exists tableB. split_and!; [right; by left|done|by left|by left].
Qed.

Lemma SortByDependencies_cycle_error_witness :
  cyclic [tableA; tableB]
  ∧ SortByDependencies (λ l, l) [tableA; tableB] = Some (Err "检测到循环依赖").
Proof.
  split; [exact tableA_tableB_cyclic|].
  apply (SortByDependencies_cycle_error (λ l, l) [tableA; tableB]).
  - intros l. reflexivity.
  - exact tableA_tableB_cyclic.
Defined.

(** ** The order of [orders] and [order_items] *)





(** C1, on the code.  The script that defines [orders] and then
    [order_items] with a foreign key to [orders] parses to these two
    statements; for either order of the input and either order in which Go
    may range over the two-key in-degree map, [SortByDependencies] returns
    [order_items] before [orders]: the re-sort by type priority and name
    that follows the topological loop puts the name "order_items" first.  The
    topological loop itself emits [orders] first; the returned list does not
    respect the dependencies. *)
Theorem SortByDependencies_orders_after_order_items :
  ParseFile NewParser ordersScript = Ok [orders; order_items]
  ∧ result_ <$> kahnLoop 3 (buildGraph [order_items; orders])
                  (kahnStart (λ l, l) (buildGraph [order_items; orders]))
    = Some [orders; order_items]
  ∧ SortByDependencies (λ l, l) [orders; order_items] = Some (Ok [order_items; orders])
  ∧ SortByDependencies reverse [orders; order_items] = Some (Ok [order_items; orders])
  ∧ SortByDependencies (λ l, l) [order_items; orders] = Some (Ok [order_items; orders])
  ∧ SortByDependencies reverse [order_items; orders] = Some (Ok [order_items; orders])
  ∧ ¬ respectsDependencies [order_items; orders].
Proof.
  split_and!; try (vm_compute; reflexivity).
  intros H. specialize (H 0%nat 1%nat order_items orders eq_refl eq_refl).
  assert (Name orders ∈ Dependencies order_items) as Hdep by (by left).
  specialize (H Hdep). lia.
Qed.

(** ** What the resolver returns *)

Section resolver_result.

Lemma notAfter_spec a b :
  notAfter a b
  ↔ typeOrder (Type_ a) < typeOrder (Type_ b)
    ∨ (typeOrder (Type_ a) = typeOrder (Type_ b) ∧ String.ltb (Name b) (Name a) = false).
Proof.
  unfold notAfter, less. case_decide as Hne.
  - rewrite bool_decide_eq_false. split; [intros ?; left; lia|intros [?|[? _]]; lia].
  - split; [intros ?; right; split; [lia|done]|intros [?|[_ ?]]; [lia|done]].
Qed.

Lemma notAfter_trans : Transitive notAfter.
Proof.
  intros a b c. rewrite !notAfter_spec.
  intros [?|[? Hab]] [?|[? Hbc]]; [left; lia..|].
  right. split; [lia|]. by eapply ltb_false_trans.
Qed.

Lemma notAfter_total : Total notAfter.
Proof.
  intros a b. rewrite !notAfter_spec.
  destruct (Z.lt_trichotomy (typeOrder (Type_ a)) (typeOrder (Type_ b))) as [?|[?|?]];
    [by left; left| |by right; left].
  destruct (ltb_false_total (Name a) (Name b)); [left|right]; right; split; done.
Qed.

(** Two statements that may each follow the other have one priority and one
    name. *)
Lemma notAfter_antisym a b : notAfter a b → notAfter b a → Name a = Name b.
Proof.
  rewrite !notAfter_spec. intros [?|[? Hab]] [?|[? Hba]]; try lia.
  by apply ltb_false_antisym.
Qed.

(** The end of the loop of [SortByDependencies]: the nodes taken off the
    queue are distinct nodes of the graph, their number is the count, and
    the statements emitted are theirs. *)
Lemma kahnLoop_emitted rangeOrder (statements : list SQLStatement) :
  (∀ l, rangeOrder l ≡ₚ l) →
  ∃ st popped,
    kahnLoop (S (length statements)) (buildGraph statements)
      (kahnStart rangeOrder (buildGraph statements)) = Some st
    ∧ NoDup popped ∧ (∀ x, x ∈ popped → x ∈ nodes statements)
    ∧ processed st = Z.of_nat (length popped)
    ∧ result_ st = getStmt (stmtMap (buildGraph statements)) <$> reverse popped.
Proof.
  intros Hperm.
  destruct (kahnLoop_end_result rangeOrder Hperm statements (λ _, False))
    as (st & popped & Hloop & Hq & [Hnd Hin _ _ Hcnt _ _] & Hres); [done..|].
  rewrite Hq in *. simpl in *. eauto 10.
Qed.

(** Statements that share a name are refused with the error of a cycle,
    whether or not any of them depends on another: the loop emits one
    statement for each name, and the count falls short of the number of the
    statements. *)
Theorem SortByDependencies_duplicate_name rangeOrder (statements : list SQLStatement) :
  (∀ l, rangeOrder l ≡ₚ l) →
  ¬ NoDup (Name <$> statements) →
  SortByDependencies rangeOrder statements = Some (Err "检测到循环依赖").
Proof.
  intros Hperm Hdup.
  destruct (kahnLoop_emitted rangeOrder statements Hperm)
    as (st & popped & Hloop & Hnd & Hin & Hcnt & _).
  unfold SortByDependencies. rewrite Hloop. rewrite decide_True; [done|].
  assert (length popped ≤ length (nodes statements))%nat
    by (by apply submseteq_length, NoDup_submseteq).
  destruct (remove_dups_length (Name <$> statements)) as [Hle Heq].
  rewrite length_fmap in Hle, Heq. fold (names statements) in Hle, Heq.
  fold (nodes statements) in Hle, Heq.
  assert (length (nodes statements) ≠ length statements) by (intros ?; by apply Hdup, Heq).
  lia.
Qed.

(** When [SortByDependencies] returns a list, the names of the statements
    are distinct and the list is the statements in the order of type
    priority, then name: it is a permutation of the input, in that order,
    and the only one.  Which statement depends on which has no part in the
    order returned, nor has the order of the input or of Go's range over the
    map. *)
Theorem SortByDependencies_by_type_and_name rangeOrder
  (statements out : list SQLStatement) :
  (∀ l, rangeOrder l ≡ₚ l) →
  SortByDependencies rangeOrder statements = Some (Ok out) →
  NoDup (Name <$> statements)
  ∧ out ≡ₚ statements
  ∧ StronglySorted notAfter out
  ∧ (∀ out', out' ≡ₚ statements → StronglySorted notAfter out' → out' = out).
Proof.
  intros Hperm.
  destruct (kahnLoop_emitted rangeOrder statements Hperm)
    as (st & popped & Hloop & Hnd & Hin & Hcnt & Hres).
  unfold SortByDependencies. rewrite Hloop. case_decide as Hcount; [done|].
  intros [= <-].
  assert (Hle : (length popped ≤ length (nodes statements))%nat)
    by (by apply submseteq_length, NoDup_submseteq).
  destruct (remove_dups_length (Name <$> statements)) as [Hle' Heq].
  rewrite length_fmap in Hle', Heq. fold (names statements) in Hle', Heq.
  fold (nodes statements) in Hle', Heq.
  assert (Hnames : NoDup (names statements)) by (apply Heq; lia).
  assert (Hpopped : popped ≡ₚ names statements).
  { transitivity (nodes statements).
    - apply submseteq_length_Permutation; [by apply NoDup_submseteq|lia].
    - apply NoDup_Permutation; [apply nodes_nodup|done|]. intros x. apply nodes_names. }
  assert (Hout : result_ st ≡ₚ statements).
  { rewrite Hres, reverse_Permutation, Hpopped. unfold names.
    rewrite <- list_fmap_compose.
    rewrite (list_fmap_ext _ id statements); [by rewrite list_fmap_id|].
    intros i stmt Hi. simpl. apply buildGraph_lookup; [done|].
    by eapply list_elem_of_lookup_2. }
  assert (Hsorted : StronglySorted notAfter (sortSlice (result_ st))).
  { apply (@StronglySorted_merge_sort _ notAfter _ notAfter_trans notAfter_total). }
  assert (Hperm' : sortSlice (result_ st) ≡ₚ statements).
  { unfold sortSlice. by rewrite merge_sort_Permutation. }
  split_and!; [done..|].
  intros out' Hout' Hsorted'.
  apply (StronglySorted_unique_strong notAfter); [|done..|by rewrite Hout', Hperm'].
  intros x1 x2 Hx1 Hx2 H12 H21.
  apply (NoDup_fmap_elem Name statements);
    [done|by rewrite <- Hout'|by rewrite <- Hperm'|].
  by apply notAfter_antisym.
Qed.

(** Statements of distinct names with no cycle among their dependencies are
    accepted: [SortByDependencies] returns a list.  With the refusal of a
    cycle and of a repeated name, this says when it returns one. *)
Theorem SortByDependencies_accepts rangeOrder (statements : list SQLStatement) :
  (∀ l, rangeOrder l ≡ₚ l) →
  NoDup (Name <$> statements) → ¬ cyclic statements →
  ∃ out, SortByDependencies rangeOrder statements = Some (Ok out).
Proof.
  intros Hperm Hnames Hacyclic.
  destruct (kahnLoop_end_found rangeOrder Hperm statements (λ _, False))
    as (st & popped & Hloop & Hq & [Hnd Hin Hdeg _ Hcnt _ _] & Hfound); [done..|].
  unfold SortByDependencies. rewrite Hloop. case_decide as Hcount; [|eauto].
  unfold found in Hfound. rewrite Hq in Hnd, Hin, Hfound. simpl in Hnd, Hin, Hfound.
  exfalso. apply Hacyclic.
  set (U := filter (λ x, x ∉ popped) (nodes statements)).
  assert (Hlen : length (nodes statements) = length statements).
  { assert (nodes statements ≡ₚ names statements) as ->.
    { apply NoDup_Permutation; [apply nodes_nodup|done|]. intros x. apply nodes_names. }
    unfold names. by rewrite length_fmap. }
  assert (HU : U ≠ []).
  { intros Hnil.
    assert (nodes statements ⊆+ popped).
    { apply NoDup_submseteq; [apply nodes_nodup|]. intros x Hx.
      destruct (decide (x ∈ popped)) as [|Hnot]; [done|].
      assert (x ∈ U) as HxU by (by apply list_elem_of_filter).
      rewrite Hnil in HxU. by apply elem_of_nil in HxU. }
    apply submseteq_length in H.
    assert (length popped ≤ length (nodes statements))%nat
      by (by apply submseteq_length, NoDup_submseteq).
    lia. }
  apply (successor_cycle (length U) (dependsOn statements) U); [done..|].
  intros x [Hx HxK]%list_elem_of_filter.
  assert (Hpos : (0 < pending (graph (buildGraph statements)) (nodes statements) popped x)%nat).
  { destruct (decide (pending (graph (buildGraph statements)) (nodes statements) popped x
                      = 0%nat)) as [Hz|]; [|lia].
    exfalso. apply Hx. by apply Hfound. }
  destruct (pending_pos _ _ _ _ Hpos) as (d & Hd & Hdp & Hedge).
  exists d. split; [by apply list_elem_of_filter|].
  by apply buildGraph_sound.
Qed.

Lemma SortByDependencies_accepts_witness :
  (∀ l : list (string * Z), reverse l ≡ₚ l)
  ∧ NoDup (Name <$> [userView; userTable])
  ∧ ¬ cyclic [userView; userTable]
  ∧ ∃ out, SortByDependencies reverse [userView; userTable] = Some (Ok out).
Proof.
  assert (Hperm : ∀ l : list (string * Z), reverse l ≡ₚ l)
    by (intros l; apply reverse_Permutation).
  assert (Hnd : NoDup (Name <$> [userView; userTable])).
  { simpl. apply NoDup_cons. split; [|apply NoDup_singleton].
    intros Hin%list_elem_of_singleton. discriminate. }
  assert (Hacyclic : ¬ cyclic [userView; userTable]).
  { assert (Hstep : ∀ a b, dependsOn [userView; userTable] a b
                           → a = "active_users" ∧ b = "users").
    { intros a b (stmt & Hin & <- & Hdep & _).
      apply elem_of_cons in Hin as [->|Hin].
      - simpl in Hdep. apply list_elem_of_singleton in Hdep as ->. done.
      - apply list_elem_of_singleton in Hin as ->. simpl in Hdep.
        by apply elem_of_nil in Hdep. }
    assert (Htc : ∀ a b, tc (dependsOn [userView; userTable]) a b
                         → a = "active_users" ∧ b = "users").
    { intros a b Htc. induction Htc as [a b Hab|a b c Hab _ [Hb _]]; [by apply Hstep|].
      apply Hstep in Hab as [_ Hb']. congruence. }
    intros [a Ha]. apply Htc in Ha as [-> Heq]. discriminate. }
  split; [exact Hperm|]. split; [exact Hnd|]. split; [exact Hacyclic|].
  exact (SortByDependencies_accepts reverse [userView; userTable] Hperm Hnd Hacyclic).
Defined.

(** ** The check of the names *)

Lemma validateNames_None (seen : gmap string bool) (statements : list SQLStatement) :
  (∀ k b, seen !! k = Some b → b = true) →
  validateNames seen statements = None
  ↔ NoDup (statementKey <$> statements)
    ∧ ∀ k, k ∈ statementKey <$> statements → seen !! k = None.
Proof.
  revert seen. induction statements as [|stmt rest IH]; intros seen Hseen.
  { simpl. split; [intros _; split; [constructor|by intros ? ?%elem_of_nil]|done]. }
  cbn [validateNames]. cbv zeta. fold (statementKey stmt). rewrite fmap_cons, NoDup_cons.
  destruct (seen !! statementKey stmt) as [b|] eqn:Hkey; simpl.
  - rewrite (Hseen _ _ Hkey). split; [done|]. intros [_ Hnone].
    specialize (Hnone (statementKey stmt) ltac:(by left)). congruence.
  - rewrite IH.
    2:{ intros k b. destruct (decide (statementKey stmt = k)) as [<-|Hne].
        - rewrite lookup_insert_eq. by intros [= <-].
        - rewrite lookup_insert_ne by done. apply Hseen. }
    split.
    + intros [Hnd Hnone]. split; [split; [|done]|].
      * intros Hin. specialize (Hnone _ Hin). by rewrite lookup_insert_eq in Hnone.
      * intros k [->|Hin]%elem_of_cons; [done|].
        specialize (Hnone _ Hin).
        destruct (decide (statementKey stmt = k)) as [<-|Hne]; [done|].
        by rewrite lookup_insert_ne in Hnone.
    + intros [[Hfresh Hnd] Hnone]. split; [done|]. intros k Hin.
      rewrite lookup_insert_ne by (intros <-; done).
      apply Hnone. by right.
Qed.

(** [ValidateStatements] accepts exactly the lists in which no two
    statements have the same type and the same name; two statements of one
    name and different types pass. *)
Theorem ValidateStatements_accepts (statements : list SQLStatement) :
  ValidateStatements statements = None ↔ NoDup (statementKey <$> statements).
Proof.
  unfold ValidateStatements. rewrite validateNames_None.
  - split; [by intros [? _]|]. intros Hnd. split; [done|]. intros k _. apply lookup_empty.
  - intros k b. by rewrite lookup_empty.
Qed.

(** Two statements of the kinds the parser leaves unnamed pass the check of
    the names only if they are one; the resolver refuses two of them. *)
Lemma SortByDependencies_two_unnamed :
  ParseFile NewParser ["CREATE DATABASE shop;"; "CREATE USER app;"]
  = Ok [createDatabase; createUser]
  ∧ SortByDependencies (λ l, l) [createDatabase; createUser]
    = Some (Err "检测到循环依赖").
Proof. split; vm_compute; reflexivity. Qed.

Lemma SortByDependencies_duplicate_name_witness :
  (∀ l : list (string * Z), reverse l ≡ₚ l)
  ∧ ¬ NoDup (Name <$> [userTable; {| Type_ := "CREATE_VIEW"; Name := "users";
                                     Statement := "CREATE VIEW users AS SELECT 1";
                                     Dependencies := [] |}])
  ∧ ValidateStatements [userTable; {| Type_ := "CREATE_VIEW"; Name := "users";
                                      Statement := "CREATE VIEW users AS SELECT 1";
                                      Dependencies := [] |}] = None
  ∧ SortByDependencies reverse
      [userTable; {| Type_ := "CREATE_VIEW"; Name := "users";
                     Statement := "CREATE VIEW users AS SELECT 1";
                     Dependencies := [] |}]
    = Some (Err "检测到循环依赖").
Proof.
  assert (Hperm : ∀ l : list (string * Z), reverse l ≡ₚ l)
    by (intros l; apply reverse_Permutation).
  assert (Hdup : ¬ NoDup (Name <$> [userTable;
                                    {| Type_ := "CREATE_VIEW"; Name := "users";
                                       Statement := "CREATE VIEW users AS SELECT 1";
                                       Dependencies := [] |}])).
  { simpl. intros Hnd. apply NoDup_cons in Hnd as [Hnotin _]. apply Hnotin. by left. }
  split; [exact Hperm|]. split; [exact Hdup|]. split; [vm_compute; reflexivity|].
  exact (SortByDependencies_duplicate_name reverse _ Hperm Hdup).
Defined.

Lemma SortByDependencies_by_type_and_name_witness :
  (∀ l : list (string * Z), reverse l ≡ₚ l)
  ∧ SortByDependencies reverse [userView; userTable] = Some (Ok [userTable; userView])
  ∧ NoDup (Name <$> [userView; userTable])
  ∧ [userTable; userView] ≡ₚ [userView; userTable]
  ∧ StronglySorted notAfter [userTable; userView].
Proof.
  assert (Hperm : ∀ l : list (string * Z), reverse l ≡ₚ l)
    by (intros l; apply reverse_Permutation).
  assert (Hrun : SortByDependencies reverse [userView; userTable]
                 = Some (Ok [userTable; userView])) by (vm_compute; reflexivity).
  split; [exact Hperm|]. split; [exact Hrun|].
  destruct (SortByDependencies_by_type_and_name reverse [userView; userTable]
              [userTable; userView] Hperm Hrun) as (Hnd & Hp & Hs & _).
  split; [exact Hnd|]. split; [exact Hp|exact Hs].
Defined.

End resolver_result.

(** * The parser: a statement left open at the end of the file *)

Section parser.
Import types sqlparser sqlparser_spec.


Lemma parseLines_app fs lines tail :
  parseLines fs (lines ++ tail)
  = match parseLines fs lines with
    | Ok fs' => parseLines fs' tail
    | Err e => Err e
    end.
Proof.
  revert fs. induction lines as [|line lines IH]; intros fs; simpl; [done|].
  destruct (Go.scanLine line); [|done].
  destruct (parseLine fs _); [apply IH|done].
Qed.


(** A line that the scanner cannot hold ends the reading: [ParseFile]
    returns the error of the scanner, and the statements completed before
    that line are lost with it. *)
Lemma ParseFile_line_too_long (p : Parser) (lines rest : list string)
    (long : string) (fs : fileState) :
  parseLines (fileStart p) lines = Ok fs →
  Go.MaxScanTokenSize ≤ Z.of_nat (String.length long) →
  ParseFile p (lines ++ long :: rest)
  = Err "读取文件错误: bufio.Scanner: token too long".
Proof.
  intros Hlines Hlong. unfold ParseFile. rewrite parseLines_app, Hlines.
  cbn [parseLines]. unfold Go.scanLine.
  by rewrite (proj2 (Z.leb_le _ _) Hlong).
Qed.




(** ** Comments and literals in a line *)

Lemma bytes_app s t : Go.bytes (String.append s t) = Go.bytes s ++ Go.bytes t.
Proof. unfold Go.bytes. induction s as [|a s IH]; simpl; [done|]. by rewrite IH. Qed.

Lemma str_bytes s : Go.str (Go.bytes s) = s.
Proof. apply string_of_list_ascii_of_string. Qed.

Lemma str_app l k : Go.str (l ++ k) = String.append (Go.str l) (Go.str k).
Proof. unfold Go.str. induction l as [|a l IH]; simpl; [done|]. by rewrite IH. Qed.

(** Outside comments and literals, plain text is copied. *)
Lemma processRunes_plain (text : list ascii) prev st out :
  inMultiLineComment st = false → inString st = false →
  forallb (λ a, negb (existsb (Ascii.eqb a) ["'"; "034"; "`"; "-"; "/"; "*"]%char)) text
  = true →
  ∀ rest, processRunes prev (text ++ rest) st out
          = processRunes (last (option_list prev ++ text)) rest st (out ++ text).
Proof.
  intros Hc Hs. revert prev out.
  induction text as [|r text IH]; intros prev out Hplain rest.
  { rewrite !app_nil_r. simpl. by destruct prev. }
  simpl in Hplain. apply andb_true_iff in Hplain as [Hr Hplain].
  apply negb_true_iff in Hr. simpl in Hr.
  repeat (apply orb_false_iff in Hr as [? Hr]).
  cbn [app processRunes]. rewrite Hc, Hs.
  replace (Ascii.eqb r "'" || Ascii.eqb r "034" || Ascii.eqb r "`") with false
    by (symmetry; repeat (apply orb_false_iff; split); done).
  replace (Ascii.eqb r "-") with false by done.
  replace (Ascii.eqb r "/") with false by done. cbn [andb].
  rewrite IH by done. f_equal.
  - destruct prev; simpl; by rewrite ?last_cons_cons.
  - by rewrite <- (assoc_L (++)).
Qed.

(** Inside a block comment, text without a star is skipped. *)
Lemma processRunes_comment (text : list ascii) prev st out :
  inMultiLineComment st = true →
  forallb (λ a, negb (existsb (Ascii.eqb a) ["*"]%char)) text = true →
  ∀ rest, processRunes prev (text ++ rest) st out
          = processRunes (last (option_list prev ++ text)) rest st out.
Proof.
  intros Hc. revert prev.
  induction text as [|r text IH]; intros prev Hfree rest.
  { rewrite !app_nil_r. simpl. by destruct prev. }
  simpl in Hfree. apply andb_true_iff in Hfree as [Hr Hfree].
  apply negb_true_iff in Hr. simpl in Hr. apply orb_false_iff in Hr as [Hr _].
  cbn [app processRunes]. rewrite Hc, Hr. cbn [andb].
  rewrite IH by done. f_equal.
  destruct prev; simpl; by rewrite ?last_cons_cons.
Qed.

(** Inside a literal in single quotes, text without a quote is copied and
    the literal stays open. *)
Lemma processRunes_literal (text : list ascii) prev st out :
  inMultiLineComment st = false → inString st = true → stringChar st = "'"%char →
  forallb (λ a, negb (existsb (Ascii.eqb a) ["'"]%char)) text = true →
  ∀ rest, processRunes prev (text ++ rest) st out
          = processRunes (last (option_list prev ++ text)) rest st (out ++ text).
Proof.
  intros Hc Hs Hq. revert prev out.
  induction text as [|r text IH]; intros prev out Hfree rest.
  { rewrite !app_nil_r. simpl. by destruct prev. }
  simpl in Hfree. apply andb_true_iff in Hfree as [Hr Hfree].
  apply negb_true_iff in Hr. simpl in Hr. apply orb_false_iff in Hr as [Hr _].
  cbn [app processRunes]. rewrite Hc, Hs, Hq, Hr. cbn [andb].
  rewrite IH by done. f_equal.
  - destruct prev; simpl; by rewrite ?last_cons_cons.
  - by rewrite <- (assoc_L (++)).
Qed.

Lemma processRunes_plain_end (text : list ascii) prev st out :
  inMultiLineComment st = false → inString st = false →
  forallb (λ a, negb (existsb (Ascii.eqb a) ["'"; "034"; "`"; "-"; "/"; "*"]%char)) text
  = true →
  processRunes prev text st out = (out ++ text, st).
Proof.
  intros Hc Hs Hplain.
  pose proof (processRunes_plain text prev st out Hc Hs Hplain []) as Hrun.
  by rewrite app_nil_r in Hrun.
Qed.

Lemma processLine_run (line out : string) (st st' : scanState) :
  processRunes None (Go.bytes line) st [] = (Go.bytes out, st') →
  processLine line st = (Go.TrimSpace out, st').
Proof. intros Hrun. unfold processLine. rewrite Hrun. simpl. by rewrite str_bytes. Qed.

Lemma without_weaken (bad bad' : list ascii) (s : string) :
  (∀ a, a ∈ bad' → a ∈ bad) → without bad s = true → without bad' s = true.
Proof.
  intros Hsub. unfold without. rewrite !forallb_forall. intros Hs a Ha.
  specialize (Hs a Ha). apply negb_true_iff in Hs. apply negb_true_iff.
  destruct (existsb (Ascii.eqb a) bad') eqn:Hex; [|done].
  apply existsb_exists in Hex as (b & Hb & Hab).
  rewrite <- Hs. symmetry. apply existsb_exists. exists b. split; [|done].
  apply list_elem_of_In, Hsub, list_elem_of_In, Hb.
Qed.

Lemma without_last (bad : list ascii) (s : string) (a b : ascii) :
  without bad s = true → b ∈ bad → a ≠ b → last (a :: Go.bytes s) ≠ Some b.
Proof.
  unfold without. intros Hs Hb Ha.
  destruct (Go.bytes s) as [|c l _] using rev_ind; [simpl; congruence|].
  rewrite app_comm_cons, last_snoc. intros [= ->].
  rewrite forallb_app in Hs. apply andb_true_iff in Hs as [_ Hs]. simpl in Hs.
  rewrite andb_true_r in Hs. apply negb_true_iff in Hs.
  assert (existsb (Ascii.eqb b) bad = true); [|congruence].
  apply existsb_exists. exists b. split; [by apply list_elem_of_In|apply Ascii.eqb_refl].
Qed.

Lemma isByte_head_without (bad : list ascii) (s : string) (b : ascii)
    (rest : list ascii) :
  without bad s = true → b ∈ bad → isByte b (head rest) = false →
  isByte b (head (Go.bytes s ++ rest)) = false.
Proof.
  unfold without. intros Hs Hb Hrest.
  destruct (Go.bytes s) as [|a l]; [done|]. simpl in Hs.
  apply andb_true_iff in Hs as [Ha _]. apply negb_true_iff in Ha.
  unfold isByte. simpl. apply Ascii.eqb_neq. intros <-.
  assert (existsb (Ascii.eqb b) bad = true); [|congruence].
  apply existsb_exists. exists b. split; [by apply list_elem_of_In|apply Ascii.eqb_refl].
Qed.

(** What [--] does to a line, for text in ASCII.  After plain text it ends
    the line: the rest is dropped, whatever it is.  Inside a literal in
    single quotes it is text like any other. *)
Theorem processLine_line_comment (pre s post rest : string) :
  asciiText pre = true → plainText pre = true →
  processLine (String.append pre (String.append "--" rest)) scanStart
  = (Go.TrimSpace pre, scanStart)
  ∧ (asciiText s = true → asciiText post = true →
     without ["'"; "\"]%char s = true → plainText post = true →
     processLine (String.append pre (String.append "'" (String.append s
                    (String.append "'" post)))) scanStart
     = (Go.TrimSpace (String.append pre (String.append "'" (String.append s
                        (String.append "'" post)))),
        afterLiteral)).
Proof.
  intros _ Hpre. split.
  - apply processLine_run. rewrite bytes_app.
    rewrite processRunes_plain by done. simpl. done.
  - intros _ _ Hs Hpost. apply processLine_run. rewrite !bytes_app.
    rewrite processRunes_plain by done.
    change (Go.bytes "'") with ["'"%char]. cbn [app processRunes]. simpl.
    rewrite (processRunes_literal (Go.bytes s)); [|done..|].
    2:{ apply (without_weaken ["'"; "\"]%char); [|done].
        intros a ->%list_elem_of_singleton. by left. }
    cbn [app processRunes]. simpl.
    assert (Hprev : isByte "\" (last ("'"%char :: Go.bytes s)) = false).
    { pose proof (without_last ["'"; "\"]%char s "'" "\" Hs) as Hlast.
      destruct (last ("'"%char :: Go.bytes s)) as [c|] eqn:Hc; [|done].
      unfold isByte. apply Ascii.eqb_neq. intros <-.
      apply Hlast; [right; by left|done|done]. }
    rewrite Hprev. cbn [negb].
    rewrite processRunes_plain_end by done.
    f_equal. by rewrite <- !(assoc_L (++)).
Qed.

(** What a block comment does to a line, for text in ASCII around the
    comment.  A comment opened and closed between plain text leaves a slash
    in its place: the loop over the runes looks again at the slash that
    closes the comment.  A line inside a comment that has no star in it is
    skipped, and the comment stays open. *)
Theorem processLine_block_comment (pre c post line : string) :
  (asciiText pre = true → asciiText post = true →
   plainText pre = true → without ["*"; "/"]%char c = true → plainText post = true →
   processLine (String.append pre (String.append "/*" (String.append c
                  (String.append "*/" post)))) scanStart
   = (Go.TrimSpace (String.append pre (String.append "/" post)), scanStart))
  ∧ (without ["*"]%char line = true →
     processLine line inComment = ("", inComment)).
Proof.
  split.
  - intros _ _ Hpre Hc Hpost. apply processLine_run. rewrite !bytes_app.
    rewrite processRunes_plain by done.
    change (Go.bytes "/*") with ["/"; "*"]%char.
    change (Go.bytes "*/") with ["*"; "/"]%char.
    change (Go.bytes "/") with ["/"]%char.
    cbn [app processRunes]. simpl.
    assert (Hhead : isByte "/" (head (Go.bytes c ++ "*"%char :: "/"%char :: Go.bytes post))
                    = false).
    { apply (isByte_head_without ["*"; "/"]%char); [done|right; by left|done]. }
    rewrite Hhead. cbn [andb].
    rewrite (processRunes_comment (Go.bytes c)); [|done|].
    2:{ apply (without_weaken ["*"; "/"]%char); [|done].
        intros a ->%list_elem_of_singleton. by left. }
    cbn [app processRunes]. simpl.
    assert (Hnext : isByte "*" (head (Go.bytes post)) = false).
    { pose proof (isByte_head_without ["'"; "034"; "`"; "-"; "/"; "*"]%char post "*" [])
        as Hhead'.
      rewrite app_nil_r in Hhead'. apply Hhead'; [done| |done].
      do 5 right. by left. }
    rewrite Hnext. cbn [andb].
    rewrite processRunes_plain_end by done.
    f_equal. by rewrite <- !(assoc_L (++)).
  - intros Hline. apply (processLine_run line "").
    pose proof (processRunes_comment (Go.bytes line) None inComment [] eq_refl Hline [])
      as Hrun.
    rewrite app_nil_r in Hrun. rewrite Hrun. done.
Qed.

Lemma processLine_line_comment_witness :
  asciiText "SELECT " = true ∧ plainText "SELECT " = true
  ∧ processLine "SELECT -- 'one' /* two" scanStart = ("SELECT", scanStart)
  ∧ processLine "SELECT 'a--b' ;" scanStart = ("SELECT 'a--b' ;", afterLiteral).
Proof.
  assert (Hpre : plainText "SELECT " = true) by reflexivity.
  destruct (processLine_line_comment "SELECT " "a--b" " ;" " 'one' /* two" eq_refl Hpre)
    as [Hcomment Hliteral].
  split; [reflexivity|]. split; [exact Hpre|]. split; [exact Hcomment|].
  exact (Hliteral eq_refl eq_refl eq_refl eq_refl).
Defined.

Lemma processLine_block_comment_witness :
  processLine "id INT /* key */ NOT NULL" scanStart = ("id INT / NOT NULL", scanStart)
  ∧ processLine "the key -- of the table" inComment = ("", inComment).
Proof.
  destruct (processLine_block_comment "id INT " " key " " NOT NULL"
              "the key -- of the table") as [Hclosed Hopen].
  split; [exact (Hclosed eq_refl eq_refl eq_refl eq_refl eq_refl)|exact (Hopen eq_refl)].
Defined.

(** The slash left by a block comment reaches the statement: after the
    delimiter it keeps the line from ending the statement, which is then
    lost at the end of the file. *)
Lemma ParseFile_comment_after_delimiter :
  ParseFile NewParser ["CREATE TABLE t (id INT);"] = Ok [
    {| Type_ := "CREATE_TABLE"; Name := "t";
       Statement := "CREATE TABLE t (id INT)"; Dependencies := [] |}]
  ∧ ParseFile NewParser ["CREATE TABLE t (id INT); /* users */"] = Ok [].
Proof. split; vm_compute; reflexivity. Qed.

End parser.

(** * The migration runner *)

Section runner_facts.
Import migrator migrator_spec.

Context {U : Type}.
Variable engineExec : string → U → U * result Z.
Variable engineQuery : string → U → result (list (list string)).
Variable driverError : dbCall → Store U → option string.

Abbreviation Up_ := (Migrator_Up engineExec engineQuery driverError).
Abbreviation Down_ := (Migrator_Down engineExec engineQuery driverError).
Abbreviation execute := (executeMigration engineExec engineQuery driverError).
Abbreviation txWrapper := (TxWrapper engineExec engineQuery).
Abbreviation uploop := (upLoop engineExec engineQuery driverError).
Abbreviation downloop := (downLoop engineExec engineQuery driverError).
Abbreviation acquire := (acquireLock driverError).
Abbreviation release := (releaseLock driverError).
Abbreviation applied_ := (getAppliedMigrations driverError).
Abbreviation ordered_ := (getAppliedMigrationsOrdered driverError).



(** ** Bodies run on the transaction wrapper *)

(** A body leaves the runner's tables and the clock alone. *)
Lemma runBody_frame (b : body) (w : Store U) :
  ledger (runBody txWrapper b w).1.1 = ledger w
  ∧ lockTable (runBody txWrapper b w).1.1 = lockTable w
  ∧ now (runBody txWrapper b w).1.1 = now w.
Proof.
  revert w. induction b as [e|q k IH|q k IH|k IH|k IH]; intros w; simpl; [done|..].
  - destruct (IH (engineExec q (user w)).2
                 {| ledger := ledger w; lockTable := lockTable w;
                    user := (engineExec q (user w)).1; now := now w |})
      as (? & ? & ?). done.
  - apply IH.
  - apply IH.
  - apply IH.
Qed.


Lemma runBody_calls (db : DB U) (b : body) (w : Store U) :
  Forall isCall (runBody db b w).2.
Proof.
  revert w. induction b as [e|q k IH|q k IH|k IH|k IH]; intros w; simpl;
    [done|constructor; [done|apply IH]..].
Qed.


Lemma runBody_refusedBegin (b : body) (w : Store U) :
  Forall refusedBegin (runBody txWrapper b w).2.
Proof.
  revert w. induction b as [e|q k IH|q k IH|k IH|k IH]; intros w; simpl;
    [done|constructor; [done|apply IH]..].
Qed.

(** ** [executeMigration] *)

Lemma executeMigration_dry m s migration isUp :
  DryRun m = true → execute m s migration isUp = (s, None, []).
Proof. intros Hdry. unfold executeMigration. by rewrite Hdry. Qed.

(** A call that returns an error leaves the store as it found it: whatever
    the transaction wrote is rolled back. *)
Lemma executeMigration_error m s migration isUp :
  (execute m s migration isUp).1.2 = None
  ∨ (execute m s migration isUp).1.1 = s.
Proof.
  unfold executeMigration. destruct (DryRun m); [by left|].
  destruct (driverError BeginTx s); [by right|]. cbv zeta.
  match goal with |- context [match ?r.2 with _ => _ end] => destruct r.2 end;
    [by right|].
  match goal with |- context [match ?r with Some _ => _ | None => _ end] =>
    destruct r end; [by right|].
  match goal with |- context [match ?r with Some _ => _ | None => _ end] =>
    destruct r end; [by right|by left].
Qed.

Lemma executeMigration_frame m s migration isUp :
  lockTable (execute m s migration isUp).1.1 = lockTable s
  ∧ now (execute m s migration isUp).1.1 = now s.
Proof.
  unfold executeMigration. destruct (DryRun m); [done|].
  destruct (driverError BeginTx s); [done|]. cbv zeta.
  destruct (runBody_frame (if isUp then Up migration else Down migration) s)
    as (Hl & Hk & Hn).
  set (run := runBody txWrapper (if isUp then Up migration else Down migration) s) in *.
  destruct isUp.
  - destruct (run.1.2) as [e|]; unfold recordMigration;
      destruct (driverError RecordExec run.1.1); simpl; try done;
      case_decide; simpl; try done.
    match goal with |- context [match ?r with Some _ => _ | None => _ end] =>
      destruct r end; simpl; rewrite ?Hk, ?Hn; done.
  - unfold removeMigrationRecord.
    destruct (driverError RemoveExec run.1.1); simpl; [done|].
    destruct (run.1.2); simpl; [done|].
    match goal with |- context [match ?r with Some _ => _ | None => _ end] =>
      destruct r end; simpl; rewrite ?Hk, ?Hn; done.
Qed.

(** A forward call that succeeds outside a dry run appends the unit's row,
    marked as a success. *)
Lemma executeMigration_up_success m s migration :
  DryRun m = false →
  (execute m s migration true).1.2 = None →
  ∃ row, ledger (execute m s migration true).1.1 = ledger s ++ [row]
         ∧ record_Version row = Version migration
         ∧ record_Success row = true.
Proof.
  intros Hdry. unfold executeMigration. rewrite Hdry.
  destruct (driverError BeginTx s); [done|]. cbv zeta.
  destruct (runBody_frame (Up migration) s) as (Hl & _ & _).
  set (run := runBody txWrapper (Up migration) s) in *.
  destruct (run.1.2) as [e|] eqn:He; unfold recordMigration;
    destruct (driverError RecordExec run.1.1); simpl; try done;
    case_decide; simpl; try done.
  match goal with |- context [match ?r with Some _ => _ | None => _ end] =>
    destruct r end; simpl; [done|].
  intros _. rewrite Hl. eauto.
Qed.

Lemma executeMigration_log m s migration (isUp : bool) :
  Forall (λ ev, isCall ev ∨ ev = (if isUp then RunUp (Version migration)
                                   else RunDown (Version migration)))
         (execute m s migration isUp).2.
Proof.
  unfold executeMigration. destruct (DryRun m); [done|].
  destruct (driverError BeginTx s); [done|]. cbv zeta.
  assert (Hall : Forall (λ ev, isCall ev ∨ ev = (if isUp then RunUp (Version migration)
                                   else RunDown (Version migration)))
            ((if isUp then RunUp (Version migration) else RunDown (Version migration))
               :: (runBody txWrapper (if isUp then Up migration else Down migration) s).2)).
  { constructor; [by right|].
    eapply Forall_impl; [apply runBody_calls|]. intros ev Hev. by left. }
  repeat match goal with
         | |- context [match ?r with Some _ => _ | None => _ end] => destruct r
         end; done.
Qed.

Lemma executeMigration_refusedBegin m s migration isUp :
  Forall refusedBegin (execute m s migration isUp).2.
Proof.
  unfold executeMigration. destruct (DryRun m); [done|].
  destruct (driverError BeginTx s); [done|]. cbv zeta.
  assert (Hall : Forall refusedBegin
            ((if isUp then RunUp (Version migration) else RunDown (Version migration))
               :: (runBody txWrapper (if isUp then Up migration else Down migration) s).2)).
  { constructor; [by destruct isUp|apply runBody_refusedBegin]. }
  repeat match goal with
         | |- context [match ?r with Some _ => _ | None => _ end] => destruct r
         end; done.
Qed.

(** ** The lock *)





Lemma acquireLock_ok (s s1 : Store U) :
  acquire s = (s1, None) →
  lockFree s ∧ lockHeld s1
  ∧ ledger s1 = ledger s ∧ user s1 = user s ∧ now s1 = now s
  ∧ lockTable s1 = Some {| locked := true; locked_at := Some (now s);
                           locked_by := Some "db-migrator" |}.
Proof.
  unfold acquireLock. destruct (driverError AcquireExec s); [done|].
  destruct (lockTable s) as [row|] eqn:Hrow; [|done].
  destruct (locked row) eqn:Hl; [done|]. intros [= <-].
  split; [by exists row|]. split; [by eexists|]. done.
Qed.

Lemma releaseLock_frame (s : Store U) :
  ledger (release s).1 = ledger s ∧ user (release s).1 = user s
  ∧ now (release s).1 = now s.
Proof. unfold releaseLock. by destruct (driverError ReleaseExec s). Qed.


(** ** The versions read as applied *)

Lemma foldl_insert_lookup (l : list MigrationRecord)
  (acc : gmap string MigrationRecord) (v : string) :
  is_Some (foldl (λ acc r, <[record_Version r := r]> acc) acc l !! v)
  ↔ v ∈ record_Version <$> l ∨ is_Some (acc !! v).
Proof.
  revert acc. induction l as [|r l IH]; intros acc; simpl.
  - rewrite elem_of_nil. naive_solver.
  - rewrite IH, elem_of_cons. destruct (decide (record_Version r = v)) as [->|Hne].
    + rewrite lookup_insert_eq. naive_solver.
    + rewrite lookup_insert_ne by done. naive_solver.
Qed.

Lemma getAppliedMigrations_lookup (s : Store U) applied v :
  applied_ s = Ok applied →
  is_Some (applied !! v) ↔ v ∈ appliedVersions (ledger s).
Proof.
  unfold getAppliedMigrations, appliedVersions.
  destruct (driverError AppliedQuery s); [done|]. intros [= <-].
  rewrite foldl_insert_lookup.
  rewrite lookup_empty. split; [intros [?|[? ?]]; done|by left].
Qed.

Lemma appliedVersions_app l k :
  appliedVersions (l ++ k) = appliedVersions l ++ appliedVersions k.
Proof. unfold appliedVersions. by rewrite filter_app, fmap_app. Qed.

(** ** The loop of [Up] *)

Lemma upLoop_frame m applied pending s :
  lockTable (uploop m applied pending s).1.1 = lockTable s
  ∧ now (uploop m applied pending s).1.1 = now s.
Proof.
  revert s. induction pending as [|migration rest IH]; intros s; simpl; [done|].
  destruct (applied !! Version migration); [apply IH|].
  destruct (executeMigration_frame m s migration true) as [Hk Hn].
  destruct ((execute m s migration true).1.2); simpl; [done|].
  destruct (IH (execute m s migration true).1.1) as [Hk' Hn'].
  by rewrite Hk', Hn'.
Qed.

Lemma upLoop_dry m applied pending s :
  DryRun m = true → uploop m applied pending s = (s, None, []).
Proof.
  intros Hdry. induction pending as [|migration rest IH]; simpl; [done|].
  destruct (applied !! Version migration); [done|].
  rewrite executeMigration_dry by done. simpl. by rewrite IH.
Qed.

(** Units whose versions are all read as applied: nothing runs. *)
Lemma upLoop_skip m applied pending s :
  (∀ migration, migration ∈ pending → is_Some (applied !! Version migration)) →
  uploop m applied pending s = (s, None, []).
Proof.
  induction pending as [|migration rest IH]; intros Hall; simpl; [done|].
  destruct (Hall migration) as [r ->]; [by left|].
  apply IH. intros. apply Hall. by right.
Qed.

(** After a loop that returns no error, outside a dry run, every unit of the
    list is in the ledger as applied. *)
Lemma upLoop_success m applied pending s :
  DryRun m = false →
  (∀ v, is_Some (applied !! v) → v ∈ appliedVersions (ledger s)) →
  (uploop m applied pending s).1.2 = None →
  (∀ v, v ∈ appliedVersions (ledger s) →
        v ∈ appliedVersions (ledger (uploop m applied pending s).1.1))
  ∧ (∀ migration, migration ∈ pending →
        Version migration ∈ appliedVersions (ledger (uploop m applied pending s).1.1)).
Proof.
  intros Hdry. revert s.
  induction pending as [|migration rest IH]; intros s Happlied; simpl.
  { intros _. split; [done|]. intros ? []%elem_of_nil. }
  destruct (applied !! Version migration) as [r|] eqn:Hv.
  - intros Hok. destruct (IH s Happlied Hok) as [Hgrow Hrest].
    split; [done|]. intros mig [->|Hin]%elem_of_cons; [|by apply Hrest].
    apply Hgrow, Happlied. by rewrite Hv.
  - pose proof (executeMigration_up_success m s migration Hdry) as Hexec.
    destruct ((execute m s migration true).1.2) as [e|] eqn:He; simpl; [done|].
    destruct (Hexec eq_refl) as (row & Hledger & Hrowv & Hrows).
    assert (Hgrow1 : ∀ v, v ∈ appliedVersions (ledger s) →
                          v ∈ appliedVersions (ledger (execute m s migration true).1.1)).
    { intros v Hin. rewrite Hledger, appliedVersions_app. set_solver. }
    intros Hok.
    destruct (IH (execute m s migration true).1.1) as [Hgrow Hrest].
    { intros v Hin. by apply Hgrow1, Happlied. }
    { done. }
    split; [intros v Hin; by apply Hgrow, Hgrow1|].
    intros mig [->|Hin]%elem_of_cons; [|by apply Hrest].
    apply Hgrow. rewrite Hledger, appliedVersions_app.
    apply elem_of_app. right. unfold appliedVersions.
    rewrite filter_cons, decide_True by done. simpl. rewrite Hrowv. by left.
Qed.

(** A unit whose version is read as applied is never started. *)
Lemma upLoop_log m applied pending s :
  Forall (λ ev, isCall ev ∨ ∃ v, ev = RunUp v ∧ applied !! v = None)
         (uploop m applied pending s).2.
Proof.
  revert s. induction pending as [|migration rest IH]; intros s; simpl; [done|].
  destruct (applied !! Version migration) eqn:Hv; [apply IH|].
  assert (Hexec : Forall (λ ev, isCall ev ∨ ∃ v, ev = RunUp v ∧ applied !! v = None)
                    (execute m s migration true).2).
  { eapply Forall_impl; [apply executeMigration_log|]. simpl.
    intros ev [?| ->]; [by left|right; eauto]. }
  destruct ((execute m s migration true).1.2); simpl; [done|].
  apply Forall_app. split; [done|apply IH].
Qed.

Lemma upLoop_refusedBegin m applied pending s :
  Forall refusedBegin (uploop m applied pending s).2.
Proof.
  revert s. induction pending as [|migration rest IH]; intros s; simpl; [done|].
  destruct (applied !! Version migration); [apply IH|].
  pose proof (executeMigration_refusedBegin m s migration true).
  destruct ((execute m s migration true).1.2); simpl; [done|].
  apply Forall_app. split; [done|apply IH].
Qed.


Lemma downLoop_refusedBegin m byVersion records s :
  Forall refusedBegin (downloop m byVersion records s).2.
Proof.
  revert s. induction records as [|record rest IH]; intros s; simpl; [done|].
  destruct (byVersion !! record_Version record) as [migration|]; [|apply IH].
  pose proof (executeMigration_refusedBegin m s migration false).
  destruct ((execute m s migration false).1.2); simpl; [done|].
  apply Forall_app. split; [done|apply IH].
Qed.

(** ** [Up] and [Down] *)

Lemma Store_eq (a b : Store U) :
  ledger a = ledger b → lockTable a = lockTable b → user a = user b →
  now a = now b → a = b.
Proof. destruct a, b. simpl. by intros -> -> -> ->. Qed.

Lemma elem_of_sortMigrations migration ms :
  migration ∈ sortMigrations ms ↔ migration ∈ ms.
Proof. unfold sortMigrations. by rewrite merge_sort_Permutation. Qed.

(** C3. After an [Up] that returned no error, a second [Up] on the store and
    migrator it left starts no unit and makes no call, and leaves the ledger
    and the user tables as they were; if the driver refuses none of its
    statements it returns no error and leaves the whole store as it was.  In
    any [Up], a unit whose version the ledger records as applied with
    success is not started. *)
Theorem Up_twice_noop (m : Migrator) (s : Store U) :
  (err (Up_ m s) = None →
   log (Up_ (migrator' (Up_ m s)) (store' (Up_ m s))) = []
   ∧ ledger (store' (Up_ (migrator' (Up_ m s)) (store' (Up_ m s))))
     = ledger (store' (Up_ m s))
   ∧ user (store' (Up_ (migrator' (Up_ m s)) (store' (Up_ m s))))
     = user (store' (Up_ m s))
   ∧ ((∀ c s', driverError c s' = None) →
      Up_ (migrator' (Up_ m s)) (store' (Up_ m s))
      = {| migrator' := {| DryRun := DryRun m;
                           migrations := sortMigrations (sortMigrations (migrations m)) |};
           store' := store' (Up_ m s); err := None; log := [] |}))
  ∧ (∀ v, v ∈ appliedVersions (ledger s) → RunUp v ∉ log (Up_ m s)).
Proof.
  split.
  - destruct (acquire s) as [s1 [e|]] eqn:Hacq.
    { unfold Migrator_Up. by rewrite Hacq. }
    destruct (acquireLock_ok s s1 Hacq) as (_ & _ & Hl1 & Hu1 & Hn1 & Hk1).
    set (m1 := {| DryRun := DryRun m; migrations := sortMigrations (migrations m) |}).
    destruct (applied_ s1) as [applied|e] eqn:Happ; cycle 1.
    { unfold Migrator_Up. by rewrite Hacq, Happ. }
    set (r := uploop m1 applied (sortMigrations (migrations m)) s1).
    assert (Hup : Up_ m s = {| migrator' := m1; store' := (release r.1.1).1;
                               err := r.1.2; log := r.2 |}).
    { unfold Migrator_Up. by rewrite Hacq, Happ. }
    rewrite Hup. simpl. intros Hok.
    set (m2 := {| DryRun := DryRun m;
                  migrations := sortMigrations (sortMigrations (migrations m)) |}).
    destruct (releaseLock_frame r.1.1) as (Hlr & Hur & Hnr).
    set (sR := (release r.1.1).1) in *.
    (* the second run does nothing once it has the lock *)
    assert (Hnoop : ∀ s2 applied2,
              acquire sR = (s2, None) → applied_ s2 = Ok applied2 →
              uploop m2 applied2 (sortMigrations (sortMigrations (migrations m))) s2
              = (s2, None, [])).
    { intros s2 applied2 Hacq2 Happ2.
      destruct (DryRun m) eqn:Hdry; [by apply upLoop_dry|].
      destruct (acquireLock_ok sR s2 Hacq2) as (_ & _ & Hl2 & _).
      apply upLoop_skip. intros migration Hin. rewrite !elem_of_sortMigrations in Hin.
      apply (getAppliedMigrations_lookup s2 applied2 _ Happ2).
      rewrite Hl2, Hlr.
      destruct (upLoop_success m1 applied (sortMigrations (migrations m)) s1)
        as [_ Hall]; [done| |done|].
      - intros v. by apply getAppliedMigrations_lookup.
      - apply Hall. by rewrite elem_of_sortMigrations. }
    assert (Hsecond : ∀ s2, acquire sR = (s2, None) →
              Up_ m1 sR
              = match applied_ s2 with
                | Err e => {| migrator' := m2; store' := (release s2).1;
                              err := Some (String.append "获取已执行迁移失败: " e);
                              log := [] |}
                | Ok _ => {| migrator' := m2; store' := (release s2).1;
                             err := None; log := [] |}
                end).
    { intros s2 Hacq2. unfold Migrator_Up. rewrite Hacq2. cbv zeta. simpl.
      fold m2. destruct (applied_ s2) as [applied2|e] eqn:Happ2; [|done].
      by rewrite (Hnoop s2 applied2 Hacq2 Happ2). }
    destruct (acquire sR) as [s2 [e|]] eqn:Hacq2.
    { assert (Hfail : Up_ m1 sR
                      = {| migrator' := m1; store' := sR;
                           err := Some (String.append "获取迁移锁失败: " e); log := [] |}).
      { unfold Migrator_Up. by rewrite Hacq2. }
      rewrite Hfail. simpl. split_and!; try done.
      intros Hrel. exfalso. revert Hacq2. unfold acquireLock. rewrite Hrel.
      unfold sR, releaseLock. rewrite Hrel. simpl.
      destruct (upLoop_frame m1 applied (sortMigrations (migrations m)) s1) as [Hk _].
      fold r in Hk. rewrite Hk, Hk1. done. }
    rewrite (Hsecond s2 eq_refl).
    destruct (acquireLock_ok sR s2 Hacq2) as (_ & _ & Hl2 & Hu2 & Hn2 & Hk2).
    destruct (releaseLock_frame s2) as (Hl3 & Hu3 & Hn3).
    assert (Hstore : ledger (release s2).1 = ledger sR ∧ user (release s2).1 = user sR).
    { by rewrite Hl3, Hu3, Hl2, Hu2. }
    split_and!.
    + by destruct (applied_ s2).
    + destruct (applied_ s2); simpl; apply Hstore.
    + destruct (applied_ s2); simpl; apply Hstore.
    + intros Hrel. unfold getAppliedMigrations at 1. rewrite Hrel. f_equal.
      apply Store_eq; [apply Hstore| |apply Hstore|by rewrite Hn3, Hn2].
      unfold releaseLock at 1. rewrite Hrel. simpl. rewrite Hk2.
      unfold sR, releaseLock. rewrite Hrel. simpl.
      destruct (upLoop_frame m1 applied (sortMigrations (migrations m)) s1) as [Hk _].
      fold r in Hk. by rewrite Hk, Hk1.
  - intros v Hv Hin. unfold Migrator_Up in Hin.
    destruct (acquire s) as [s1 [e|]] eqn:Hacq; simpl in Hin.
    { by apply elem_of_nil in Hin. }
    destruct (acquireLock_ok s s1 Hacq) as (_ & _ & Hl1 & _).
    destruct (applied_ s1) as [applied|e] eqn:Happ; simpl in Hin; cycle 1.
    { by apply elem_of_nil in Hin. }
    pose proof (upLoop_log
      {| DryRun := DryRun m; migrations := sortMigrations (migrations m) |}
      applied (sortMigrations (migrations m)) s1) as Hlog.
    rewrite Forall_forall in Hlog. destruct (Hlog _ Hin) as [[]|(v' & [= <-] & Hnone)].
    assert (is_Some (applied !! v)) as [r Hr].
    { apply (getAppliedMigrations_lookup s1 applied v Happ). by rewrite Hl1. }
    congruence.
Qed.

(** Whatever a call of [executeMigration] that returns an error wrote in its
    transaction is rolled back, the row that records the failure included:
    the store, the ledger with it, is as before the call.  The loop of [Up]
    returns the error and starts no later unit. *)
Lemma executeMigration_failure_leaves_no_row (m : Migrator) (s : Store U)
  (migration : Migration) (rest : list Migration)
  (applied : gmap string MigrationRecord) :
  ((execute m s migration true).1.2 = None
   ∨ ledger (execute m s migration true).1.1 = ledger s)
  ∧ (∀ e, applied !! Version migration = None →
          (execute m s migration true).1.2 = Some e →
          uploop m applied (migration :: rest) s
          = (s, Some (String.append "执行迁移 "
                        (String.append (Version migration) (String.append " 失败: " e))),
             (execute m s migration true).2)).
Proof.
  split.
  - destruct (executeMigration_error m s migration true) as [?|Hs]; [by left|right; by rewrite Hs].
  - intros e Hv He. simpl. rewrite Hv, He.
    destruct (executeMigration_error m s migration true) as [?|Hs]; [congruence|by rewrite Hs].
Qed.


(** C10. [Begin] on the transaction wrapper never succeeds, and the wrapper
    is the [types.DB] a body gets: every [Begin] a body makes while
    [executeMigration], [Up] or [Down] runs it is refused with the wrapper's
    error, and the store is not touched by the attempt. *)
Theorem TxWrapper_Begin_refused (m : Migrator) (s : Store U)
  (migration : Migration) (isUp : bool) (steps : Z) :
  db_Begin txWrapper s = (s, Err "在事务中不能开始新事务")
  ∧ Forall refusedBegin (execute m s migration isUp).2
  ∧ Forall refusedBegin (log (Up_ m s))
  ∧ Forall refusedBegin (log (Down_ m steps s)).
Proof.
  split_and!.
  - done.
  - apply executeMigration_refusedBegin.
  - unfold Migrator_Up. destruct (acquire s) as [s1 [e|]]; simpl; [done|].
    destruct (applied_ s1); simpl; [|done].
    apply upLoop_refusedBegin.
  - unfold Migrator_Down. case_decide; [done|].
    destruct (acquire s) as [s1 [e|]]; simpl; [done|].
    destruct (ordered_ s1); simpl; [|done].
    case_decide; simpl; [done|]. apply downLoop_refusedBegin.
Qed.

(** ** The order of the versions *)

Lemma versionLe_trans : Transitive versionLe.
Proof. intros a b c. unfold versionLe. apply ltb_false_trans. Qed.

Lemma versionLe_total : Total versionLe.
Proof. intros a b. unfold versionLe. apply ltb_false_total. Qed.

Lemma versionOrder_trans : Transitive versionOrder.
Proof. intros a b c. unfold versionOrder. apply versionLe_trans. Qed.

Lemma versionOrder_total : Total versionOrder.
Proof. intros a b. unfold versionOrder. apply versionLe_total. Qed.

(** The registered versions, as [sortMigrations] leaves them, ascend. *)
Lemma sortMigrations_sorted ms :
  StronglySorted versionLe (Version <$> sortMigrations ms).
Proof.
  apply (StronglySorted_fmap _ versionOrder versionLe); [done|].
  unfold sortMigrations.
  apply (@StronglySorted_merge_sort _ versionOrder _ versionOrder_trans versionOrder_total).
Qed.

(** ** The units a run starts *)

Lemma upVersions_calls (l : list event) : Forall isCall l → upVersions l = [].
Proof.
  induction 1 as [|ev l Hev _ IH]; [done|]. unfold upVersions in *. simpl.
  destruct ev; simpl in *; done.
Qed.

Lemma downVersions_calls (l : list event) : Forall isCall l → downVersions l = [].
Proof.
  induction 1 as [|ev l Hev _ IH]; [done|]. unfold downVersions in *. simpl.
  destruct ev; simpl in *; done.
Qed.

Lemma upVersions_app l k : upVersions (l ++ k) = upVersions l ++ upVersions k.
Proof. apply omap_app. Qed.

Lemma downVersions_app l k : downVersions (l ++ k) = downVersions l ++ downVersions k.
Proof. apply omap_app. Qed.

(** The events of one call of [executeMigration]: none in a dry run or when
    the transaction cannot be opened, the start of the unit and the calls of
    its body otherwise. *)
Lemma executeMigration_events m s migration (isUp : bool) :
  (execute m s migration isUp).2 = []
  ∨ (DryRun m = false
     ∧ ∃ calls, Forall isCall calls
        ∧ (execute m s migration isUp).2
          = (if isUp then RunUp (Version migration) else RunDown (Version migration))
              :: calls).
Proof.
  unfold executeMigration. destruct (DryRun m); [by left|].
  destruct (driverError BeginTx s); [by left|]. cbv zeta. right. split; [done|].
  exists (runBody txWrapper (if isUp then Up migration else Down migration) s).2.
  split; [apply runBody_calls|].
  repeat match goal with
         | |- context [match ?r with Some _ => _ | None => _ end] => destruct r
         end; done.
Qed.

Lemma executeMigration_upVersions m s migration :
  sublist (upVersions (execute m s migration true).2) [Version migration].
Proof.
  destruct (executeMigration_events m s migration true) as [->|(_ & calls & Hcalls & ->)].
  - apply sublist_nil_l.
  - unfold upVersions. simpl. fold (upVersions calls).
    by rewrite upVersions_calls.
Qed.

Lemma upLoop_upVersions m applied pending s :
  sublist (upVersions (uploop m applied pending s).2) (Version <$> pending).
Proof.
  revert s. induction pending as [|migration rest IH]; intros s; simpl; [done|].
  destruct (applied !! Version migration); [apply sublist_cons, IH|].
  pose proof (executeMigration_upVersions m s migration) as Hexec.
  destruct ((execute m s migration true).1.2); simpl.
  - exact (sublist_inserts_r (Version <$> rest) _ _ Hexec).
  - rewrite upVersions_app. exact (sublist_app _ _ _ _ Hexec (IH _)).
Qed.

(** ** What a forward run writes *)

(** A call of [executeMigration] for a forward unit leaves the ledger as it
    was, or appends the row of the unit, whose version the ledger did not
    have. *)
Lemma executeMigration_up_ledger m s migration :
  ledger (execute m s migration true).1.1 = ledger s
  ∨ ((execute m s migration true).1.2 = None
     ∧ (Version migration ∉ (record_Version <$> ledger s))
     ∧ ledger (execute m s migration true).1.1
       = ledger s ++ [successRow migration (now s)]).
Proof.
  unfold executeMigration. destruct (DryRun m); [by left|].
  destruct (driverError BeginTx s); [by left|]. cbv zeta.
  destruct (runBody_frame (Up migration) s) as (Hl & _ & Hn).
  set (run := runBody txWrapper (Up migration) s) in *.
  destruct (run.1.2) as [e|] eqn:He; unfold recordMigration;
    destruct (driverError RecordExec run.1.1); simpl; try (by left);
    case_decide as Hdup; simpl; try (by left).
  match goal with |- context [match ?r with Some _ => _ | None => _ end] =>
    destruct r end; simpl; [by left|].
  right. rewrite Hl in Hdup. rewrite Hl, Hn. done.
Qed.

(** The rows that the loop of [Up] appends: one for each unit that ran to
    its commit, with the success flag set.  A unit whose body fails, whose
    INSERT the server refuses (a version the table has: the version is the
    primary key) or whose commit fails leaves the ledger as it was, for the
    deferred rollback; the loop returns there. *)
Lemma upLoop_ledger m applied pending s :
  ∃ new, ledger (uploop m applied pending s).1.1 = ledger s ++ new
         ∧ Forall (λ r, (∃ migration, migration ∈ pending
                                      ∧ r = successRow migration (now s))
                        ∧ record_Version r ∉ (record_Version <$> ledger s)) new.
Proof.
  revert s. induction pending as [|migration rest IH]; intros s; simpl.
  { exists []. by rewrite app_nil_r. }
  destruct (applied !! Version migration).
  { destruct (IH s) as (new & Hnew & Hall). exists new. split; [done|].
    eapply Forall_impl; [exact Hall|]. simpl.
    intros r [(mig & Hin & ->) Hfresh]. split; [|done]. exists mig. split; [by right|done]. }
  destruct (executeMigration_frame m s migration true) as [_ Hnow].
  destruct (executeMigration_up_ledger m s migration) as [Hsame|(Hok & Hfresh & Hrow)].
  - destruct ((execute m s migration true).1.2); simpl.
    { exists []. by rewrite app_nil_r. }
    destruct (IH (execute m s migration true).1.1) as (new & Hnew & Hall).
    exists new. rewrite Hnew, Hsame. split; [done|].
    eapply Forall_impl; [exact Hall|]. simpl.
    intros r [(mig & Hin & ->) Hfresh]. rewrite Hnow, Hsame in *.
    split; [|done]. exists mig. split; [by right|done].
  - rewrite Hok. simpl.
    destruct (IH (execute m s migration true).1.1) as (new & Hnew & Hall).
    exists (successRow migration (now s) :: new).
    rewrite Hnew, Hrow, <- app_assoc. split; [done|].
    constructor.
    + split; [|done]. exists migration. split; [by left|done].
    + eapply Forall_impl; [exact Hall|]. simpl.
      intros r [(mig & Hin & ->) Hfresh']. rewrite Hnow, Hrow in *.
      split; [exists mig; split; [by right|done]|].
      rewrite fmap_app in Hfresh'. set_solver.
Qed.

(** What [Up] leaves of the store it was given, in each of its ways out. *)
Lemma Up_cases m s :
  (Up_ m s).(store') = s ∧ log (Up_ m s) = [] ∧ is_Some (err (Up_ m s))
  ∨ ∃ s1, acquire s = (s1, None)
     ∧ ((∃ e, applied_ s1 = Err e ∧ store' (Up_ m s) = (release s1).1
              ∧ log (Up_ m s) = [] ∧ is_Some (err (Up_ m s)))
        ∨ ∃ applied, applied_ s1 = Ok applied
           ∧ Up_ m s
             = {| migrator' := {| DryRun := DryRun m;
                                  migrations := sortMigrations (migrations m) |};
                  store' := (release (uploop
                       {| DryRun := DryRun m; migrations := sortMigrations (migrations m) |}
                       applied (sortMigrations (migrations m)) s1).1.1).1;
                  err := (uploop
                       {| DryRun := DryRun m; migrations := sortMigrations (migrations m) |}
                       applied (sortMigrations (migrations m)) s1).1.2;
                  log := (uploop
                       {| DryRun := DryRun m; migrations := sortMigrations (migrations m) |}
                       applied (sortMigrations (migrations m)) s1).2 |}).
Proof.
  unfold Migrator_Up. destruct (acquire s) as [s1 [e|]] eqn:Hacq.
  { left. simpl. eauto. }
  right. exists s1. split; [done|].
  destruct (applied_ s1) as [applied|e]; [right|left]; simpl; eauto 10.
Qed.

(** An [Up] that returns no error has taken the lock, read the applied
    versions and gone through its loop. *)
Lemma Up_success_loop m s :
  err (Up_ m s) = None →
  ∃ s1 applied,
    acquire s = (s1, None) ∧ applied_ s1 = Ok applied
    ∧ Up_ m s
      = {| migrator' := {| DryRun := DryRun m;
                           migrations := sortMigrations (migrations m) |};
           store' := (release (uploop
                {| DryRun := DryRun m; migrations := sortMigrations (migrations m) |}
                applied (sortMigrations (migrations m)) s1).1.1).1;
           err := None;
           log := (uploop
                {| DryRun := DryRun m; migrations := sortMigrations (migrations m) |}
                applied (sortMigrations (migrations m)) s1).2 |}
    ∧ (uploop {| DryRun := DryRun m; migrations := sortMigrations (migrations m) |}
         applied (sortMigrations (migrations m)) s1).1.2 = None.
Proof.
  intros Hok.
  destruct (Up_cases m s) as [(_ & _ & Herr)|(s1 & Hacq & [(e & _ & _ & _ & Herr)|(applied & Happ & Hup)])];
    [rewrite Hok in Herr; by destruct Herr..|].
  exists s1, applied. rewrite Hup in Hok. simpl in Hok.
  split_and!; [done..| |done]. by rewrite Hup, Hok.
Qed.

(** After an [Up] that returns no error, outside a dry run, every registered
    unit is recorded in the ledger as applied with success. *)
Theorem Up_applies_all (m : Migrator) (s : Store U) (v : string) :
  DryRun m = false → err (Up_ m s) = None →
  v ∈ registered m → v ∈ appliedVersions (ledger (store' (Up_ m s))).
Proof.
  intros Hdry Hok Hv.
  destruct (Up_success_loop m s Hok) as (s1 & applied & Hacq & Happ & -> & Hloop).
  simpl.
  match goal with |- context [release ?x] => destruct (releaseLock_frame x) as (-> & _) end.
  apply list_elem_of_fmap in Hv as (migration & -> & Hin).
  destruct (upLoop_success
    {| DryRun := DryRun m; migrations := sortMigrations (migrations m) |}
    applied (sortMigrations (migrations m)) s1) as [_ Hall]; [done| |done|].
  - intros v. by apply getAppliedMigrations_lookup.
  - apply Hall. by apply elem_of_sortMigrations.
Qed.

(** Whatever it returns, [Up] only appends to the ledger: the rows it found
    stay as they were, in their order, and each new row records the success
    of a registered unit whose version the ledger did not have.  No row
    records a failure: the INSERT of a failed unit is rolled back with its
    transaction.  The statements of a unit act on the user tables, as
    [TxWrapper] has them. *)
Theorem Up_appends_success_rows (m : Migrator) (s : Store U) :
  ∃ new, ledger (store' (Up_ m s)) = ledger s ++ new
         ∧ Forall (λ r, record_Success r = true ∧ record_ErrorMsg r = ""
                        ∧ record_Version r ∈ registered m
                        ∧ record_Version r ∉ (record_Version <$> ledger s)) new.
Proof.
  destruct (Up_cases m s) as [(-> & _)|(s1 & Hacq & Hcases)].
  { exists []. by rewrite app_nil_r. }
  destruct (acquireLock_ok s s1 Hacq) as (_ & _ & Hl1 & _ & Hn1 & _).
  destruct Hcases as [(e & _ & -> & _)|(applied & Happ & ->)]; simpl.
  { destruct (releaseLock_frame s1) as (-> & _). exists []. by rewrite app_nil_r, Hl1. }
  match goal with |- context [release ?x] => destruct (releaseLock_frame x) as (-> & _) end.
  destruct (upLoop_ledger
    {| DryRun := DryRun m; migrations := sortMigrations (migrations m) |}
    applied (sortMigrations (migrations m)) s1) as (new & -> & Hall).
  exists new. rewrite Hl1. split; [done|].
  eapply Forall_impl; [exact Hall|]. simpl.
  intros r [(mig & Hin & ->) Hfresh]. rewrite Hl1 in Hfresh. simpl in *.
  split_and!; try done.
  apply list_elem_of_fmap. exists mig. split; [done|]. by apply elem_of_sortMigrations.
Qed.

(** [Up] starts the units in the ascending order of their versions, bytewise,
    whatever the order of their registration, and each registration at most
    once. *)
Theorem Up_ascending (m : Migrator) (s : Store U) :
  StronglySorted versionLe (upVersions (log (Up_ m s)))
  ∧ sublist (upVersions (log (Up_ m s))) (Version <$> sortMigrations (migrations m))
  ∧ Version <$> sortMigrations (migrations m) ≡ₚ registered m.
Proof.
  assert (Hsub : sublist (upVersions (log (Up_ m s)))
                   (Version <$> sortMigrations (migrations m))).
  { destruct (Up_cases m s) as [(_ & -> & _)|(s1 & _ & [(e & _ & _ & -> & _)|(applied & _ & ->)])];
      [apply sublist_nil_l..|].
    simpl. apply upLoop_upVersions. }
  split_and!; [|done|].
  - eapply StronglySorted_sublist; [exact Hsub|apply sortMigrations_sorted].
  - unfold registered, sortMigrations. by rewrite merge_sort_Permutation.
Qed.

(** ** Dry runs *)

Lemma downLoop_dry m byVersion records s :
  DryRun m = true → downloop m byVersion records s = (s, None, []).
Proof.
  intros Hdry. induction records as [|record rest IH]; simpl; [done|].
  destruct (byVersion !! record_Version record); [|done].
  rewrite executeMigration_dry by done. simpl. by rewrite IH.
Qed.

(** In a dry run [Up] and [Down] start no unit and leave the ledger and the
    user tables as they found them; what they touch is the lock. *)
Theorem dry_run_starts_nothing (m : Migrator) (steps : Z) (s : Store U) :
  DryRun m = true →
  (log (Up_ m s) = [] ∧ ledger (store' (Up_ m s)) = ledger s
   ∧ user (store' (Up_ m s)) = user s)
  ∧ (log (Down_ m steps s) = [] ∧ ledger (store' (Down_ m steps s)) = ledger s
     ∧ user (store' (Down_ m steps s)) = user s).
Proof.
  intros Hdry. split.
  - unfold Migrator_Up. destruct (acquire s) as [s1 [e|]] eqn:Hacq; [done|].
    destruct (acquireLock_ok s s1 Hacq) as (_ & _ & Hl1 & Hu1 & _).
    destruct (releaseLock_frame s1) as (Hl & Hu & _).
    destruct (applied_ s1) as [applied|e]; simpl; [|by rewrite Hl, Hu].
    rewrite upLoop_dry by done. simpl. by rewrite Hl, Hu.
  - unfold Migrator_Down. case_decide; [done|].
    destruct (acquire s) as [s1 [e|]] eqn:Hacq; [done|].
    destruct (acquireLock_ok s s1 Hacq) as (_ & _ & Hl1 & Hu1 & _).
    destruct (releaseLock_frame s1) as (Hl & Hu & _).
    destruct (ordered_ s1) as [records|e]; simpl; [|by rewrite Hl, Hu].
    case_decide; simpl; [by rewrite Hl, Hu|].
    rewrite downLoop_dry by done. simpl. by rewrite Hl, Hu.
Qed.

(** ** What a backward run removes *)

Lemma foldl_migrationMap_lookup (ms : list Migration) (acc : gmap string Migration)
  (v : string) (migration : Migration) :
  foldl (λ acc migration, <[Version migration := migration]> acc) acc ms !! v
  = Some migration →
  (Version migration = v ∧ migration ∈ ms) ∨ acc !! v = Some migration.
Proof.
  revert acc. induction ms as [|x ms IH]; intros acc; simpl; [by right|].
  intros [[Hv Hin]|Hacc]%IH.
  - left. split; [done|by right].
  - destruct (decide (Version x = v)) as [Heq|Hne].
    + rewrite Heq, lookup_insert_eq in Hacc. injection Hacc as <-.
      left. split; [done|by left].
    + rewrite lookup_insert_ne in Hacc by done. by right.
Qed.

Lemma foldl_migrationMap_is_Some (ms : list Migration) (acc : gmap string Migration)
  (v : string) :
  is_Some (foldl (λ acc migration, <[Version migration := migration]> acc) acc ms !! v)
  ↔ v ∈ Version <$> ms ∨ is_Some (acc !! v).
Proof.
  revert acc. induction ms as [|x ms IH]; intros acc; simpl.
  - rewrite elem_of_nil. naive_solver.
  - rewrite IH, elem_of_cons. destruct (decide (Version x = v)) as [->|Hne].
    + rewrite lookup_insert_eq. naive_solver.
    + rewrite lookup_insert_ne by done. naive_solver.
Qed.

(** The map of [Down] finds a unit under its own version, and finds one for
    exactly the registered versions. *)
Lemma migrationMap_lookup ms v migration :
  migrationMap ms !! v = Some migration → Version migration = v ∧ migration ∈ ms.
Proof.
  intros [?|Hempty]%foldl_migrationMap_lookup; [done|].
  by rewrite lookup_empty in Hempty.
Qed.

Lemma migrationMap_is_Some ms v :
  is_Some (migrationMap ms !! v) ↔ v ∈ Version <$> ms.
Proof.
  unfold migrationMap. rewrite foldl_migrationMap_is_Some, lookup_empty.
  split; [intros [?|[? ?]]; done|by left].
Qed.

Lemma executeMigration_down_success m s migration :
  DryRun m = false → (execute m s migration false).1.2 = None →
  downVersions (execute m s migration false).2 = [Version migration]
  ∧ ledger (execute m s migration false).1.1
    = filter (λ r, record_Version r ≠ Version migration) (ledger s).
Proof.
  intros Hdry. unfold executeMigration. rewrite Hdry.
  destruct (driverError BeginTx s); [done|]. cbv zeta.
  destruct (runBody_frame (Down migration) s) as (Hl & _ & _).
  pose proof (runBody_calls txWrapper (Down migration) s) as Hcalls.
  set (run := runBody txWrapper (Down migration) s) in *.
  unfold removeMigrationRecord.
  destruct (driverError RemoveExec run.1.1); simpl; [done|].
  destruct (run.1.2); simpl; [done|].
  match goal with |- context [match ?r with Some _ => _ | None => _ end] =>
    destruct r end; simpl; [done|].
  intros _. rewrite Hl. split; [|done].
  unfold downVersions. simpl. fold (downVersions run.2).
  by rewrite downVersions_calls.
Qed.

Lemma filter_all {A} (P : A → Prop) `{!∀ x, Decision (P x)} (l : list A) :
  (∀ x, x ∈ l → P x) → filter P l = l.
Proof.
  induction l as [|x l IH]; intros Hall; [done|].
  rewrite filter_cons_True by (apply Hall; by left).
  rewrite IH; [done|]. intros y Hy. apply Hall. by right.
Qed.

(** A loop of [Down] that returns no error, outside a dry run, has run the
    units that the map finds for the records, in the order of the records,
    and has removed their rows. *)
Lemma downLoop_success m byVersion records s :
  DryRun m = false →
  (∀ v migration, byVersion !! v = Some migration → Version migration = v) →
  (downloop m byVersion records s).1.2 = None →
  downVersions (downloop m byVersion records s).2
  = filter (λ v, is_Some (byVersion !! v)) (record_Version <$> records)
  ∧ ledger (downloop m byVersion records s).1.1
    = filter (λ r, record_Version r
                   ∉ filter (λ v, is_Some (byVersion !! v)) (record_Version <$> records))
             (ledger s).
Proof.
  intros Hdry Hkey. revert s.
  induction records as [|record rest IH]; intros s; simpl.
  { intros _. split; [done|]. symmetry. apply filter_all. intros r _ []%elem_of_nil. }
  destruct (byVersion !! record_Version record) as [migration|] eqn:Hfind.
  - pose proof (Hkey _ _ Hfind) as Hv.
    pose proof (executeMigration_down_success m s migration Hdry) as Hexec.
    destruct ((execute m s migration false).1.2) as [e|]; simpl; [done|].
    destruct (Hexec eq_refl) as [Hlog Hledger]. intros Hok.
    destruct (IH _ Hok) as [IHlog IHledger].
    rewrite filter_cons_True by (by rewrite Hfind).
    split.
    + by rewrite downVersions_app, Hlog, IHlog, Hv.
    + rewrite IHledger, Hledger, list_filter_filter.
      apply list_filter_iff. intros r. rewrite not_elem_of_cons, Hv. naive_solver.
  - intros Hok. rewrite filter_cons_False by (rewrite Hfind; by intros [? ?]).
    by apply IH.
Qed.

Lemma laterFirst_total : Total laterFirst.
Proof. intros a b. unfold laterFirst. lia. Qed.

Lemma take_min_length {A} (l : list A) (steps : Z) :
  take (Z.to_nat (Z.min steps (Z.of_nat (length l)))) l = take (Z.to_nat steps) l.
Proof.
  destruct (decide (steps ≤ Z.of_nat (length l))).
  - by rewrite Z.min_l.
  - rewrite Z.min_r, Nat2Z.id by lia. rewrite !take_ge; [done|lia|lia].
Qed.

(** A [Down] that returns no error, outside a dry run, has gone through the
    first [steps] of the applied records, latest first, has run the [Down]
    of those whose version is registered, in that order, and has removed
    their rows from the ledger; the other rows are as they were.  A record
    whose version is not registered is passed over, and counts as a step. *)
Theorem Down_rolls_back_latest (m : Migrator) (steps : Z) (s : Store U) :
  DryRun m = false → err (Down_ m steps s) = None →
  ∃ records,
    records ≡ₚ filter (λ r, record_Success r = true) (ledger s)
    ∧ Sorted laterFirst records
    ∧ downVersions (log (Down_ m steps s))
      = filter (λ v, v ∈ registered m) (record_Version <$> take (Z.to_nat steps) records)
    ∧ ledger (store' (Down_ m steps s))
      = filter (λ r, record_Version r ∉ downVersions (log (Down_ m steps s))) (ledger s).
Proof.
  intros Hdry. unfold Migrator_Down. case_decide as Hsteps; [done|].
  destruct (acquire s) as [s1 [e|]] eqn:Hacq; [done|].
  destruct (acquireLock_ok s s1 Hacq) as (_ & _ & Hl1 & _).
  unfold getAppliedMigrationsOrdered.
  destruct (driverError OrderedQuery s1); [done|]. rewrite Hl1.
  set (records := merge_sort laterFirst (filter (λ r, record_Success r = true) (ledger s))).
  case_decide as Hlen; simpl; intros Hok; exists records;
    (split; [apply merge_sort_Permutation|]);
    (split; [apply (@Sorted_merge_sort _ laterFirst _ laterFirst_total)|]).
  - destruct (releaseLock_frame s1) as (-> & _).
    apply nil_length_inv in Hlen. rewrite Hlen, take_nil. simpl.
    split; [done|]. rewrite Hl1. symmetry. apply filter_all. intros r _ []%elem_of_nil.
  - match goal with |- context [release ?x] =>
      destruct (releaseLock_frame x) as (-> & _) end.
    rewrite take_min_length in Hok |- *.
    destruct (downLoop_success m (migrationMap (migrations m))
                (take (Z.to_nat steps) records) s1 Hdry) as [Hlog Hledger];
      [intros v mig Hfind; by apply migrationMap_lookup in Hfind as [? _]|done|].
    assert (Hfilter : filter (λ v, is_Some (migrationMap (migrations m) !! v))
                        (record_Version <$> take (Z.to_nat steps) records)
                      = filter (λ v, v ∈ registered m)
                          (record_Version <$> take (Z.to_nat steps) records)).
    { apply list_filter_iff. intros v. apply migrationMap_is_Some. }
    rewrite Hfilter in Hlog, Hledger. rewrite Hlog. split; [done|].
    by rewrite Hledger, Hl1.
Qed.

(** ** [Status] *)

Abbreviation Status_ := (Migrator_Status driverError).

Lemma Status_Ok m s statuses :
  (Status_ m s).2 = Ok statuses →
  status_Version <$> statuses = Version <$> sortMigrations (migrations m)
  ∧ Forall (λ st, Applied st = true ↔ status_Version st ∈ appliedVersions (ledger s))
           statuses.
Proof.
  unfold Migrator_Status. destruct (applied_ s) as [applied|e] eqn:Happ; [|done].
  simpl. intros [= <-]. split.
  - rewrite <- list_fmap_compose. apply list_fmap_ext. intros i migration _. simpl.
    by destruct (applied !! Version migration).
  - apply Forall_fmap, Forall_forall. intros migration _. simpl.
    pose proof (getAppliedMigrations_lookup s applied (Version migration) Happ) as Hiff.
    destruct (applied !! Version migration) as [record|]; simpl.
    + split; [intros _; apply Hiff; eauto|done].
    + split; [done|]. intros [? ?]%Hiff. done.
Qed.

(** [Status] answers with one entry for each registered unit, in the
    ascending order of the versions, and marks a unit as applied exactly when
    the ledger records its version with success. *)
Theorem Status_reports_ledger (m : Migrator) (s : Store U) :
  driverError AppliedQuery s = None →
  ∃ statuses,
    (Status_ m s).2 = Ok statuses
    ∧ status_Version <$> statuses ≡ₚ registered m
    ∧ StronglySorted versionLe (status_Version <$> statuses)
    ∧ Forall (λ st, Applied st = true ↔ status_Version st ∈ appliedVersions (ledger s))
             statuses.
Proof.
  intros Hquery.
  assert (∃ statuses, (Status_ m s).2 = Ok statuses) as [statuses Hst].
  { unfold Migrator_Status, getAppliedMigrations. rewrite Hquery. simpl. eauto. }
  exists statuses. destruct (Status_Ok m s statuses Hst) as [Hv Happlied].
  split_and!; [done| | |done].
  - rewrite Hv. unfold registered, sortMigrations. by rewrite merge_sort_Permutation.
  - rewrite Hv. apply sortMigrations_sorted.
Qed.

(** After an [Up] that returns no error, outside a dry run, [Status] on the
    migrator and the store it left marks every unit as applied. *)
Theorem Status_after_Up_all_applied (m : Migrator) (s : Store U)
  (statuses : list MigrationStatus) :
  DryRun m = false → err (Up_ m s) = None →
  (Status_ (migrator' (Up_ m s)) (store' (Up_ m s))).2 = Ok statuses →
  length statuses = length (migrations m)
  ∧ Forall (λ st, Applied st = true) statuses.
Proof.
  intros Hdry Hok.
  destruct (Up_success_loop m s Hok) as (s1 & applied & Hacq & Happ & -> & Hloop).
  simpl. intros Hst.
  destruct (Status_Ok _ _ _ Hst) as [Hv Happlied]. simpl in Hv.
  assert (Hsorted : ∀ v, v ∈ Version <$> sortMigrations (sortMigrations (migrations m))
                         → ∃ migration, migration ∈ sortMigrations (migrations m)
                                        ∧ v = Version migration).
  { intros v (migration & -> & Hin)%list_elem_of_fmap.
    exists migration. split; [|done]. by rewrite elem_of_sortMigrations in Hin. }
  split.
  - rewrite <- (length_fmap status_Version), Hv, length_fmap.
    unfold sortMigrations. by rewrite !merge_sort_Permutation.
  - rewrite Forall_forall in Happlied |- *. intros st Hin.
    apply Happlied; [done|].
    match goal with |- context [release ?x] => destruct (releaseLock_frame x) as (-> & _) end.
    destruct (Hsorted (status_Version st)) as (migration & Hmig & ->).
    { rewrite <- Hv. apply list_elem_of_fmap. eauto. }
    destruct (upLoop_success
      {| DryRun := DryRun m; migrations := sortMigrations (migrations m) |}
      applied (sortMigrations (migrations m)) s1) as [_ Hall]; [done| |done|].
    + intros v. by apply getAppliedMigrations_lookup.
    + by apply Hall.
Qed.

End runner_facts.

(** ** The runner on a concrete database *)

Section runner_examples.
Import migrator migrator_spec.






Lemma Up_twice_noop_witness :
  err (Migrator_Up engine engineRows reliable (runner [addProfile; createUsers]) freeStore)
  = None
  ∧ (∀ c s', reliable c s' = None)
  ∧ Migrator_Up engine engineRows reliable
      (migrator' (Migrator_Up engine engineRows reliable
                    (runner [addProfile; createUsers]) freeStore))
      (store' (Migrator_Up engine engineRows reliable
                 (runner [addProfile; createUsers]) freeStore))
    = {| migrator' := runner [createUsers; addProfile];
         store' := store' (Migrator_Up engine engineRows reliable
                             (runner [addProfile; createUsers]) freeStore);
         err := None; log := [] |}
  ∧ "001" ∈ appliedVersions (ledger appliedStore)
  ∧ RunUp "001" ∉ log (Migrator_Up engine engineRows reliable
                         (runner [addProfile; createUsers]) appliedStore).
Proof.
  assert (Hok : err (Migrator_Up engine engineRows reliable
                       (runner [addProfile; createUsers]) freeStore) = None)
    by (vm_compute; reflexivity).
  assert (Hrel : ∀ c s', reliable c s' = None) by reflexivity.
  assert (Happlied : "001" ∈ appliedVersions (ledger appliedStore))
    by (vm_compute; left).
  split; [exact Hok|]. split; [exact Hrel|]. split.
  - destruct (proj1 (Up_twice_noop engine engineRows reliable
                       (runner [addProfile; createUsers]) freeStore) Hok)
      as (_ & _ & _ & Hsame).
    rewrite (Hsame Hrel). reflexivity.
  - split; [exact Happlied|].
    exact (proj2 (Up_twice_noop engine engineRows reliable
                    (runner [addProfile; createUsers]) appliedStore) "001" Happlied).
Defined.

(** C2 on a concrete run: the second unit fails; [Up] returns its error and
    starts no later unit, the first unit stays applied, and the ledger has
    no row for the failed version. *)
Lemma Up_failure_not_recorded :
  Migrator_Up engine engineRows reliable (runner [createUsers; broken; later]) freeStore
  = {| migrator' := runner [createUsers; broken; later];
       store' :=
         {| ledger := [{| record_Version := "001"; record_Description := "create users";
                          record_AppliedAt := 1700000000; record_Success := true;
                          record_ErrorMsg := "" |}];
            lockTable := Some unlockedRow;
            user := ["CREATE TABLE users (id INT)"]; now := 1700000000 |};
       err := Some "执行迁移 002 失败: syntax error";
       log := [RunUp "001"; CallExec "CREATE TABLE users (id INT)";
               RunUp "002"; CallExec "FAIL"] |}.
Proof. vm_compute. reflexivity. Qed.


(** The release is deferred and its error dropped: if the driver cannot
    run it, [Up] returns no error and the lock stays held. *)
Lemma Up_release_error_keeps_lock :
  err (Migrator_Up engine engineRows lostAtRelease (runner [createUsers]) freeStore) = None
  ∧ lockHeld (store' (Migrator_Up engine engineRows lostAtRelease
                        (runner [createUsers]) freeStore)).
Proof. split; [reflexivity|]. eexists. split; reflexivity. Qed.

(** A body that calls [Begin] gets the wrapper's error. *)
Lemma nested_Begin_refused :
  Migrator_Up engine engineRows reliable (runner [nested]) freeStore
  = {| migrator' := runner [nested]; store' := freeStore;
       err := Some "执行迁移 004 失败: 在事务中不能开始新事务";
       log := [RunUp "004"; CallBegin (Err "在事务中不能开始新事务")] |}.
Proof. vm_compute. reflexivity. Qed.

Lemma Up_applies_all_witness :
  DryRun (runner [addProfile; createUsers]) = false
  ∧ err (Migrator_Up engine engineRows reliable (runner [addProfile; createUsers]) freeStore)
    = None
  ∧ "002" ∈ registered (runner [addProfile; createUsers])
  ∧ "002" ∈ appliedVersions
              (ledger (store' (Migrator_Up engine engineRows reliable
                                 (runner [addProfile; createUsers]) freeStore))).
Proof.
  assert (Hok : err (Migrator_Up engine engineRows reliable
                       (runner [addProfile; createUsers]) freeStore) = None)
    by (vm_compute; reflexivity).
  assert (Hreg : "002" ∈ registered (runner [addProfile; createUsers]))
    by (vm_compute; left).
  split; [reflexivity|]. split; [exact Hok|]. split; [exact Hreg|].
  exact (Up_applies_all engine engineRows reliable (runner [addProfile; createUsers])
           freeStore "002" eq_refl Hok Hreg).
Defined.

Lemma dry_run_starts_nothing_witness :
  DryRun (dryRunner [createUsers; addProfile]) = true
  ∧ log (Migrator_Up engine engineRows reliable (dryRunner [createUsers; addProfile])
           freeStore) = []
  ∧ ledger (store' (Migrator_Down engine engineRows reliable
                      (dryRunner [createUsers; addProfile]) 1 appliedStore))
    = ledger appliedStore.
Proof.
  split; [reflexivity|].
  destruct (dry_run_starts_nothing engine engineRows reliable
              (dryRunner [createUsers; addProfile]) 1 freeStore eq_refl)
    as [(Hlog & _) _].
  destruct (dry_run_starts_nothing engine engineRows reliable
              (dryRunner [createUsers; addProfile]) 1 appliedStore eq_refl)
    as [_ (_ & Hledger & _)].
  split; [exact Hlog|exact Hledger].
Defined.

Lemma Down_rolls_back_latest_witness :
  DryRun (runner [createUsers; addProfile]) = false
  ∧ err (Migrator_Down engine engineRows reliable (runner [createUsers; addProfile]) 1
           appliedStore) = None
  ∧ ∃ records,
      records ≡ₚ filter (λ r, record_Success r = true) (ledger appliedStore)
      ∧ Sorted laterFirst records
      ∧ downVersions (log (Migrator_Down engine engineRows reliable
                             (runner [createUsers; addProfile]) 1 appliedStore))
        = filter (λ v, v ∈ registered (runner [createUsers; addProfile]))
            (record_Version <$> take (Z.to_nat 1) records)
      ∧ ledger (store' (Migrator_Down engine engineRows reliable
                          (runner [createUsers; addProfile]) 1 appliedStore))
        = filter (λ r, record_Version r
                       ∉ downVersions (log (Migrator_Down engine engineRows reliable
                                              (runner [createUsers; addProfile]) 1
                                              appliedStore)))
                 (ledger appliedStore).
Proof.
  assert (Hok : err (Migrator_Down engine engineRows reliable
                       (runner [createUsers; addProfile]) 1 appliedStore) = None)
    by (vm_compute; reflexivity).
  split; [reflexivity|]. split; [exact Hok|].
  exact (Down_rolls_back_latest engine engineRows reliable
           (runner [createUsers; addProfile]) 1 appliedStore eq_refl Hok).
Defined.

(** On the store with unit 001 applied, [Down] of one step runs its [Down]
    and empties the ledger. *)
Lemma Down_one_step :
  Migrator_Down engine engineRows reliable (runner [createUsers; addProfile]) 1 appliedStore
  = {| migrator' := runner [createUsers; addProfile];
       store' := {| ledger := []; lockTable := Some unlockedRow;
                    user := ["CREATE TABLE users (id INT)"; "DROP TABLE users"];
                    now := 1700000000 |};
       err := None;
       log := [RunDown "001"; CallExec "DROP TABLE users"] |}.
Proof. vm_compute. reflexivity. Qed.

Lemma Status_reports_ledger_witness :
  reliable AppliedQuery appliedStore = None
  ∧ (Migrator_Status reliable (runner [addProfile; createUsers]) appliedStore).2
    = Ok [ {| status_Version := "001"; status_Description := "create users";
              Applied := true; AppliedAt := Some 1690000000 |};
           {| status_Version := "002"; status_Description := "add profile";
              Applied := false; AppliedAt := None |} ].
Proof.
  split; [reflexivity|].
  destruct (Status_reports_ledger engine engineRows reliable (runner [addProfile; createUsers])
              appliedStore eq_refl) as (statuses & Hst & _).
  rewrite Hst. vm_compute in Hst. injection Hst as <-. reflexivity.
Defined.

Lemma Status_after_Up_all_applied_witness :
  DryRun (runner [addProfile; createUsers]) = false
  ∧ err (Migrator_Up engine engineRows reliable (runner [addProfile; createUsers]) freeStore)
    = None
  ∧ ∃ statuses,
      (Migrator_Status reliable
         (migrator' (Migrator_Up engine engineRows reliable
                       (runner [addProfile; createUsers]) freeStore))
         (store' (Migrator_Up engine engineRows reliable
                    (runner [addProfile; createUsers]) freeStore))).2 = Ok statuses
      ∧ length statuses = 2%nat
      ∧ Forall (λ st, Applied st = true) statuses.
Proof.
  assert (Hok : err (Migrator_Up engine engineRows reliable
                       (runner [addProfile; createUsers]) freeStore) = None)
    by (vm_compute; reflexivity).
  split; [reflexivity|]. split; [exact Hok|].
  eexists. split; [vm_compute; reflexivity|].
  apply (Status_after_Up_all_applied engine engineRows reliable
           (runner [addProfile; createUsers]) freeStore _ eq_refl Hok).
  vm_compute. reflexivity.
Defined.

(** A unit registered twice: [Up] runs it a second time, the server refuses
    the second INSERT for the key, and the ledger has the one row of the
    first run. *)
Lemma Up_appends_success_rows_witness :
  ∃ new,
    ledger (store' (Migrator_Up engine engineRows reliable
                      (runner [createUsers; createUsers]) freeStore))
    = ledger freeStore ++ new
    ∧ new = [successRow createUsers 1700000000]
    ∧ err (Migrator_Up engine engineRows reliable
             (runner [createUsers; createUsers]) freeStore)
      = Some "执行迁移 001 失败: 更新迁移记录失败: Error 1062: Duplicate entry '001' for key 'PRIMARY'"
    ∧ upVersions (log (Migrator_Up engine engineRows reliable
                         (runner [createUsers; createUsers]) freeStore))
      = ["001"; "001"].
Proof.
  destruct (Up_appends_success_rows engine engineRows reliable
              (runner [createUsers; createUsers]) freeStore) as (new & Hledger & _).
  exists new. split; [exact Hledger|].
  split; [|split; vm_compute; reflexivity].
  vm_compute in Hledger. subst new. reflexivity.
Defined.

End runner_examples.
(** * The parsed INSERT statements *)

Section insert_statements.
Import database database_spec.

(** ** The checks of the parsed statements *)

Lemma arityError_None i j ncols rows :
  arityError i j ncols rows = None ↔ Forall (λ values, length values = ncols) rows.
Proof.
  revert j. induction rows as [|values rest IH]; intros j; simpl; [done|].
  rewrite Forall_cons. case_decide as Hlen.
  - split; [done|]. by intros [? _].
  - rewrite IH. naive_solver.
Qed.

Lemma validateFrom_None i statements :
  validateFrom i statements = None ↔ Forall wellFormed statements.
Proof.
  revert i. induction statements as [|stmt rest IH]; intros i; simpl; [done|].
  rewrite Forall_cons. unfold wellFormed at 1.
  case_decide as Hname; [split; [done|]; by intros [[? _] _]|].
  case_decide as Hrows.
  { apply nil_length_inv in Hrows. split; [done|]. by intros [(_ & ? & _) _]. }
  case_decide as Hcols.
  - destruct (arityError i 1 (length (Columns stmt)) (Values stmt)) as [e|] eqn:Harity.
    + split; [done|]. intros [(_ & _ & Hall) _].
      assert (Columns stmt ≠ []) as Hne by (intros Heq; rewrite Heq in Hcols; simpl in Hcols; lia).
      apply Hall in Hne. apply (arityError_None i 1) in Hne. by rewrite Hne in Harity.
    + apply arityError_None in Harity. rewrite IH.
      split; [|by intros [_ ?]]. intros Hrest. split; [|done].
      split_and!; [done| |done]. intros Heq. by rewrite Heq in Hrows.
  - rewrite IH. split; [|by intros [_ ?]]. intros Hrest. split; [|done].
    split_and!; [done| |].
    + intros Heq. by rewrite Heq in Hrows.
    + intros Hne. destruct (Columns stmt); [done|simpl in Hcols; lia].
Qed.

(** [ValidateInsertStatements] accepts exactly the lists that are not empty
    and whose statements each have a table name, at least one row and,
    where the columns are listed, rows of as many values as columns.  Rows of
    a statement without a column list may differ in length. *)
Theorem ValidateInsertStatements_accepts (statements : list InsertStatement) :
  ValidateInsertStatements statements = None
  ↔ statements ≠ [] ∧ Forall wellFormed statements.
Proof.
  unfold ValidateInsertStatements. destruct statements as [|stmt rest].
  - split; [done|]. by intros [? _].
  - rewrite validateFrom_None. naive_solver.
Qed.

(** ** The tables of a file *)

Lemma extractFrom_filter seen statements :
  extractFrom seen statements
  = filter (λ t, t ∉ seen) (extractFrom [] statements).
Proof.
  revert seen. induction statements as [|stmt rest IH]; intros seen; simpl; [done|].
  rewrite (IH [TableName stmt]). case_decide as Hseen.
  - rewrite filter_cons_False by (intros Hn; by apply Hn).
    rewrite IH, list_filter_filter. apply list_filter_iff.
    intros t. rewrite list_elem_of_singleton. split; [|by intros [? _]].
    intros Ht. split; [done|]. by intros ->.
  - rewrite filter_cons_True by done. f_equal.
    rewrite IH, list_filter_filter. apply list_filter_iff.
    intros t. rewrite not_elem_of_cons, list_elem_of_singleton. naive_solver.
Qed.

Lemma ExtractTableNames_cons stmt statements :
  ExtractTableNames (stmt :: statements)
  = TableName stmt :: filter (λ t, t ≠ TableName stmt) (ExtractTableNames statements).
Proof.
  unfold ExtractTableNames. simpl. f_equal. rewrite extractFrom_filter. apply list_filter_iff.
  intros t. by rewrite list_elem_of_singleton.
Qed.

Lemma elem_of_ExtractTableNames statements t :
  t ∈ ExtractTableNames statements ↔ t ∈ TableName <$> statements.
Proof.
  induction statements as [|stmt rest IH].
  - done.
  - rewrite ExtractTableNames_cons, fmap_cons, !elem_of_cons, list_elem_of_filter, IH.
    destruct (decide (t = TableName stmt)); naive_solver.
Qed.

Lemma NoDup_ExtractTableNames statements : NoDup (ExtractTableNames statements).
Proof.
  induction statements as [|stmt rest IH]; [constructor|].
  rewrite ExtractTableNames_cons. constructor.
  - rewrite list_elem_of_filter. by intros [? _].
  - by apply NoDup_filter.
Qed.

(** [ExtractTableNames] lists every table of the statements once, in the
    order in which the tables first appear. *)
Theorem ExtractTableNames_first_appearance (statements : list InsertStatement) :
  NoDup (ExtractTableNames statements)
  ∧ (∀ t, t ∈ ExtractTableNames statements ↔ t ∈ TableName <$> statements)
  ∧ (∀ stmt,
       ExtractTableNames (stmt :: statements)
       = TableName stmt
           :: filter (λ t, t ≠ TableName stmt) (ExtractTableNames statements)).
Proof.
  split_and!.
  - apply NoDup_ExtractTableNames.
  - intros t. apply elem_of_ExtractTableNames.
  - intros stmt. apply ExtractTableNames_cons.
Qed.

End insert_statements.


(** * The batch loader *)

Section loader_facts.
Import database database_spec.

Context {D : Type}.
Variable execContext : string → D → D * option string.
Variable tableExists : D → string → string → result bool.
Variable connError : connCall → D → option string.
Variable rangeOrder : list (string * TableInsertResult) → list (string * TableInsertResult).

Abbreviation batchloop := (batchLoop execContext).
Abbreviation batchInsertDB := (executeBatchInsertDB execContext).
Abbreviation batchInsert := (executeBatchInsert execContext).
Abbreviation connect := (connectToDatabase connError).
Abbreviation validateTables := (ValidateTablesExist tableExists connError).
Abbreviation executeInsertStatements := (ExecuteInsertStatements execContext connError).
Abbreviation insertFromSQLFile :=
  (InsertFromSQLFile execContext tableExists connError rangeOrder).

(** ** Batches *)

Lemma wrap64_small z : - 2 ^ 63 ≤ z < 2 ^ 63 → Go.wrap64 z = z.
Proof. intros Hz. unfold Go.wrap64. rewrite Z.mod_small; lia. Qed.



(** The loop returns, away from the wrap-around: it has issued a call for
    each turn up to the one that ended it, the call of turn [i] carrying
    batch [i] in the text built from it, and the database is what these
    calls left. *)
Lemma batchLoop_run (todo i : nat) stmt config d :
  0 < BatchSize config →
  Z.of_nat (length (Values stmt)) + BatchSize config - 1 ≤ Go.MaxInt64 →
  (Z.of_nat (i + todo) - 1) * BatchSize config < Z.of_nat (length (Values stmt)) →
  ∃ d' e calls,
    batchloop todo (Z.of_nat i) stmt config d = Some (d', e, calls)
    ∧ d' = executed execContext d calls
    ∧ Forall (batchText stmt) calls
    ∧ (length calls ≤ todo)%nat
    ∧ call_rows <$> calls
      = (λ j, batchRows (Z.to_nat (BatchSize config)) j (Values stmt)) <$> seq i (length calls)
    ∧ (e = None → length calls = todo).
Proof.
  intros HB Hmax. revert i d.
  induction todo as [|todo IH]; intros i d Hlast; simpl.
  { exists d, None, []. by split_and!. }
  set (B := BatchSize config) in *. set (R := Z.of_nat (length (Values stmt))) in *.
  assert (Hstart : Z.of_nat i * B < R) by nia.
  assert (Hmax' : R + B - 1 ≤ 2 ^ 63 - 1) by exact Hmax.
  rewrite (wrap64_small (Z.of_nat i * B)) by nia.
  rewrite (wrap64_small (Z.of_nat i * B + B)) by nia.
  unfold sliceRows. rewrite decide_True.
  2:{ case_decide; fold R; nia. }
  cbv zeta.
  assert (Hrows : take (Z.to_nat ((if decide (Z.of_nat i * B + B > R) then R
                                   else Z.of_nat i * B + B) - Z.of_nat i * B))
                       (drop (Z.to_nat (Z.of_nat i * B)) (Values stmt))
                  = batchRows (Z.to_nat B) i (Values stmt)).
  { unfold batchRows. replace (Z.to_nat (Z.of_nat i * B)) with (i * Z.to_nat B)%nat by nia.
    case_decide as Hend.
    - rewrite !take_ge; [done|rewrite length_drop; fold R; nia..].
    - f_equal. lia. }
  rewrite Hrows.
  replace (Z.of_nat i + 1) with (Z.of_nat (S i)) by lia.
  set (q := buildBatchInsertSQL (TableName stmt) (Columns stmt)
              (batchRows (Z.to_nat B) i (Values stmt))).
  set (this := {| call_sql := q; call_rows := batchRows (Z.to_nat B) i (Values stmt) |}).
  assert (Hthis : batchText stmt this) by done.
  destruct (IH (S i) (execContext q d).1) as (d2 & e2 & calls2 & Hloop & Hd2 & Hsql & Hlen & Hcalls & Hend).
  { replace (S i + todo)%nat with (i + S todo)%nat by lia. done. }
  assert (Hcontinue :
    ∃ d' e calls,
      match batchloop todo (Z.of_nat (S i)) stmt config (execContext q d).1 with
      | Some o => Some (o.1.1, o.1.2, this :: o.2)
      | None => None
      end = Some (d', e, calls)
      ∧ d' = executed execContext d calls
      ∧ Forall (batchText stmt) calls
      ∧ (length calls ≤ S todo)%nat
      ∧ call_rows <$> calls
        = (λ j, batchRows (Z.to_nat B) j (Values stmt)) <$> seq i (length calls)
      ∧ (e = None → length calls = S todo)).
  { exists d2, e2, (this :: calls2). rewrite Hloop. split_and!.
    - done.
    - done.
    - by constructor.
    - simpl. lia.
    - cbn [fmap list_fmap length seq call_rows this]. f_equal. exact Hcalls.
    - intros He. simpl. f_equal. by apply Hend. }
  destruct (execContext q d).2 as [err|] eqn:Herr; [|exact Hcontinue].
  destruct (isDuplicateKeyError err && bool_decide (OnConflict config = "ignore"));
    [exact Hcontinue|].
  eexists _, _, [this]. split; [done|]. split_and!.
  - done.
  - by constructor.
  - simpl. lia.
  - done.
  - done.
Qed.

(** A run of the loop that returns no error has issued one call for each
    turn, the call of turn [i] carrying batch [i]. *)
Lemma batchLoop_calls (todo i : nat) stmt config d d' calls :
  0 < BatchSize config →
  Z.of_nat (length (Values stmt)) + BatchSize config - 1 ≤ Go.MaxInt64 →
  (Z.of_nat (i + todo) - 1) * BatchSize config < Z.of_nat (length (Values stmt)) →
  batchloop todo (Z.of_nat i) stmt config d = Some (d', None, calls) →
  call_rows <$> calls
  = (λ j, batchRows (Z.to_nat (BatchSize config)) j (Values stmt)) <$> seq i todo.
Proof.
  intros HB Hmax Hlast Hrun.
  destruct (batchLoop_run todo i stmt config d HB Hmax Hlast)
    as (d2 & e2 & calls2 & Hloop & _ & _ & _ & Hcalls & Hend).
  rewrite Hrun in Hloop. injection Hloop as <- <- <-.
  by rewrite Hcalls, Hend.
Qed.

Lemma batchRows_concat B n i values :
  (0 < B)%nat → (length values ≤ (i + n) * B)%nat →
  concat ((λ j, batchRows B j values) <$> seq i n) = drop (i * B) values.
Proof.
  intros HB. revert i. induction n as [|n IH]; intros i Hn; simpl.
  - rewrite drop_ge; [done|lia].
  - rewrite IH by lia. unfold batchRows.
    replace (S i * B)%nat with (i * B + B)%nat by lia.
    rewrite <- drop_drop. apply take_drop.
Qed.

Lemma wrap64_add_l a b : Go.wrap64 (Go.wrap64 a + b) = Go.wrap64 (a + b).
Proof.
  unfold Go.wrap64. f_equal.
  replace ((a + 2 ^ 63) mod 2 ^ 64 - 2 ^ 63 + b + 2 ^ 63)
    with ((a + 2 ^ 63) mod 2 ^ 64 + b) by lia.
  rewrite Zplus_mod_idemp_l. f_equal. lia.
Qed.

(** The number of turns [executeBatchInsertDB] computes, away from the
    wrap-around. *)
Lemma totalBatches_exact (R B : Z) :
  0 ≤ R → 0 < B → R + B - 1 ≤ Go.MaxInt64 →
  Go.div64 (Go.wrap64 (Go.wrap64 (R + B) - 1)) B = (R + B - 1) / B.
Proof.
  intros HR HB Hmax. unfold Go.MaxInt64 in Hmax.
  replace (Go.wrap64 (R + B) - 1) with (Go.wrap64 (R + B) + -1) by lia.
  rewrite wrap64_add_l. replace (R + B + -1) with (R + B - 1) by lia.
  rewrite wrap64_small by lia. unfold Go.div64.
  rewrite Z.quot_div_nonneg by lia.
  apply wrap64_small. split.
  - pose proof (Z.div_pos (R + B - 1) B). lia.
  - pose proof (Z.div_le_upper_bound (R + B - 1) B (2 ^ 63 - 1)). nia.
Qed.

(** A statement executed to its end: the calls carry the batches
    [0 .. n-1], where [n] is the ceiling of [R/B]. *)
Lemma executeBatchInsertDB_calls (d d' : D) (stmt : InsertStatement)
  (config : DataInsertConfig) (calls : list call) :
  1 ≤ BatchSize config →
  Z.of_nat (length (Values stmt)) + BatchSize config - 1 ≤ Go.MaxInt64 →
  batchInsertDB d stmt config = Some (d', None, calls) →
  ∃ n : nat,
    call_rows <$> calls
    = (λ j, batchRows (Z.to_nat (BatchSize config)) j (Values stmt)) <$> seq 0 n
    ∧ (Z.of_nat n - 1) * BatchSize config < Z.of_nat (length (Values stmt))
    ∧ Z.of_nat (length (Values stmt)) ≤ Z.of_nat n * BatchSize config.
Proof.
  intros HB Hmax. unfold executeBatchInsertDB.
  rewrite decide_False by lia. cbv zeta.
  set (B := BatchSize config) in *. set (R := Z.of_nat (length (Values stmt))) in *.
  rewrite totalBatches_exact by lia.
  set (n := (R + B - 1) / B).
  assert (Hn0 : 0 ≤ n) by (apply Z.div_pos; lia).
  assert (Hn1 : (n - 1) * B < R).
  { pose proof (Z.mul_div_le (R + B - 1) B) as Hle. fold n in Hle. lia. }
  assert (Hn2 : R ≤ n * B).
  { pose proof (Z.mod_pos_bound (R + B - 1) B) as Hmod.
    pose proof (Z.div_mod (R + B - 1) B) as Hdiv. fold n in Hdiv. lia. }
  intros Hloop. exists (Z.to_nat n). rewrite Z2Nat.id by done.
  split; [|done].
  apply (batchLoop_calls (Z.to_nat n) 0%nat stmt config d d' calls); [lia|done| |done].
  fold B R. lia.
Qed.



(** ** The check of the tables *)



(** The loop stops at the first table that the catalog query does not
    find, with the error of the query if it has one. *)
Lemma validateLoop_firstMissing d dbName tables :
  validateLoop tableExists d dbName tables
  = (λ it, match tableExists d dbName it.2 with
           | Err e => String.append "检查表 "
                        (String.append it.2 (String.append " 存在性失败: " e))
           | Ok _ => missingMessage it.2
           end) <$> firstMissing tableExists d dbName tables.
Proof.
  unfold firstMissing. induction tables as [|t tables IH]; simpl; [done|].
  unfold checkTableExists. destruct (tableExists d dbName t) as [[]|e] eqn:Ht.
  - rewrite decide_False by (intros Hne; by apply Hne). rewrite IH.
    by destruct (list_find _ tables) as [[i x]|].
  - rewrite decide_True by done. simpl. by rewrite Ht.
  - rewrite decide_True by done. simpl. by rewrite Ht.
Qed.

(** C8, as the code has it.  On a database that can be reached, the check
    stops at the first table, in the order of first appearance in the file,
    that the catalog does not have, and its error names that table alone.
    With validation on, [InsertFromSQLFile] returns that error before any
    INSERT is executed: no call is made and the database is as it was. *)
Theorem ValidateTablesExist_first_missing (d : D) (dbName : string)
  (statements : list InsertStatement) (config : DataInsertConfig)
  (i : nat) (tableName : string) :
  connect d dbName = None →
  firstMissing tableExists d dbName (ExtractTableNames statements) = Some (i, tableName) →
  tableExists d dbName tableName = Ok false →
  validateTables d dbName (ExtractTableNames statements)
  = Some (missingMessage tableName)
  ∧ (ValidateTables config = true →
     ValidateInsertStatements statements = None →
     insertFromSQLFile d dbName (Ok statements) config
     = Some (d,
             {| DatabaseName := dbName;
                TotalStatements := Z.of_nat (length statements);
                SuccessfulStatements := 0; FailedStatements := 0;
                TotalRowsInserted := 0; TableResults := [];
                Errors := [{| ErrorMessage :=
                               String.append "表存在性验证失败: " (missingMessage tableName) |}] |},
             Some (missingMessage tableName), [])).
Proof.
  intros Hconn Hfirst Hmissing.
  assert (Hcheck : validateTables d dbName (ExtractTableNames statements)
                   = Some (missingMessage tableName)).
  { unfold ValidateTablesExist. rewrite Hconn, validateLoop_firstMissing, Hfirst.
    simpl. by rewrite Hmissing. }
  split; [done|]. intros Hon Hvalid. unfold InsertFromSQLFile.
  destruct statements as [|stmt rest]; [done|].
  rewrite decide_False by done. rewrite Hvalid, Hon, Hcheck. done.
Qed.

(** ** The summary *)

Lemma insertFromSQLFile_success d dbName statements config d' res calls :
  insertFromSQLFile d dbName (Ok statements) config = Some (d', res, None, calls) →
  TableResults res = (rangeOrder (map_to_list (tableStatsOf statements))).*2
  ∧ insertLoop execContext statements config d = Some (d', None, calls).
Proof.
  unfold InsertFromSQLFile. case_decide; [done|].
  destruct (ValidateInsertStatements statements); [done|].
  destruct (if ValidateTables config then _ else _); [done|].
  destruct (executeInsertStatements d dbName statements config)
    as [[[d1 [e|]] calls1]|] eqn:Hexec; [done| |done].
  intros [= <- <- <-]. split; [done|].
  revert Hexec. unfold ExecuteInsertStatements.
  destruct (connect d dbName); [done|].
  destruct (if UseTransaction config then _ else _); [done|].
  destruct (insertLoop execContext statements config d) as [[[d2 e2] calls2]|]; [|done].
  simpl. destruct e2; [done|].
  destruct (if UseTransaction config then _ else _); [done|].
  by intros [= <- <-].
Qed.

(** When every error of the engine is a duplicate-key error and the policy
    is "ignore", a statement is executed to its end. *)
Lemma batchLoop_ignore todo i stmt config d d' e calls :
  (∀ q d0 e0, (execContext q d0).2 = Some e0 → isDuplicateKeyError e0 = true) →
  OnConflict config = "ignore" →
  batchloop todo i stmt config d = Some (d', e, calls) → e = None.
Proof.
  intros Hdup Hignore. revert i d calls.
  induction todo as [|todo IH]; intros i d calls; simpl; [by intros [= <- <- <-]|].
  destruct (sliceRows _ _ _) as [rows|]; [|done]. cbv zeta.
  destruct (execContext _ d) as [d1 [e1|]] eqn:Hexec; simpl.
  - rewrite (Hdup _ d e1) by (by rewrite Hexec).
    rewrite bool_decide_eq_true_2 by done. simpl.
    destruct (batchloop todo (i + 1) stmt config d1) as [[[d2 e2] calls2]|] eqn:Hloop;
      [|done].
    intros [= <- <- <-]. by eapply IH.
  - destruct (batchloop todo (i + 1) stmt config d1) as [[[d2 e2] calls2]|] eqn:Hloop;
      [|done].
    intros [= <- <- <-]. by eapply IH.
Qed.

Lemma executeBatchInsertDB_ignore stmt config d d' e calls :
  (∀ q d0 e0, (execContext q d0).2 = Some e0 → isDuplicateKeyError e0 = true) →
  OnConflict config = "ignore" →
  batchInsertDB d stmt config = Some (d', e, calls) → e = None.
Proof.
  intros Hdup Hignore. unfold executeBatchInsertDB. case_decide; [done|].
  by apply batchLoop_ignore.
Qed.

Lemma insertLoop_cons stmt rest config d :
  insertLoop execContext (stmt :: rest) config d
  = match batchInsertDB d stmt config with
    | None => None
    | Some r =>
        match r.1.2 with
        | None =>
            match insertLoop execContext rest config r.1.1 with
            | Some o => Some (o.1.1, o.1.2, r.2 ++ o.2)
            | None => None
            end
        | Some execErr =>
            if StopOnError config
            then Some (r.1.1,
                       Some (String.append "执行INSERT语句失败 (表: "
                               (String.append (TableName stmt)
                                  (String.append ", 行: "
                                     (String.append (pretty (LineNumber stmt))
                                        (String.append "): " execErr))))),
                       r.2)
            else
              match insertLoop execContext rest config r.1.1 with
              | Some o => Some (o.1.1, o.1.2, r.2 ++ o.2)
              | None => None
              end
        end
    end.
Proof.
  simpl. unfold executeBatchInsert. by destruct (UseTransaction config).
Qed.

(** C7, as the code has it.  Two statements for two different tables, of 3
    and of 5 rows, loaded with batch size 2 under the policy "ignore" on a
    database that refuses nothing but duplicates: the executor receives 2
    batches for the first statement and 3 for the second, and the summary
    reports 3 rows and 1 executed statement for the first table, 5 rows and
    1 executed statement for the second.  [StatementsExecuted] counts the
    INSERT statements of the file, not the batches. *)
Theorem InsertFromSQLFile_two_tables (d d' : D) (dbName : string)
  (stmt1 stmt2 : InsertStatement) (config : DataInsertConfig)
  (res : DataInsertResult) (calls : list call) :
  (∀ l, rangeOrder l ≡ₚ l) →
  (∀ q d0 e0, (execContext q d0).2 = Some e0 → isDuplicateKeyError e0 = true) →
  TableName stmt1 ≠ TableName stmt2 →
  length (Values stmt1) = 3%nat → length (Values stmt2) = 5%nat →
  BatchSize config = 2 → OnConflict config = "ignore" →
  insertFromSQLFile d dbName (Ok [stmt1; stmt2]) config = Some (d', res, None, calls) →
  TableResults res
  ≡ₚ [ {| table_TableName := TableName stmt1; RowsInserted := 3; StatementsExecuted := 1 |};
       {| table_TableName := TableName stmt2; RowsInserted := 5; StatementsExecuted := 1 |} ]
  ∧ ∃ calls1 calls2, calls = calls1 ++ calls2
      ∧ length calls1 = 2%nat ∧ length calls2 = 3%nat
      ∧ concat (call_rows <$> calls1) = Values stmt1
      ∧ concat (call_rows <$> calls2) = Values stmt2.
Proof.
  intros Hperm Hdup Hne Hr1 Hr2 HB Hignore Hrun.
  apply insertFromSQLFile_success in Hrun as [Htable Hexec]. split.
  - rewrite Htable, Hperm. unfold tableStatsOf. simpl. unfold countStatement.
    rewrite lookup_empty. simpl. rewrite lookup_insert_ne by done.
    rewrite lookup_empty. simpl. rewrite Hr1, Hr2. simpl.
    rewrite map_to_list_insert by (rewrite lookup_insert_ne by done; apply lookup_empty).
    rewrite map_to_list_insert by apply lookup_empty.
    rewrite map_to_list_empty. simpl. apply Permutation_swap.
  - rewrite insertLoop_cons in Hexec.
    destruct (batchInsertDB d stmt1 config) as [[[d1 e1] calls1]|] eqn:H1; [|done].
    pose proof (executeBatchInsertDB_ignore _ _ _ _ _ _ Hdup Hignore H1) as ->.
    cbn [fst snd] in Hexec. rewrite insertLoop_cons in Hexec.
    destruct (batchInsertDB d1 stmt2 config) as [[[d2 e2] calls2]|] eqn:H2; [|done].
    pose proof (executeBatchInsertDB_ignore _ _ _ _ _ _ Hdup Hignore H2) as ->.
    simpl in Hexec. injection Hexec as <- <-.
    exists calls1, calls2. rewrite app_nil_r.
    destruct (executeBatchInsertDB_calls d d1 stmt1 config calls1)
      as (n1 & Hcalls1 & Hlo1 & Hhi1); [lia|rewrite Hr1, HB; done|done|].
    destruct (executeBatchInsertDB_calls d1 d2 stmt2 config calls2)
      as (n2 & Hcalls2 & Hlo2 & Hhi2); [lia|rewrite Hr2, HB; done|done|].
    rewrite Hr1, HB in Hlo1, Hhi1. rewrite Hr2, HB in Hlo2, Hhi2.
    assert (Hlen1 : length calls1 = n1).
    { rewrite <- (length_fmap call_rows), Hcalls1, length_fmap. apply length_seq. }
    assert (Hlen2 : length calls2 = n2).
    { rewrite <- (length_fmap call_rows), Hcalls2, length_fmap. apply length_seq. }
    split_and!; [done|lia|lia|..].
    + rewrite Hcalls1, batchRows_concat; [done|lia|]. rewrite Hr1, HB. lia.
    + rewrite Hcalls2, batchRows_concat; [done|lia|]. rewrite Hr2, HB. lia.
Qed.

(** ** Batch sizes that are not positive *)

(** With batch size 0 the count of the batches divides by zero.  With a
    negative batch size and one row the first slice is out of range; with a
    negative batch size and two rows or more the count of the batches is not
    positive: no call is made and no error is returned. *)
Theorem executeBatchInsertDB_bad_batch_size (d : D) (stmt : InsertStatement)
  (config : DataInsertConfig) :
  (BatchSize config = 0 → batchInsertDB d stmt config = None)
  ∧ (- 2 ^ 62 < BatchSize config < 0 → length (Values stmt) = 1%nat →
     batchInsertDB d stmt config = None)
  ∧ (- 2 ^ 62 < BatchSize config < 0 → (2 ≤ length (Values stmt))%nat →
     Z.of_nat (length (Values stmt)) < 2 ^ 62 →
     batchInsertDB d stmt config = Some (d, None, [])).
Proof.
  unfold executeBatchInsertDB. split_and!.
  - intros ->. by rewrite decide_True.
  - intros HB Hone. rewrite decide_False by lia. cbv zeta. rewrite Hone.
    replace (Go.wrap64 (Z.of_nat 1 + BatchSize config) - 1)
      with (Go.wrap64 (Z.of_nat 1 + BatchSize config) + -1) by lia.
    rewrite wrap64_add_l.
    replace (Z.of_nat 1 + BatchSize config + -1) with (BatchSize config) by lia.
    rewrite wrap64_small by lia. unfold Go.div64.
    rewrite Z.quot_same by lia. rewrite wrap64_small by lia.
    change (Z.to_nat 1) with 1%nat. cbn [batchLoop]. cbv zeta.
    rewrite Hone, Z.mul_0_l. rewrite (wrap64_small 0) by lia.
    rewrite Z.add_0_l, wrap64_small by lia.
    unfold sliceRows. rewrite decide_False by (case_decide; lia). done.
  - intros HB Htwo Hmax. rewrite decide_False by lia. cbv zeta.
    set (B := BatchSize config) in *. set (R := Z.of_nat (length (Values stmt))) in *.
    assert (HR : 2 ≤ R) by (unfold R; lia).
    replace (Go.wrap64 (R + B) - 1) with (Go.wrap64 (R + B) + -1) by lia.
    rewrite wrap64_add_l. replace (R + B + -1) with (R + B - 1) by lia.
    rewrite wrap64_small by lia. unfold Go.div64.
    assert (Hq : Z.quot (R + B - 1) B ≤ 0 ∧ - 2 ^ 63 ≤ Z.quot (R + B - 1) B).
    { destruct (decide (0 ≤ R + B - 1)) as [Hpos|Hneg].
      - pose proof (Z.quot_opp_r (R + B - 1) B ltac:(lia)) as Hopp.
        assert (0 ≤ Z.quot (R + B - 1) (- B)) by (apply Z.quot_pos; lia).
        assert (Z.quot (R + B - 1) (- B) ≤ 2 ^ 62)
          by (apply Z.quot_le_upper_bound; nia).
        lia.
      - replace (Z.quot (R + B - 1) B) with (Z.quot (- (R + B - 1)) (- B))
          by (rewrite Z.quot_opp_opp; [done|lia]).
        rewrite Z.quot_small by lia. lia. }
    rewrite wrap64_small by lia.
    replace (Z.to_nat (Z.quot (R + B - 1) B)) with 0%nat by lia. done.
Qed.

(** ** Loading past refused statements *)

Lemma insertLoop_continue statements config d d' e calls :
  StopOnError config = false →
  insertLoop execContext statements config d = Some (d', e, calls) → e = None.
Proof.
  intros Hstop. revert d d' e calls.
  induction statements as [|stmt rest IH]; intros d d' e calls; simpl.
  { by intros [= <- <- <-]. }
  destruct (if UseTransaction config then _ else _) as [r|]; [|done].
  cbv zeta. rewrite Hstop.
  destruct (insertLoop execContext rest config r.1.1) as [[[d2 e2] calls2]|] eqn:Hrest.
  - pose proof (IH _ _ _ _ Hrest) as ->.
    destruct (r.1.2); by intros [= <- <- <-].
  - by destruct (r.1.2).
Qed.

(** With [StopOnError] off, on a database that can be reached and that
    opens and commits the transaction if one is asked for,
    [ExecuteInsertStatements] returns no error, whatever the engine answered
    to the INSERTs. *)
Theorem ExecuteInsertStatements_hides_errors (d d' : D) (dbName : string)
  (statements : list InsertStatement) (config : DataInsertConfig)
  (e : option string) (calls : list call) :
  StopOnError config = false →
  connect d dbName = None →
  (UseTransaction config = true →
   connError ConnBeginTx d = None ∧ ∀ d0, connError TxCommit d0 = None) →
  executeInsertStatements d dbName statements config = Some (d', e, calls) →
  e = None.
Proof.
  intros Hstop Hconn Htx. unfold ExecuteInsertStatements. rewrite Hconn.
  destruct (UseTransaction config) eqn:Huse.
  - destruct (Htx eq_refl) as [-> Hcommit].
    destruct (insertLoop execContext statements config d) as [[[d1 e1] calls1]|] eqn:Hloop;
      [|done].
    pose proof (insertLoop_continue _ _ _ _ _ _ Hstop Hloop) as ->. simpl.
    rewrite Hcommit. by intros [= <- <- <-].
  - destruct (insertLoop execContext statements config d) as [[[d1 e1] calls1]|] eqn:Hloop;
      [|done].
    pose proof (insertLoop_continue _ _ _ _ _ _ Hstop Hloop) as ->. simpl.
    by intros [= <- <- <-].
Qed.

(** ** The totals of the summary *)

Lemma zsum_Permutation l k : l ≡ₚ k → zsum l = zsum k.
Proof. unfold zsum. induction 1; simpl; lia. Qed.

Lemma foldl_add_zsum {A} (f : A → Z) (l : list A) (a : Z) :
  foldl (λ acc x, acc + f x) a l = a + zsum (f <$> l).
Proof.
  revert a. induction l as [|x l IH]; intros a; csimpl; [unfold zsum; simpl; lia|].
  rewrite IH. unfold zsum. simpl. lia.
Qed.

(** The sum of a field over the entries of the statistics. *)
Abbreviation msum f m := (zsum (f <$> (map_to_list m).*2)).

Lemma msum_insert (f : TableInsertResult → Z) (m : gmap string TableInsertResult) k v :
  msum f (<[k:=v]> m) = msum f m - from_option f 0 (m !! k) + f v.
Proof.
  destruct (m !! k) as [v0|] eqn:Hk; simpl.
  - rewrite <- (insert_delete_eq m).
    rewrite (zsum_Permutation _ (f <$> ((k, v) :: map_to_list (delete k m)).*2)).
    2:{ do 2 apply fmap_Permutation. apply map_to_list_insert, lookup_delete_eq. }
    rewrite (zsum_Permutation (f <$> (map_to_list m).*2)
               (f <$> ((k, v0) :: map_to_list (delete k m)).*2)).
    2:{ do 2 apply fmap_Permutation. symmetry. by apply map_to_list_delete. }
    unfold zsum. csimpl. lia.
  - rewrite (zsum_Permutation _ (f <$> ((k, v) :: map_to_list m).*2)).
    2:{ do 2 apply fmap_Permutation. by apply map_to_list_insert. }
    unfold zsum. csimpl. lia.
Qed.

Lemma foldl_countStatement_rows statements m :
  msum RowsInserted (foldl countStatement m statements)
  = msum RowsInserted m + totalRows statements.
Proof.
  revert m. induction statements as [|stmt rest IH]; intros m; simpl.
  { unfold totalRows, zsum. csimpl. lia. }
  rewrite IH. unfold countStatement. rewrite msum_insert.
  unfold totalRows, zsum. csimpl.
  destruct (m !! TableName stmt); simpl; lia.
Qed.

Lemma foldl_countStatement_statements statements m :
  msum StatementsExecuted (foldl countStatement m statements)
  = msum StatementsExecuted m + Z.of_nat (length statements).
Proof.
  revert m. induction statements as [|stmt rest IH]; intros m; simpl; [lia|].
  rewrite IH. unfold countStatement. rewrite msum_insert.
  destruct (m !! TableName stmt); simpl; lia.
Qed.

Lemma foldl_countStatement_keys statements m :
  (∀ k v, m !! k = Some v → table_TableName v = k) →
  (∀ k v, foldl countStatement m statements !! k = Some v → table_TableName v = k)
  ∧ (∀ k, is_Some (foldl countStatement m statements !! k)
          ↔ k ∈ TableName <$> statements ∨ is_Some (m !! k)).
Proof.
  revert m. induction statements as [|stmt rest IH]; intros m Hm; simpl.
  { split; [done|]. intros k. rewrite elem_of_nil. naive_solver. }
  destruct (IH (countStatement m stmt)) as [Hkeys Hdom].
  { intros k v. unfold countStatement.
    destruct (decide (TableName stmt = k)) as [<-|Hne].
    - rewrite lookup_insert_eq. intros [= <-]. simpl.
      destruct (m !! TableName stmt) as [v0|] eqn:Hv0; simpl; [by apply Hm|done].
    - rewrite lookup_insert_ne by done. apply Hm. }
  split; [done|]. intros k. rewrite Hdom, elem_of_cons. unfold countStatement.
  destruct (decide (TableName stmt = k)) as [<-|Hne].
  - rewrite lookup_insert_eq. naive_solver.
  - rewrite lookup_insert_ne by done. naive_solver.
Qed.

Lemma tableStatsOf_names statements :
  table_TableName <$> (map_to_list (tableStatsOf statements)).*2
  ≡ₚ ExtractTableNames statements.
Proof.
  destruct (foldl_countStatement_keys statements ∅) as [Hkeys Hdom].
  { intros k v. by rewrite lookup_empty. }
  fold (tableStatsOf statements) in Hkeys, Hdom.
  assert (Hfst : table_TableName <$> (map_to_list (tableStatsOf statements)).*2
                 = (map_to_list (tableStatsOf statements)).*1).
  { rewrite <- list_fmap_compose. apply list_fmap_ext. intros i [k v] Hin. simpl.
    apply Hkeys. apply elem_of_map_to_list. eapply list_elem_of_lookup_2, Hin. }
  rewrite Hfst. apply NoDup_Permutation.
  - apply NoDup_fst_map_to_list.
  - apply NoDup_ExtractTableNames.
  - intros k. rewrite elem_of_ExtractTableNames.
    rewrite list_elem_of_fmap. split.
    + intros ([k' v] & -> & Hin). simpl.
      apply elem_of_map_to_list in Hin.
      destruct (proj1 (Hdom k') (mk_is_Some _ _ Hin)) as [?|[? Hempty]]; [done|].
      by rewrite lookup_empty in Hempty.
    + intros Hin. destruct (proj2 (Hdom k) (or_introl Hin)) as [v Hv].
      exists (k, v). split; [done|]. by apply elem_of_map_to_list.
Qed.

Lemma insertFromSQLFile_summary d dbName statements config d' res calls :
  insertFromSQLFile d dbName (Ok statements) config = Some (d', res, None, calls) →
  res = {| DatabaseName := dbName;
           TotalStatements := Z.of_nat (length statements);
           SuccessfulStatements := Z.of_nat (length statements);
           FailedStatements := 0;
           TotalRowsInserted :=
             foldl (λ acc tableResult, acc + RowsInserted tableResult) 0
                   (rangeOrder (map_to_list (tableStatsOf statements))).*2;
           TableResults := (rangeOrder (map_to_list (tableStatsOf statements))).*2;
           Errors := [] |}.
Proof.
  unfold InsertFromSQLFile. case_decide; [done|].
  destruct (ValidateInsertStatements statements); [done|].
  destruct (if ValidateTables config then _ else _); [done|].
  destruct (executeInsertStatements d dbName statements config)
    as [[[d1 [e|]] calls1]|]; [done| |done].
  by intros [= <- <- <-].
Qed.

(** When [InsertFromSQLFile] returns no error, its summary counts every
    statement of the file as successful and every value row as inserted,
    whatever the engine answered to the batches: the total of the rows is
    the number of value rows of the file, the entries of the tables are one
    for each table of the file, and their rows and statements add up to the
    totals.  This holds for every order of the range over the map. *)
Theorem InsertFromSQLFile_totals (d d' : D) (dbName : string)
  (statements : list InsertStatement) (config : DataInsertConfig)
  (res : DataInsertResult) (calls : list call) :
  (∀ l, rangeOrder l ≡ₚ l) →
  insertFromSQLFile d dbName (Ok statements) config = Some (d', res, None, calls) →
  TotalStatements res = Z.of_nat (length statements)
  ∧ SuccessfulStatements res = Z.of_nat (length statements)
  ∧ FailedStatements res = 0 ∧ Errors res = []
  ∧ TotalRowsInserted res = totalRows statements
  ∧ zsum (RowsInserted <$> TableResults res) = totalRows statements
  ∧ zsum (StatementsExecuted <$> TableResults res) = Z.of_nat (length statements)
  ∧ table_TableName <$> TableResults res ≡ₚ ExtractTableNames statements.
Proof.
  intros Hperm ->%insertFromSQLFile_summary. simpl.
  assert (Hrows : zsum (RowsInserted
                          <$> (rangeOrder (map_to_list (tableStatsOf statements))).*2)
                  = totalRows statements).
  { rewrite (zsum_Permutation _ (RowsInserted <$> (map_to_list (tableStatsOf statements)).*2))
      by (by rewrite Hperm).
    unfold tableStatsOf. rewrite foldl_countStatement_rows.
    rewrite map_to_list_empty. unfold zsum. csimpl. lia. }
  split_and!; try done.
  - by rewrite foldl_add_zsum, Hrows.
  - rewrite (zsum_Permutation _
               (StatementsExecuted <$> (map_to_list (tableStatsOf statements)).*2))
      by (by rewrite Hperm).
    unfold tableStatsOf. rewrite foldl_countStatement_statements.
    rewrite map_to_list_empty. unfold zsum. csimpl. lia.
  - rewrite Hperm. apply tableStatsOf_names.
Qed.

End loader_facts.

(** ** The loader on a concrete database *)

Section loader_examples.
Import database database_spec.









(** Past the range of [int] the count of the turns wraps: with the largest
    batch size the loop makes no call at all and reports no error. *)
Lemma executeBatchInsertDB_wraps :
  executeBatchInsertDB acceptAll [] threeRows
    {| BatchSize := Go.MaxInt64; OnConflict := "ignore"; StopOnError := true;
       ValidateTables := true; UseTransaction := true |}
  = Some ([], None, []).
Proof. vm_compute. reflexivity. Qed.


(** C7 as stated fails: the summary of the scenario reports one executed
    statement for each table, for either order of the range over the map. *)
Lemma InsertFromSQLFile_counts_statements :
  (λ o, TableResults o.1.1.2)
    <$> InsertFromSQLFile acceptAll (catalog ["table1"; "table2"]) connected (λ l, l) []
          "shop" (Ok [threeRows; fiveRows]) batchOfTwo
  = Some [table1Result; table2Result]
  ∧ (λ o, TableResults o.1.1.2)
    <$> InsertFromSQLFile acceptAll (catalog ["table1"; "table2"]) connected reverse []
          "shop" (Ok [threeRows; fiveRows]) batchOfTwo
  = Some [table2Result; table1Result]
  ∧ StatementsExecuted table1Result ≠ 2 ∧ StatementsExecuted table2Result ≠ 3.
Proof. split_and!; try (vm_compute; reflexivity); vm_compute; discriminate. Qed.

Lemma InsertFromSQLFile_two_tables_witness :
  ∃ d' res calls,
    InsertFromSQLFile acceptAll (catalog ["table1"; "table2"]) connected (λ l, l) []
      "shop" (Ok [threeRows; fiveRows]) batchOfTwo = Some (d', res, None, calls)
    ∧ TableResults res ≡ₚ [table1Result; table2Result]
    ∧ length calls = 5%nat.
Proof.
  destruct (InsertFromSQLFile acceptAll (catalog ["table1"; "table2"]) connected (λ l, l) []
              "shop" (Ok [threeRows; fiveRows]) batchOfTwo)
    as [[[[d' res] e] calls]|] eqn:Hrun; [|vm_compute in Hrun; discriminate].
  assert (He : e = None) by (vm_compute in Hrun; congruence).
  assert (Hcalls : length calls = 5%nat) by (vm_compute in Hrun; by injection Hrun as _ _ _ <-).
  rewrite He in Hrun |- *.
  exists d', res, calls. split; [reflexivity|].
  destruct (InsertFromSQLFile_two_tables acceptAll (catalog ["table1"; "table2"])
              connected (λ l, l) [] d' "shop" threeRows fiveRows batchOfTwo res calls
              (λ l, reflexivity l)
              ltac:(intros q d0 e0; simpl; discriminate)
              ltac:(vm_compute; discriminate)
              eq_refl eq_refl eq_refl eq_refl Hrun)
    as (Htable & _).
  split; [exact Htable|exact Hcalls].
Defined.

(** C8 as stated fails: with both tables missing the error names the first
    and says nothing of the second. *)
Lemma ValidateTablesExist_names_one_table :
  ExtractTableNames [threeRows; fiveRows] = ["table1"; "table2"]
  ∧ ValidateTablesExist (catalog []) connected [] "shop" ["table1"; "table2"]
    = Some "表 table1 不存在"
  ∧ Go.Contains "表 table1 不存在" "table2" = false.
Proof. split_and!; vm_compute; reflexivity. Qed.

Lemma ValidateTablesExist_first_missing_witness :
  connectToDatabase connected [] "shop" = None
  ∧ firstMissing (catalog ["table1"]) [] "shop" (ExtractTableNames [threeRows; fiveRows])
    = Some (1%nat, "table2")
  ∧ catalog ["table1"] [] "shop" "table2" = Ok false
  ∧ InsertFromSQLFile acceptAll (catalog ["table1"]) connected (λ l, l) []
      "shop" (Ok [threeRows; fiveRows]) batchOfTwo
    = Some ([],
            {| DatabaseName := "shop"; TotalStatements := 2;
               SuccessfulStatements := 0; FailedStatements := 0;
               TotalRowsInserted := 0; TableResults := [];
               Errors := [{| ErrorMessage := "表存在性验证失败: 表 table2 不存在" |}] |},
            Some "表 table2 不存在", []).
Proof.
  split; [reflexivity|]. split; [vm_compute; reflexivity|].
  split; [vm_compute; reflexivity|].
  apply (ValidateTablesExist_first_missing acceptAll (catalog ["table1"]) connected
           (λ l, l) [] "shop" [threeRows; fiveRows] batchOfTwo 1 "table2");
    vm_compute; reflexivity.
Defined.

(** A server that cannot be reached: the check returns the error of the
    connection, whatever the tables. *)
Lemma ValidateTablesExist_unreachable :
  ValidateTablesExist (catalog []) unreachable [] "shop" ["table1"; "table2"]
  = Some "连接数据库失败: 连接数据库失败: dial tcp 127.0.0.1:3306: connect: connection refused".
Proof. vm_compute. reflexivity. Qed.

Lemma executeBatchInsertDB_bad_batch_size_witness :
  BatchSize (batchOf 0) = 0
  ∧ executeBatchInsertDB acceptAll [] threeRows (batchOf 0) = None
  ∧ - 2 ^ 62 < BatchSize (batchOf (-2)) < 0
  ∧ length (Values oneRow) = 1%nat
  ∧ executeBatchInsertDB acceptAll [] oneRow (batchOf (-2)) = None
  ∧ (2 ≤ length (Values threeRows))%nat
  ∧ Z.of_nat (length (Values threeRows)) < 2 ^ 62
  ∧ executeBatchInsertDB acceptAll [] threeRows (batchOf (-2)) = Some ([], None, []).
Proof.
  assert (HB : - 2 ^ 62 < BatchSize (batchOf (-2)) < 0) by (simpl; lia).
  assert (Htwo : (2 ≤ length (Values threeRows))%nat) by (simpl; lia).
  assert (Hmax : Z.of_nat (length (Values threeRows)) < 2 ^ 62) by (simpl; lia).
  split; [reflexivity|].
  split; [exact (proj1 (executeBatchInsertDB_bad_batch_size acceptAll [] threeRows (batchOf 0))
                   eq_refl)|].
  split; [exact HB|]. split; [reflexivity|].
  split; [exact (proj1 (proj2 (executeBatchInsertDB_bad_batch_size acceptAll [] oneRow (batchOf (-2))))
                   HB eq_refl)|].
  split; [exact Htwo|]. split; [exact Hmax|].
  exact (proj2 (proj2 (executeBatchInsertDB_bad_batch_size acceptAll [] threeRows (batchOf (-2))))
           HB Htwo Hmax).
Defined.

Lemma ExecuteInsertStatements_hides_errors_witness :
  StopOnError keepGoing = false
  ∧ connectToDatabase connected [] "shop" = None
  ∧ ∃ calls,
      ExecuteInsertStatements refuseAll connected [] "shop" [threeRows; fiveRows] keepGoing
      = Some ([], None, calls)
      ∧ length calls = 2%nat.
Proof.
  split; [reflexivity|]. split; [reflexivity|].
  destruct (ExecuteInsertStatements refuseAll connected [] "shop" [threeRows; fiveRows]
              keepGoing) as [[[d' e] calls]|] eqn:Hrun; [|vm_compute in Hrun; discriminate].
  pose proof (ExecuteInsertStatements_hides_errors refuseAll connected [] d' "shop" [threeRows; fiveRows] keepGoing e calls
                eq_refl eq_refl ltac:(discriminate) Hrun) as ->.
  vm_compute in Hrun. injection Hrun as <- <-.
  eexists. split; reflexivity.
Defined.

(** With [StopOnError] off, on an engine that refuses every INSERT: the
    database stays empty, no error is returned, and the summary counts both
    statements as successful and all 8 rows as inserted. *)
Lemma InsertFromSQLFile_counts_refused_rows :
  (λ o, (o.1.1.1, SuccessfulStatements o.1.1.2, FailedStatements o.1.1.2,
         TotalRowsInserted o.1.1.2, o.1.2))
    <$> InsertFromSQLFile refuseAll (catalog []) connected (λ l, l) []
          "shop" (Ok [threeRows; fiveRows]) keepGoing
  = Some ([], 2, 0, 8, None).
Proof. vm_compute. reflexivity. Qed.

Lemma InsertFromSQLFile_totals_witness :
  (∀ l : list (string * TableInsertResult), reverse l ≡ₚ l)
  ∧ ∃ d' res calls,
      InsertFromSQLFile acceptAll (catalog ["table1"; "table2"]) connected reverse []
        "shop" (Ok [threeRows; fiveRows; oneRow]) batchOfTwo = Some (d', res, None, calls)
      ∧ TotalRowsInserted res = 9
      ∧ zsum (StatementsExecuted <$> TableResults res) = 3.
Proof.
  assert (Hperm : ∀ l : list (string * TableInsertResult), reverse l ≡ₚ l)
    by (intros l; apply reverse_Permutation).
  split; [exact Hperm|].
  destruct (InsertFromSQLFile acceptAll (catalog ["table1"; "table2"]) connected reverse []
              "shop" (Ok [threeRows; fiveRows; oneRow]) batchOfTwo)
    as [[[[d' res] e] calls]|] eqn:Hrun; [|vm_compute in Hrun; discriminate].
  assert (He : e = None) by (vm_compute in Hrun; congruence).
  rewrite He in Hrun |- *.
  exists d', res, calls. split; [reflexivity|].
  destruct (InsertFromSQLFile_totals acceptAll (catalog ["table1"; "table2"]) connected
              reverse [] d' "shop" [threeRows; fiveRows; oneRow] batchOfTwo res calls
              Hperm Hrun) as (_ & _ & _ & _ & Hrows & _ & Hstmts & _).
  split; [exact Hrows|exact Hstmts].
Defined.

(** A statement without a column list may carry rows of different lengths;
    one with a column list may not. *)
Lemma ValidateInsertStatements_ragged_rows :
  ValidateInsertStatements
    [{| TableName := "t"; Columns := []; Values := [[VInt 1]; [VInt 1; VInt 2]];
        Statement := "INSERT INTO t VALUES (1), (1, 2)"; LineNumber := 1 |}] = None
  ∧ ValidateInsertStatements
      [{| TableName := "t"; Columns := ["a"]; Values := [[VInt 1]; [VInt 1; VInt 2]];
          Statement := "INSERT INTO t (a) VALUES (1), (1, 2)"; LineNumber := 1 |}]
    = Some "第1个语句第2组值的列数不匹配：期望1列，实际2列".
Proof. split; vm_compute; reflexivity. Qed.

End loader_examples.

(** * [Init] and the lock row *)

Section init_facts.
Import migrator migrator_spec.

Context {U : Type}.
Variable engineExec : string → U → U * result Z.
Variable engineQuery : string → U → result (list (list string)).
Variable driverError : dbCall → Store U → option string.
Variable initError : initCall → Catalog U → option string.

(** What [createLockTable] does when the lock table exists: nothing. *)
Lemma createLockTable_exists (c : Catalog U) :
  hasLockTable c = true → (createLockTable initError c).1 = c.
Proof.
  intros Hlock. unfold createLockTable.
  destruct (initError LockTableExists c); [done|]. by rewrite Hlock.
Qed.

Lemma createMigrationsTable_lock (c : Catalog U) :
  hasLockTable (createMigrationsTable initError c).1 = hasLockTable c
  ∧ lockTable (tables (createMigrationsTable initError c).1) = lockTable (tables c)
  ∧ user (tables (createMigrationsTable initError c).1) = user (tables c)
  ∧ now (tables (createMigrationsTable initError c).1) = now (tables c).
Proof.
  unfold createMigrationsTable.
  destruct (initError MigrationsTableExists c); [done|].
  destruct (hasMigrationsTable c); [done|].
  by destruct (initError CreateMigrationsTable c).
Qed.

Lemma Migrator_Init_fst (c : Catalog U) :
  (Migrator_Init initError c).1
  = match createMigrationsTable initError c with
    | (c1, Some _) => c1
    | (c1, None) => (createLockTable initError c1).1
    end.
Proof.
  unfold Migrator_Init.
  destruct (createMigrationsTable initError c) as [c1 [e|]]; [done|].
  by destruct (createLockTable initError c1) as [c2 [e|]].
Qed.

(** With a checker and a driver that carry out every call, [Init] returns no
    error and leaves both tables in place: a table that was there keeps its
    rows, a lock table that was not has its row, unlocked, and a second
    [Init] changes nothing.  The user tables are not touched. *)
Theorem Init_creates_missing_tables (c : Catalog U) :
  (∀ call c', initError call c' = None) →
  (Migrator_Init initError c).2 = None
  ∧ hasMigrationsTable (Migrator_Init initError c).1 = true
  ∧ hasLockTable (Migrator_Init initError c).1 = true
  ∧ (hasMigrationsTable c = true →
     ledger (tables (Migrator_Init initError c).1) = ledger (tables c))
  ∧ (hasLockTable c = true →
     lockTable (tables (Migrator_Init initError c).1) = lockTable (tables c))
  ∧ (hasLockTable c = false → lockFree (tables (Migrator_Init initError c).1))
  ∧ user (tables (Migrator_Init initError c).1) = user (tables c)
  ∧ Migrator_Init initError (Migrator_Init initError c).1
    = ((Migrator_Init initError c).1, None).
Proof.
  intros Hok. unfold Migrator_Init, createMigrationsTable, createLockTable.
  rewrite !Hok. destruct c as [[] [] s]; simpl; rewrite ?Hok; simpl; rewrite ?Hok;
    split_and!; try done; intros _; by eexists.
Qed.

(** A lock table without its row is not repaired.  Whatever the checker and
    the driver answer, [Init] leaves such a table as it is, and every [Up]
    after it fails on the lock, starts nothing and leaves the store alone. *)
Theorem Init_keeps_lock_row_missing (c : Catalog U) (m : Migrator) :
  hasLockTable c = true → lockTable (tables c) = None →
  hasLockTable (Migrator_Init initError c).1 = true
  ∧ lockTable (tables (Migrator_Init initError c).1) = None
  ∧ ∃ e, Migrator_Up engineExec engineQuery driverError m
           (tables (Migrator_Init initError c).1)
         = {| migrator' := m; store' := tables (Migrator_Init initError c).1;
              err := Some (String.append "获取迁移锁失败: " e); log := [] |}.
Proof.
  intros Hhas Hrow.
  destruct (createMigrationsTable_lock c) as (Hhas1 & Hrow1 & _).
  assert (Hinit : hasLockTable (Migrator_Init initError c).1 = true
                  ∧ lockTable (tables (Migrator_Init initError c).1) = None).
  { rewrite Migrator_Init_fst.
    destruct (createMigrationsTable initError c) as [c1 [e|]]; simpl in *.
    - by rewrite Hhas1, Hrow1.
    - rewrite createLockTable_exists by congruence. by rewrite Hhas1, Hrow1. }
  destruct Hinit as [Hhas' Hrow']. split; [done|]. split; [done|].
  unfold Migrator_Up, acquireLock.
  destruct (driverError AcquireExec _) as [e|]; [by exists e|].
  rewrite Hrow'. by eexists.
Qed.

End init_facts.

Section init_examples.
Import migrator migrator_spec.

Lemma Init_creates_missing_tables_witness :
  (∀ call c', answering call c' = None)
  ∧ Migrator_Init answering freshCatalog
    = ({| hasMigrationsTable := true; hasLockTable := true; tables := freeStore |}, None)
  ∧ Migrator_Init answering
      {| hasMigrationsTable := true; hasLockTable := true; tables := freeStore |}
    = ({| hasMigrationsTable := true; hasLockTable := true; tables := freeStore |}, None).
Proof.
  assert (Hok : ∀ call c', answering call c' = None) by done.
  split; [exact Hok|]. split; [reflexivity|].
  exact (proj2 (proj2 (proj2 (proj2 (proj2 (proj2 (proj2
           (Init_creates_missing_tables answering freshCatalog Hok)))))))).
Defined.

(** The state the theorem speaks of is reached when the connection is lost
    between the two statements of [createLockTable]. *)
Lemma Init_keeps_lock_row_missing_witness :
  Migrator_Init lostAtInsert freshCatalog
  = ({| hasMigrationsTable := true; hasLockTable := true;
        tables := {| ledger := []; lockTable := None; user := [];
                     now := 1700000000 |} |},
     Some "创建锁表失败: invalid connection")
  ∧ Migrator_Init answering (Migrator_Init lostAtInsert freshCatalog).1
    = ((Migrator_Init lostAtInsert freshCatalog).1, None)
  ∧ ∃ e, Migrator_Up engine engineRows reliable (runner [createUsers])
           (tables (Migrator_Init answering
                      (Migrator_Init lostAtInsert freshCatalog).1).1)
         = {| migrator' := runner [createUsers];
              store' := tables (Migrator_Init answering
                                  (Migrator_Init lostAtInsert freshCatalog).1).1;
              err := Some (String.append "获取迁移锁失败: " e); log := [] |}.
Proof.
  split; [reflexivity|]. split; [reflexivity|].
  exact (proj2 (proj2 (Init_keeps_lock_row_missing engine engineRows reliable answering
                         (Migrator_Init lostAtInsert freshCatalog).1
                         (runner [createUsers]) eq_refl eq_refl))).
Defined.

End init_examples.

(** * The values of the INSERT parser and the text the loader writes *)

Section insert_values_facts.
Import database database_spec.

Context (ParseFloat : string → option string) (variables : gmap string Value).

Lemma bytes_str l : Go.bytes (Go.str l) = l.
Proof. apply list_ascii_of_string_of_list_ascii. Qed.

Lemma dropSpace_id (l : list ascii) :
  (∀ c, head l = Some c → Go.isSpace c = false) → Go.dropSpace l = l.
Proof. destruct l as [|c l]; [done|]. intros Hc. simpl. by rewrite (Hc c). Qed.

(** A text that neither starts nor ends with white space is trimmed to
    itself. *)
Lemma TrimSpace_id (s : string) :
  (∀ c, head (Go.bytes s) = Some c → Go.isSpace c = false) →
  (∀ c, last (Go.bytes s) = Some c → Go.isSpace c = false) →
  Go.TrimSpace s = s.
Proof.
  intros Hhead Hlast. unfold Go.TrimSpace.
  rewrite (dropSpace_id (Go.bytes s)) by done.
  rewrite dropSpace_id.
  - by rewrite rev_involutive, str_bytes.
  - intros c. rewrite <- (reverse_involutive (Go.bytes s)) in Hlast.
    rewrite last_reverse in Hlast. rewrite rev_alt in *. apply Hlast.
Qed.

Lemma substring_prefix (v t : string) :
  String.substring 0 (String.length v) (String.append v t) = v.
Proof. induction v as [|a v IH]; simpl; [by destruct t|]. by rewrite IH. Qed.

Lemma append_assoc (s t u : string) :
  String.append (String.append s t) u = String.append s (String.append t u).
Proof.
  induction s as [|a s IH]; [done|].
  change (String a (String.append (String.append s t) u)
          = String a (String.append s (String.append t u))).
  by rewrite IH.
Qed.

Lemma length_append (s t : string) :
  String.length (String.append s t) = (String.length s + String.length t)%nat.
Proof. induction s as [|a s IH]; simpl; [done|]. by rewrite IH. Qed.

Lemma HasSuffix_snoc (s : string) (a : ascii) :
  Go.HasSuffix (String.append s (String a "")) (String a "") = true.
Proof.
  unfold Go.HasSuffix. rewrite bytes_app. simpl. rewrite rev_app_distr. simpl.
  destruct (Ascii.ascii_dec a a); [|done]. by destruct (Go.str (rev (Go.bytes s))).
Qed.

Lemma HasPrefix_cons (s : string) (a : ascii) :
  Go.HasPrefix (String a s) (String a "") = true.
Proof.
  unfold Go.HasPrefix. simpl. destruct (Ascii.ascii_dec a a); [|done]. by destruct s.
Qed.

Lemma HasPrefix_cons_ne (s p : string) (a b : ascii) :
  a ≠ b → Go.HasPrefix (String a s) (String b p) = false.
Proof. intros Hne. unfold Go.HasPrefix. simpl. by destruct (Ascii.ascii_dec b a). Qed.

Lemma TrimSpace_literal (v : string) : Go.TrimSpace (literal v) = literal v.
Proof.
  unfold literal. apply TrimSpace_id; rewrite bytes_app; simpl.
  - by intros c [= <-].
  - intros c. rewrite bytes_app. change (Go.bytes "'") with ["'"%char].
    rewrite app_comm_cons, last_snoc. by intros [= <-].
Qed.

(** [parseValue] on a literal in single quotes: the text between the quotes,
    as it stands. *)
Lemma parseValue_literal (v : string) :
  parseValue ParseFloat variables (literal v) = Some (Ok (VString v)).
Proof.
  unfold parseValue. rewrite TrimSpace_literal. unfold literal.
  cbv zeta.
  rewrite decide_False by done.
  rewrite decide_False by (simpl; discriminate).
  change (String.append "'" (String.append v "'"))
    with (String "'" (String.append v (String "'" ""))).
  rewrite (HasPrefix_cons_ne _ "" "'" "@") by done.
  unfold singleQuote at 1. rewrite HasPrefix_cons.
  assert (Hsuffix : Go.HasSuffix (String "'" (String.append v (String "'" ""))) singleQuote
                    = true).
  { exact (HasSuffix_snoc (String "'" v) "'"). }
  rewrite Hsuffix. cbn [andb orb].
  assert (Hlen : String.length (String "'" (String.append v (String "'" "")))
                 = S (S (String.length v))).
  { simpl. rewrite length_append. simpl. lia. }
  rewrite Hlen. cbn [Nat.ltb Nat.leb].
  do 3 f_equal. simpl. rewrite Nat.sub_0_r. apply substring_prefix.
Qed.

(** *** Integers: [ParseInt] reads what [%v] prints *)

Lemma isDigit_range (c : ascii) :
  Go.isDigit c = true ↔ (48 ≤ nat_of_ascii c ≤ 57)%nat.
Proof.
  unfold Go.isDigit. cbv zeta. rewrite andb_true_iff, !Nat.leb_le. done.
Qed.

Lemma isDigit_not_space (c : ascii) : Go.isDigit c = true → Go.isSpace c = false.
Proof.
  rewrite isDigit_range. intros Hc. unfold Go.isSpace. cbv zeta.
  apply orb_false_iff. split.
  - apply andb_false_iff. right. apply Nat.leb_gt. lia.
  - apply Nat.eqb_neq. lia.
Qed.

Lemma isDigit_ne (c d : ascii) :
  Go.isDigit c = true → ¬ (48 ≤ nat_of_ascii d ≤ 57)%nat → c ≠ d.
Proof. rewrite isDigit_range. intros Hc Hd ->. done. Qed.

Lemma isDigit_upper (c : ascii) : Go.isDigit c = true → Go.toUpperByte c = c.
Proof.
  rewrite isDigit_range. intros Hc. unfold Go.toUpperByte. cbv zeta.
  replace ((97 <=? nat_of_ascii c)%nat) with false; [done|].
  symmetry. apply Nat.leb_gt. lia.
Qed.

Lemma digitsValue_snoc (ds : list ascii) (c : ascii) :
  Go.digitsValue (ds ++ [c])
  = Go.digitsValue ds * 10 + (Z.of_nat (nat_of_ascii c) - 48).
Proof. unfold Go.digitsValue. by rewrite fold_left_app. Qed.

Lemma pretty_N_char_digit (x : N) :
  (x < 10)%N →
  Go.isDigit (pretty_N_char x) = true
  ∧ Z.of_nat (nat_of_ascii (pretty_N_char x)) - 48 = Z.of_N x.
Proof.
  intros Hx.
  assert (x = 0 ∨ x = 1 ∨ x = 2 ∨ x = 3 ∨ x = 4 ∨ x = 5 ∨ x = 6 ∨ x = 7 ∨ x = 8
          ∨ x = 9)%N as Hcases by lia.
  repeat (destruct Hcases as [->|Hcases]; [by vm_compute|]). subst x. by vm_compute.
Qed.

(** The digits [pretty_N_go] puts before a text. *)
Lemma pretty_N_go_digits (x : N) (s : string) :
  ∃ ds, Go.bytes (pretty_N_go x s) = ds ++ Go.bytes s
        ∧ forallb Go.isDigit ds = true
        ∧ Go.digitsValue ds = Z.of_N x
        ∧ ((0 < x)%N → ds ≠ []).
Proof.
  revert s. induction (N.lt_wf_0 x) as [x _ IH]. intros s.
  destruct (decide (x = 0%N)) as [->|Hx].
  { exists []. rewrite pretty_N_go_0. repeat split. lia. }
  rewrite pretty_N_go_step by lia.
  destruct (IH (x `div` 10)%N) with (s := String (pretty_N_char (x `mod` 10)) s)
    as (ds & Hbytes & Hdigits & Hvalue & _).
  { apply N.div_lt; lia. }
  destruct (pretty_N_char_digit (x `mod` 10)%N) as [Hdigit Hchar].
  { apply N.mod_lt. lia. }
  exists (ds ++ [pretty_N_char (x `mod` 10)]). split; [|split; [|split]].
  - rewrite Hbytes. by rewrite <- (assoc_L (++)).
  - rewrite forallb_app, Hdigits. simpl. by rewrite Hdigit.
  - rewrite digitsValue_snoc, Hvalue, Hchar.
    pose proof (N.div_mod x 10) as Hdiv. lia.
  - intros _. by destruct ds.
Qed.

Lemma pretty_N_digits (x : N) :
  ∃ ds, Go.bytes (pretty x) = ds
        ∧ forallb Go.isDigit ds = true
        ∧ Go.digitsValue ds = Z.of_N x
        ∧ ds ≠ [].
Proof.
  unfold pretty, pretty_N. case_decide as Hx.
  - subst x. by exists ["0"%char].
  - destruct (pretty_N_go_digits x "") as (ds & Hbytes & Hdigits & Hvalue & Hne).
    exists ds. rewrite Hbytes. simpl. rewrite app_nil_r.
    repeat split; [done..|]. apply Hne. lia.
Qed.

(** An integer as [%v] prints it: a dash if it is negative, then the digits
    of its absolute value. *)
Lemma pretty_Z_digits (n : Z) :
  ∃ ds, Go.bytes (pretty n) = (if decide (n < 0) then ["-"%char] else []) ++ ds
        ∧ forallb Go.isDigit ds = true
        ∧ Go.digitsValue ds = Z.abs n
        ∧ ds ≠ [].
Proof.
  destruct n as [|x|x].
  - by exists ["0"%char].
  - destruct (pretty_N_digits (Npos x)) as (ds & Hbytes & Hdigits & Hvalue & Hne).
    exists ds. rewrite decide_False by lia. done.
  - destruct (pretty_N_digits (Npos x)) as (ds & Hbytes & Hdigits & Hvalue & Hne).
    exists ds. rewrite decide_True by lia.
    change (pretty (Z.neg x)) with (String.append "-" (pretty (N.pos x))).
    rewrite bytes_app, Hbytes. done.
Qed.

Lemma ParseInt_pretty (n : Z) :
  - 2 ^ 63 ≤ n ≤ 2 ^ 63 - 1 → Go.ParseInt (pretty n) = Some n.
Proof.
  intros Hn. destruct (pretty_Z_digits n) as (ds & Hbytes & Hdigits & Hvalue & Hne).
  unfold Go.ParseInt. rewrite Hbytes.
  destruct ds as [|c ds]; [done|]. case_decide as Hneg.
  - cbn [app]. change (Ascii.eqb "-" "+") with false. change (Ascii.eqb "-" "-") with true.
    cbv iota zeta. cbn [fst snd]. rewrite Hdigits, Hvalue.
    replace (Z.abs n <=? 2 ^ 63) with true by (symmetry; apply Z.leb_le; lia).
    f_equal. lia.
  - cbn [app].
    assert (Hc : Go.isDigit c = true).
    { simpl in Hdigits. by apply andb_true_iff in Hdigits as [? _]. }
    replace (Ascii.eqb c "+") with false
      by (symmetry; apply Ascii.eqb_neq, isDigit_ne; [done|by vm_compute; lia]).
    replace (Ascii.eqb c "-") with false
      by (symmetry; apply Ascii.eqb_neq, isDigit_ne; [done|by vm_compute; lia]).
    cbv iota zeta. cbn [fst snd]. rewrite Hdigits, Hvalue.
    replace (Z.abs n <? 2 ^ 63) with true by (symmetry; apply Z.ltb_lt; lia).
    f_equal. lia.
Qed.

(** *** [parseValue] on what [formatValue] writes *)

Lemma pretty_Z_first (n : Z) :
  ∃ c rest, pretty n = String c rest ∧ (c = "-"%char ∨ Go.isDigit c = true).
Proof.
  destruct (pretty_Z_digits n) as (ds & Hbytes & Hdigits & _ & Hne).
  rewrite <- (str_bytes (pretty n)), Hbytes.
  destruct ds as [|c ds]; [done|]. case_decide.
  - exists "-"%char, (Go.str (c :: ds)). split; [done|by left].
  - exists c, (Go.str ds). split; [done|right].
    simpl in Hdigits. by apply andb_true_iff in Hdigits as [? _].
Qed.

Lemma TrimSpace_pretty (n : Z) : Go.TrimSpace (pretty n) = pretty n.
Proof.
  destruct (pretty_Z_digits n) as (ds & Hbytes & Hdigits & _ & Hne).
  destruct (pretty_Z_first n) as (c & rest & Hs & Hc).
  apply TrimSpace_id.
  - rewrite Hs. intros ? [= <-].
    destruct Hc as [->|Hc]; [done|by apply isDigit_not_space].
  - intros d. rewrite Hbytes. destruct ds as [|c' ds _] using rev_ind; [done|].
    rewrite (assoc_L (++)), last_snoc. intros [= <-].
    rewrite forallb_app in Hdigits. apply andb_true_iff in Hdigits as [_ Hd].
    simpl in Hd. rewrite andb_true_r in Hd. by apply isDigit_not_space.
Qed.

Lemma parseValue_integer (n : Z) :
  - 2 ^ 63 ≤ n ≤ 2 ^ 63 - 1 →
  parseValue ParseFloat variables (pretty n) = Some (Ok (VInt n)).
Proof.
  intros Hn. pose proof (ParseInt_pretty n Hn) as Hparse.
  destruct (pretty_Z_first n) as (c & rest & Hs & Hc).
  unfold parseValue. rewrite TrimSpace_pretty.
  cbv zeta. rewrite Hparse. rewrite Hs.
  rewrite decide_False by done.
  assert (Hupper : Go.toUpperByte c = c).
  { destruct Hc as [->|Hc]; [done|by apply isDigit_upper]. }
  rewrite decide_False.
  2:{ unfold Go.ToUpper. simpl. rewrite Hupper. intros [= -> _].
      destruct Hc as [?|?]; done. }
  rewrite HasPrefix_cons_ne by (intros ->; by destruct Hc).
  unfold singleQuote, doubleQuote.
  rewrite !HasPrefix_cons_ne by (intros ->; by destruct Hc).
  done.
Qed.

(** What [parseValue] makes of the text [formatValue] wrote, for the
    values that are not floats. *)
Lemma parseValue_formatValue_reread (v : Value) :
  ParseFloat "TRUE" = None → ParseFloat "FALSE" = None →
  match v with
  | VFloat _ => False
  | VInt n => - 2 ^ 63 ≤ n ≤ 2 ^ 63 - 1
  | _ => True
  end →
  parseValue ParseFloat variables (formatValue v) = Some (Ok (reread v)).
Proof.
  intros Htrue Hfalse Hv. destruct v as [|s|n|f|[]]; simpl.
  - by vm_compute.
  - apply (parseValue_literal (escapeQuotes s)).
  - by apply parseValue_integer.
  - done.
  - vm_compute. replace (ParseFloat "TRUE") with (@None string). done.
  - vm_compute. replace (ParseFloat "FALSE") with (@None string). done.
Qed.

(** *** The loop of [parseValueGroups] on the text of the loader *)

(** Inside a group, text without quotes, parentheses and commas is added to
    the value at hand. *)
Lemma groupRunes_plain (text : list ascii) gs cur sc :
  forallb (λ a, negb (groupSpecial a)) text = true →
  ∀ cv prev rest, ∃ prev',
    groupRunes ParseFloat variables prev (text ++ rest) (inside gs cur cv sc)
    = groupRunes ParseFloat variables prev' rest (inside gs cur (cv ++ text) sc).
Proof.
  induction text as [|r text IH]; intros Hplain cv prev rest.
  { exists prev. by rewrite app_nil_r. }
  simpl in Hplain. apply andb_true_iff in Hplain as [Hr Hplain].
  apply negb_true_iff in Hr. unfold groupSpecial in Hr. simpl in Hr.
  repeat (apply orb_false_iff in Hr as [? Hr]).
  destruct (IH Hplain (cv ++ [r]) (Some r) rest) as [prev' Hrun].
  exists prev'. rewrite <- (assoc_L (++)) in Hrun.
  change ([r] ++ text) with (r :: text) in Hrun. rewrite <- Hrun.
  cbn [app groupRunes inside inString inValueGroup].
  replace (Ascii.eqb r "'") with false by done.
  replace (Ascii.eqb r "034") with false by done.
  replace (Ascii.eqb r "(") with false by done.
  replace (Ascii.eqb r ")") with false by done.
  replace (Ascii.eqb r ",") with false by done.
  done.
Qed.

(** Inside a literal, the text of a string whose quotes are doubled is
    added to the value, and the literal stays open. *)
Lemma groupRunes_literal (l : list ascii) gs cur :
  forallb (λ a, negb (Ascii.eqb a "\")) l = true →
  ∀ cv prev rest,
    match prev with Some b => negb (Ascii.eqb b "\") | None => true end = true →
    ∃ prev',
      match prev' with Some b => negb (Ascii.eqb b "\") | None => true end = true
      ∧ groupRunes ParseFloat variables prev
          (concat ((λ a, if Ascii.eqb a "'" then ["'"; "'"]%char else [a]) <$> l) ++ rest)
          (inLiteral gs cur cv)
        = groupRunes ParseFloat variables prev' rest
            (inLiteral gs cur
               (cv ++ concat ((λ a, if Ascii.eqb a "'" then ["'"; "'"]%char else [a])
                              <$> l))).
Proof.
  induction l as [|r l IH]; intros Hl cv prev rest Hprev.
  { exists prev. by rewrite app_nil_r. }
  simpl in Hl. apply andb_true_iff in Hl as [Hr Hl].
  rewrite fmap_cons. cbn [concat].
  destruct (Ascii.eqb r "'") eqn:Hquote.
  - destruct (IH Hl (cv ++ ["'"; "'"]%char) (Some "'"%char) rest eq_refl)
      as (prev' & Hprev' & Hrun).
    exists prev'. split; [done|].
    rewrite <- (assoc_L (++) cv) in Hrun. rewrite <- Hrun.
    cbn [app groupRunes inLiteral groups current currentValue inString stringChar
         parenDepth inValueGroup].
    change (Ascii.eqb "'" "'") with true. rewrite Hprev. cbn [andb orb].
    by rewrite <- (assoc_L (++) cv).
  - destruct (IH Hl (cv ++ [r]) (Some r) rest Hr) as (prev' & Hprev' & Hrun).
    exists prev'. split; [done|].
    rewrite <- (assoc_L (++) cv) in Hrun. rewrite <- Hrun.
    cbn [app groupRunes inLiteral groups current currentValue inString stringChar
         parenDepth inValueGroup].
    by rewrite Hquote.
Qed.

Lemma isDigit_plain (c : ascii) : Go.isDigit c = true → groupSpecial c = false.
Proof.
  intros Hc. unfold groupSpecial. simpl.
  repeat (apply orb_false_iff; split); [..|done];
    apply Ascii.eqb_neq, isDigit_ne; try done; by vm_compute; lia.
Qed.

Lemma without_backslash (s : string) :
  sqlparser_spec.without ["\"]%char s = true →
  forallb (λ a, negb (Ascii.eqb a "\")) (Go.bytes s) = true.
Proof.
  unfold sqlparser_spec.without. induction (Go.bytes s) as [|a l IH]; [done|].
  simpl. rewrite orb_false_r. intros [Ha Hl]%andb_true_iff.
  by rewrite Ha, IH.
Qed.

Lemma formatValue_bytes_string (s : string) :
  Go.bytes (formatValue (VString s))
  = "'"%char :: concat ((λ a, if Ascii.eqb a "'" then ["'"; "'"]%char else [a])
                        <$> Go.bytes s) ++ ["'"%char].
Proof.
  cbn [formatValue]. rewrite !bytes_app. unfold escapeQuotes. by rewrite bytes_str.
Qed.

(** Inside a group, the text of a value is added to the value at hand. *)
Lemma groupRunes_value (v : Value) gs cur :
  printable v →
  ∀ cv sc prev rest, ∃ prev' sc',
    groupRunes ParseFloat variables prev (Go.bytes (formatValue v) ++ rest)
      (inside gs cur cv sc)
    = groupRunes ParseFloat variables prev' rest
        (inside gs cur (cv ++ Go.bytes (formatValue v)) sc').
Proof.
  intros Hv cv sc prev rest. destruct v as [|s|n|f|b].
  - destruct (groupRunes_plain (Go.bytes "NULL") gs cur sc eq_refl cv prev rest)
      as [prev' Hrun].
    by exists prev', sc.
  - rewrite formatValue_bytes_string.
    destruct (groupRunes_literal (Go.bytes s) gs cur (without_backslash s Hv)
                (cv ++ ["'"%char]) (Some "'"%char) ("'"%char :: rest) eq_refl)
      as (prev' & Hprev' & Hrun).
    exists (Some "'"%char), "'"%char.
    cbn [app groupRunes inside groups current currentValue inString stringChar
         parenDepth inValueGroup].
    change (Ascii.eqb "'" "'") with true. cbn [orb].
    rewrite <- (assoc_L (++) _ ["'"%char] rest). cbn [app].
    etrans; [exact Hrun|].
    cbn [app groupRunes inLiteral groups current currentValue inString stringChar
         parenDepth inValueGroup].
    change (Ascii.eqb "'" "'") with true. rewrite Hprev'. cbn [andb].
    unfold inside. by rewrite <- !(assoc_L (++) cv).
  - destruct (pretty_Z_digits n) as (ds & Hbytes & Hdigits & _ & _).
    destruct (groupRunes_plain (Go.bytes (pretty n)) gs cur sc) with (cv := cv)
      (prev := prev) (rest := rest) as [prev' Hrun].
    { rewrite Hbytes, forallb_app. apply andb_true_iff. split.
      - by case_decide.
      - clear Hbytes. induction ds as [|c ds IH]; [done|]. simpl in *.
        apply andb_true_iff in Hdigits as [Hc Hds].
        by rewrite (isDigit_plain c Hc), IH. }
    by exists prev', sc.
  - done.
  - destruct b.
    + destruct (groupRunes_plain (Go.bytes "TRUE") gs cur sc eq_refl cv prev rest)
        as [prev' Hrun].
      by exists prev', sc.
    + destruct (groupRunes_plain (Go.bytes "FALSE") gs cur sc eq_refl cv prev rest)
        as [prev' Hrun].
      by exists prev', sc.
Qed.

Lemma formatValue_TrimSpace (v : Value) :
  printable v → Go.TrimSpace (formatValue v) = formatValue v.
Proof.
  destruct v as [|s|n|f|[]]; intros Hv; simpl; try done.
  - apply (TrimSpace_literal (escapeQuotes s)).
  - apply TrimSpace_pretty.
Qed.

Lemma formatValue_nonempty (v : Value) :
  printable v → (0 < length (Go.bytes (formatValue v)))%nat.
Proof.
  destruct v as [|s|n|f|[]]; intros Hv; simpl; try done; try lia.
  destruct (pretty_Z_first n) as (c & rest & -> & _). simpl. lia.
Qed.

(** The value the loop parses at the end of a value's text. *)
Lemma parseValue_padded (v : Value) (cv : list ascii) :
  ParseFloat "TRUE" = None → ParseFloat "FALSE" = None →
  printable v → cv = [] ∨ cv = [" "%char] →
  parseValue ParseFloat variables
    (Go.TrimSpace (Go.str (cv ++ Go.bytes (formatValue v))))
  = Some (Ok (reread v)).
Proof.
  intros Htrue Hfalse Hv Hcv.
  assert (Htrim : Go.TrimSpace (Go.str (cv ++ Go.bytes (formatValue v)))
                  = formatValue v).
  { rewrite <- (formatValue_TrimSpace v Hv) at 2.
    destruct Hcv as [->| ->]; cbn [app].
    - by rewrite str_bytes.
    - unfold Go.TrimSpace. by rewrite bytes_str. }
  rewrite Htrim. apply parseValue_formatValue_reread; [done..|].
  by destruct v.
Qed.

Lemma commaJoin_cons (x y : string) (l : list string) :
  commaJoin (x :: y :: l) = String.append x (String.append ", " (commaJoin (y :: l))).
Proof. done. Qed.

(** The values of a group, up to the parenthesis that closes it. *)
Lemma groupRunes_row (row : list Value) gs :
  ParseFloat "TRUE" = None → ParseFloat "FALSE" = None →
  Forall printable row → row ≠ [] →
  ∀ cur cv sc prev rest, cv = [] ∨ cv = [" "%char] → ∃ prev' sc',
    groupRunes ParseFloat variables prev
      (Go.bytes (commaJoin (formatValue <$> row)) ++ ")"%char :: rest)
      (inside gs cur cv sc)
    = groupRunes ParseFloat variables prev' rest
        (outside (gs ++ [cur ++ (reread <$> row)]) sc').
Proof.
  intros Htrue Hfalse Hrow Hne.
  induction row as [|v row IH]; [done|]. clear Hne.
  apply Forall_cons in Hrow as [Hv Hrow].
  intros cur cv sc prev rest Hcv.
  destruct row as [|w row].
  - destruct (groupRunes_value v gs cur Hv cv sc prev (")"%char :: rest))
      as (prev' & sc' & Hrun).
    exists (Some ")"%char), sc'. cbn [fmap list_fmap commaJoin]. rewrite Hrun.
    cbn [groupRunes inside groups current currentValue inString stringChar
         parenDepth inValueGroup].
    change (Ascii.eqb ")" "'" || Ascii.eqb ")" "034") with false.
    change (Ascii.eqb ")" "(") with false. change (Ascii.eqb ")" ")") with true.
    cbv iota. rewrite decide_True by done.
    rewrite decide_True
      by (rewrite length_app; pose proof (formatValue_nonempty v Hv); lia).
    rewrite parseValue_padded by done. done.
  - destruct (groupRunes_value v gs cur Hv cv sc prev
                (Go.bytes (String.append ", " (commaJoin (formatValue <$> w :: row)))
                 ++ ")"%char :: rest))
      as (prev' & sc' & Hrun).
    destruct (IH Hrow ltac:(done) (cur ++ [reread v]) [" "%char] sc' (Some " "%char)
                rest ltac:(by right)) as (prev'' & sc'' & Hrest).
    exists prev'', sc''.
    rewrite !fmap_cons in Hrun, Hrest.
    rewrite !fmap_cons, commaJoin_cons, bytes_app, <- (assoc_L (++)), Hrun.
    rewrite bytes_app. change (Go.bytes ", ") with [","; " "]%char.
    cbn [app groupRunes inside groups current currentValue inString stringChar
         parenDepth inValueGroup].
    change (Ascii.eqb "," "'" || Ascii.eqb "," "034") with false.
    change (Ascii.eqb "," "(") with false. change (Ascii.eqb "," ")") with false.
    change (Ascii.eqb "," ",") with true.
    cbv iota. rewrite bool_decide_eq_true_2 by done. cbn [andb].
    rewrite parseValue_padded by done.
    cbn [app groupRunes inside groups current currentValue inString stringChar
         parenDepth inValueGroup].
    change (Ascii.eqb " " "'" || Ascii.eqb " " "034") with false.
    change (Ascii.eqb " " "(") with false. change (Ascii.eqb " " ")") with false.
    change (Ascii.eqb " " ",") with false. cbv iota.
    etrans; [exact Hrest|].
    by rewrite <- (assoc_L (++) cur).
Qed.

(** A group of the loader's text, read between two groups. *)
Lemma groupRunes_group (row : list Value) gs :
  ParseFloat "TRUE" = None → ParseFloat "FALSE" = None →
  Forall printable row →
  ∀ sc prev rest, ∃ prev' sc',
    groupRunes ParseFloat variables prev (Go.bytes (groupText row) ++ rest)
      (outside gs sc)
    = groupRunes ParseFloat variables prev' rest
        (outside (gs ++ [reread <$> row]) sc').
Proof.
  intros Htrue Hfalse Hrow sc prev rest. unfold groupText.
  rewrite !bytes_app, <- !(assoc_L (++)).
  change (Go.bytes "(") with ["("%char]. change (Go.bytes ")") with [")"%char].
  cbn [app groupRunes outside groups current currentValue inString stringChar
       parenDepth inValueGroup].
  change (Ascii.eqb "(" "'" || Ascii.eqb "(" "034") with false.
  change (Ascii.eqb "(" "(") with true. cbv iota. cbn [negb].
  destruct (decide (row = [])) as [->|Hne].
  - exists (Some ")"%char), sc.
    cbn [fmap list_fmap commaJoin Go.bytes list_ascii_of_string app groupRunes
         groups current currentValue inString stringChar parenDepth inValueGroup].
    change (Ascii.eqb ")" "'" || Ascii.eqb ")" "034") with false.
    change (Ascii.eqb ")" "(") with false. change (Ascii.eqb ")" ")") with true.
    cbv iota. rewrite decide_True by done. rewrite decide_False by (simpl; lia).
    done.
  - destruct (groupRunes_row row gs Htrue Hfalse Hrow Hne [] [] sc (Some "("%char) rest)
      as (prev' & sc' & Hrun); [by left|].
    exists prev', sc'. exact Hrun.
Qed.

(** The groups of the loader's text. *)
Lemma groupRunes_valuesClause (rows : list (list Value)) :
  ParseFloat "TRUE" = None → ParseFloat "FALSE" = None →
  Forall (Forall printable) rows →
  ∀ gs sc prev rest, ∃ prev' sc',
    groupRunes ParseFloat variables prev (Go.bytes (valuesClause rows) ++ rest)
      (outside gs sc)
    = groupRunes ParseFloat variables prev' rest
        (outside (gs ++ (fmap (M := list) reread <$> rows)) sc').
Proof.
  intros Htrue Hfalse. unfold valuesClause.
  induction rows as [|row rows IH]; intros Hrows gs sc prev rest.
  { exists prev, sc. by rewrite app_nil_r. }
  apply Forall_cons in Hrows as [Hrow Hrows].
  destruct rows as [|row' rows].
  - destruct (groupRunes_group row gs Htrue Hfalse Hrow sc prev rest)
      as (prev' & sc' & Hrun).
    by exists prev', sc'.
  - destruct (groupRunes_group row gs Htrue Hfalse Hrow sc prev
                (Go.bytes ", " ++ Go.bytes (commaJoin (groupText <$> row' :: rows))
                 ++ rest))
      as (prev' & sc' & Hrun).
    destruct (IH Hrows (gs ++ [reread <$> row]) sc' (Some " "%char) rest)
      as (prev'' & sc'' & Hrest).
    exists prev'', sc''.
    rewrite !fmap_cons in Hrun, Hrest.
    rewrite !fmap_cons, commaJoin_cons, !bytes_app, <- !(assoc_L (++)), Hrun.
    change (Go.bytes ", ") with [","; " "]%char.
    cbn [app groupRunes outside groups current currentValue inString stringChar
         parenDepth inValueGroup].
    change (Ascii.eqb "," "'" || Ascii.eqb "," "034") with false.
    change (Ascii.eqb "," "(") with false. change (Ascii.eqb "," ")") with false.
    change (Ascii.eqb "," ",") with true.
    change (Ascii.eqb " " "'" || Ascii.eqb " " "034") with false.
    change (Ascii.eqb " " "(") with false. change (Ascii.eqb " " ")") with false.
    change (Ascii.eqb " " ",") with false. cbv iota. cbn [andb negb].
    etrans; [exact Hrest|].
    by rewrite <- (assoc_L (++) gs).
Qed.

(** *** Round trips *)

Lemma escapeQuotes_length (l : list ascii) :
  (length l ≤ length (concat ((λ a, if Ascii.eqb a "'" then ["'"; "'"]%char else [a])
                               <$> l)))%nat.
Proof.
  induction l as [|a l IH]; [done|]. rewrite fmap_cons. cbn [concat].
  rewrite length_app. destruct (Ascii.eqb a "'"); simpl; lia.
Qed.

Lemma escapeQuotes_id (v : string) :
  escapeQuotes v = v ↔ sqlparser_spec.without ["'"]%char v = true.
Proof.
  unfold escapeQuotes, sqlparser_spec.without.
  rewrite <- (str_bytes v) at 2. split.
  - intros Heq. apply (f_equal Go.bytes) in Heq. rewrite !bytes_str in Heq.
    induction (Go.bytes v) as [|a l IH]; [done|].
    rewrite fmap_cons in Heq. cbn [concat] in Heq. simpl.
    rewrite orb_false_r. destruct (Ascii.eqb a "'") eqn:Ha.
    + apply (f_equal length) in Heq. simpl in Heq.
      pose proof (escapeQuotes_length l). lia.
    + simplify_eq/=. by apply IH.
  - intros Hv. f_equal. induction (Go.bytes v) as [|a l IH]; [done|].
    simpl in Hv. rewrite orb_false_r in Hv. apply andb_true_iff in Hv as [Ha Hl].
    apply negb_true_iff in Ha. rewrite fmap_cons. cbn [concat]. rewrite Ha.
    simpl. by rewrite IH.
Qed.

(** A string literal of a file, through the parser and the loader.
    [parseValue] keeps the text between the outer quotes as it stands, a
    doubled quote included; [formatValue] then doubles every quote of it.
    The text the loader sends is the text of the file only for a literal
    without a quote inside. *)
Theorem string_literal_round_trip (v : string) :
  parseValue ParseFloat variables (literal v) = Some (Ok (VString v))
  ∧ formatValue (VString v) = literal (escapeQuotes v)
  ∧ (formatValue (VString v) = literal v ↔ sqlparser_spec.without ["'"]%char v = true).
Proof.
  split; [apply parseValue_literal|]. split; [done|].
  rewrite <- escapeQuotes_id. cbn [formatValue]. unfold literal. split.
  - intros Heq. apply (f_equal Go.bytes) in Heq. rewrite !bytes_app in Heq.
    apply (inj (app _)), (inj (λ l, l ++ _)) in Heq.
    by rewrite <- (str_bytes (escapeQuotes v)), Heq, str_bytes.
  - by intros ->.
Qed.

(** The rows the loader writes after VALUES, read by the parser, for rows
    whose strings are in ASCII: every row comes back, in order, with its
    values; the quotes of a string stay doubled, so the rows come back as
    they were only if no string has a quote. *)
Theorem parseValueGroups_valuesClause (tableName : string) (columns : list string)
    (rows : list (list Value)) :
  ParseFloat "TRUE" = None → ParseFloat "FALSE" = None →
  Forall (Forall asciiValue) rows →
  Forall (Forall printable) rows →
  (∃ head, buildBatchInsertSQL tableName columns rows
           = String.append head (String.append " VALUES " (valuesClause rows)))
  ∧ parseValueGroups ParseFloat variables (valuesClause rows)
    = Some (Ok (fmap (M := list) reread <$> rows))
  ∧ (Forall (Forall quoteFree) rows →
     parseValueGroups ParseFloat variables (valuesClause rows) = Some (Ok rows)).
Proof.
  intros Htrue Hfalse _ Hrows.
  assert (Hparse : parseValueGroups ParseFloat variables (valuesClause rows)
                   = Some (Ok (fmap (M := list) reread <$> rows))).
  { unfold parseValueGroups.
    destruct (groupRunes_valuesClause rows Htrue Hfalse Hrows [] zero None [])
      as (prev' & sc' & Hrun).
    rewrite app_nil_r in Hrun. exact Hrun. }
  split; [|split; [done|]].
  - unfold buildBatchInsertSQL.
    exists (String.append "INSERT INTO `" (String.append tableName (String.append "`"
              (match columns with
               | [] => ""
               | _ => String.append " ("
                        (String.append
                           (commaJoin ((λ col, String.append "`" (String.append col "`"))
                                       <$> columns))
                           ")")
               end)))).
    by rewrite !append_assoc.
  - intros Hfree. rewrite Hparse. do 2 f_equal.
    rewrite <- (list_fmap_id rows) at 2. apply Forall_fmap_ext_1.
    eapply Forall_impl; [exact Hfree|]. intros row Hrow. simpl.
    rewrite <- (list_fmap_id row) at 2. apply Forall_fmap_ext_1.
    eapply Forall_impl; [exact Hrow|]. intros [|s|n|f|b] Hv; try done.
    simpl in *. f_equal. by apply escapeQuotes_id.
Qed.

(** A group that the text does not close is dropped: the rows before it are
    returned, and no error. *)
Theorem parseValueGroups_unclosed_group (rows : list (list Value)) (tail : string) :
  ParseFloat "TRUE" = None → ParseFloat "FALSE" = None →
  Forall (Forall printable) rows →
  forallb (λ a, negb (groupSpecial a)) (Go.bytes tail) = true →
  parseValueGroups ParseFloat variables
    (String.append (valuesClause rows) (String.append ", (" tail))
  = parseValueGroups ParseFloat variables (valuesClause rows).
Proof.
  intros Htrue Hfalse Hrows Htail. unfold parseValueGroups.
  change groupStart with (outside [] zero).
  destruct (groupRunes_valuesClause rows Htrue Hfalse Hrows [] zero None [])
    as (prev1 & sc1 & Hrun1).
  rewrite app_nil_r in Hrun1. rewrite Hrun1.
  destruct (groupRunes_valuesClause rows Htrue Hfalse Hrows [] zero None
              (Go.bytes (String.append ", (" tail))) as (prev2 & sc2 & Hrun2).
  rewrite bytes_app, Hrun2, bytes_app.
  change (Go.bytes ", (") with [","; " "; "("]%char.
  cbn [app groupRunes outside groups current currentValue inString stringChar
       parenDepth inValueGroup].
  change (Ascii.eqb "," "'" || Ascii.eqb "," "034") with false.
  change (Ascii.eqb "," "(") with false. change (Ascii.eqb "," ")") with false.
  change (Ascii.eqb "," ",") with true.
  change (Ascii.eqb " " "'" || Ascii.eqb " " "034") with false.
  change (Ascii.eqb " " "(") with false. change (Ascii.eqb " " ")") with false.
  change (Ascii.eqb " " ",") with false.
  change (Ascii.eqb "(" "'" || Ascii.eqb "(" "034") with false.
  change (Ascii.eqb "(" "(") with true. cbv iota. cbn [andb negb].
  destruct (groupRunes_plain (Go.bytes tail) ([] ++ (fmap (M := list) reread <$> rows))
              [] sc2 Htail [] (Some "("%char) []) as [prev3 Hrun3].
  rewrite app_nil_r in Hrun3. etrans; [exact Hrun3|]. done.
Qed.

End insert_values_facts.

Section insert_values_examples.
Import database database_spec.

Lemma parseValueGroups_valuesClause_witness :
  Forall (Forall asciiValue) [[VInt 1; VString "it's"]; [VNil; VBool true]]
  ∧ Forall (Forall printable) [[VInt 1; VString "it's"]; [VNil; VBool true]]
  ∧ buildBatchInsertSQL "t" [] [[VInt 1; VString "it's"]; [VNil; VBool true]]
    = "INSERT INTO `t` VALUES (1, 'it''s'), (NULL, TRUE)"
  ∧ parseValueGroups noFloat ∅ "(1, 'it''s'), (NULL, TRUE)"
    = Some (Ok [[VInt 1; VString "it''s"]; [VNil; VBool true]]).
Proof.
  assert (Hrows : Forall (Forall printable)
                    [[VInt 1; VString "it's"]; [VNil; VBool true]]).
  { repeat constructor; simpl; lia. }
  assert (Hascii : Forall (Forall asciiValue)
                     [[VInt 1; VString "it's"]; [VNil; VBool true]]).
  { repeat constructor. }
  split; [exact Hascii|]. split; [exact Hrows|]. split; [reflexivity|].
  exact (proj1 (proj2 (parseValueGroups_valuesClause noFloat ∅ "t" []
                         [[VInt 1; VString "it's"]; [VNil; VBool true]]
                         eq_refl eq_refl Hascii Hrows))).
Defined.

Lemma parseValueGroups_unclosed_group_witness :
  Forall (Forall printable) [[VInt 1; VInt 2]]
  ∧ parseValueGroups noFloat ∅ "(1, 2), (3 4"
    = parseValueGroups noFloat ∅ "(1, 2)".
Proof.
  assert (Hrows : Forall (Forall printable) [[VInt 1; VInt 2]]).
  { repeat constructor; simpl; lia. }
  split; [exact Hrows|].
  exact (parseValueGroups_unclosed_group noFloat ∅ [[VInt 1; VInt 2]] "3 4"
           eq_refl eq_refl Hrows eq_refl).
Defined.

(** A literal with an escaped quote comes out of the loader with two more
    quotes; a text that is one quote stops the parser. *)
Lemma string_literal_examples :
  parseValue noFloat ∅ "'it''s'" = Some (Ok (VString "it''s"))
  ∧ formatValue (VString "it''s") = "'it''''s'"
  ∧ parseValue noFloat ∅ "'" = None.
Proof. repeat split; vm_compute; reflexivity. Qed.

End insert_values_examples.
